(** * Payslip comparison pipeline: normalizer, diff engine, facts generator,
      narrator fallback and orchestrator.

    The development follows the TypeScript sources file by file:
    [schemas/change-record.ts], [schemas/normalized.ts], [schemas/payslip.ts],
    [utils/payslip-utils.ts], [engine/diff-engine.ts],
    [engine/facts-generator.ts], [engine/narrator.ts], [engine/pipeline.ts],
    [schemas/tax-type.ts] and [server.ts].

    Amounts are JavaScript numbers, that is IEEE 754 doubles.  A finite
    double is read as the rational it denotes; the two infinities and NaN
    are values of their own, with the arithmetic and the comparisons the
    standard gives them.  A result whose magnitude reaches the bound from
    which doubles round to infinity overflows to the infinity of its sign.
    Below that bound results are kept exact: the rounding of a result to 53
    significant bits is not modelled, and the two zeros are one value.
    Calendar fields (year, month) and identifiers are integers, on which the
    arithmetic of doubles is exact up to 2^53. *)

From Stdlib Require Import List String Ascii Bool ZArith QArith Qabs Lqa Lia.
From Stdlib Require Import Permutation Sorted DecimalString.
Import ListNotations.

Set Implicit Arguments.
Open Scope list_scope.
Open Scope string_scope.

(** ** JavaScript values *)

Module Js.

(** *** Numbers *)

Inductive number := Fin (q : Q) | Infinity (negative : bool) | NaN.

Definition of_Z (z : Z) : number := Fin (inject_Z z).

Definition to_Z (n : number) : option Z :=
  match n with
  | Fin (z # 1) => Some z
  | _ => None
  end.

(** The least magnitude that rounds to infinity: [2^1024 - 2^970], half a
    unit in the last place above [Number.MAX_VALUE]. *)
Definition overflow : Q :=
  Eval vm_compute in inject_Z (2 ^ 1024 - 2 ^ 970).

Definition negative (q : Q) : bool := negb (Qle_bool 0 q).

(** The double an exact result becomes. *)
Definition fit (q : Q) : number :=
  if Qle_bool overflow (Qabs q) then Infinity (negative q) else Fin q.

(** [-a], [a + b], [a - b], [a * b], [a / b] and [Math.abs(a)].  A zero
    divisor is taken as [+0]. *)
Definition neg (a : number) : number :=
  match a with
  | Fin x => Fin (- x)
  | Infinity s => Infinity (negb s)
  | NaN => NaN
  end.

Definition add (a b : number) : number :=
  match a, b with
  | Fin x, Fin y => fit (x + y)
  | Fin _, Infinity s | Infinity s, Fin _ => Infinity s
  | Infinity s, Infinity t => if Bool.eqb s t then Infinity s else NaN
  | _, _ => NaN
  end.

Definition sub (a b : number) : number := add a (neg b).

Definition mul (a b : number) : number :=
  match a, b with
  | Fin x, Fin y => fit (x * y)
  | Fin x, Infinity s | Infinity s, Fin x =>
      if Qeq_bool x 0 then NaN else Infinity (xorb s (negative x))
  | Infinity s, Infinity t => Infinity (xorb s t)
  | _, _ => NaN
  end.

Definition div (a b : number) : number :=
  match a, b with
  | Fin x, Fin y =>
      if Qeq_bool y 0
      then if Qeq_bool x 0 then NaN else Infinity (negative x)
      else fit (x / y)
  | Fin _, Infinity _ => Fin 0
  | Infinity s, Fin y => Infinity (xorb s (negative y))
  | _, _ => NaN
  end.

Definition abs (a : number) : number :=
  match a with
  | Fin x => Fin (Qabs x)
  | Infinity _ => Infinity false
  | NaN => NaN
  end.

(** [a === b] on numbers: NaN equals nothing. *)
Definition eqn (a b : number) : bool :=
  match a, b with
  | Fin x, Fin y => Qeq_bool x y
  | Infinity s, Infinity t => Bool.eqb s t
  | _, _ => false
  end.

(** [a < b], [a > b] and [a <= b]: false whenever NaN is compared. *)
Definition ltn (a b : number) : bool :=
  match a, b with
  | Fin x, Fin y => negb (Qle_bool y x)
  | Fin _, Infinity t => negb t
  | Infinity s, Fin _ => s
  | Infinity s, Infinity t => s && negb t
  | _, _ => false
  end.

Definition gtn (a b : number) : bool := ltn b a.
Definition leq (a b : number) : bool := ltn a b || eqn a b.

(** [Number.isNaN], [Number.isFinite], and the truth value of a number in a
    condition: 0 and NaN are falsy. *)
Definition isNaN (a : number) : bool :=
  match a with NaN => true | _ => false end.

Definition isFinite (a : number) : bool :=
  match a with Fin _ => true | _ => false end.

Definition toBoolean (a : number) : bool := negb (eqn a (Fin 0) || isNaN a).

(** The same number: what [Object.is] tells apart, the two zeros aside. *)
Definition same (a b : number) : Prop :=
  match a, b with
  | Fin x, Fin y => (x == y)%Q
  | Infinity s, Infinity t => s = t
  | NaN, NaN => True
  | _, _ => False
  end.

(** [Number.isSafeInteger] on an integer. *)
Definition isSafeInteger (z : Z) : bool :=
  (Z.abs z <=? 2 ^ 53 - 1)%Z.

(** [n + 1] on an integer that is a double.  The sum is exact from [-2^53]
    up to [2^53 - 1].  Elsewhere below [2^54] in magnitude the doubles are
    the even integers and the odd sum is a tie, which goes to the neighbour
    with the even significand; from [2^54] on the sum rounds back to [n]. *)
Definition succ (n : Z) : Z :=
  if ((- 2 ^ 53 <=? n) && (n <? 2 ^ 53))%Z then (n + 1)%Z
  else if (Z.abs n <? 2 ^ 54)%Z
       then if Z.even (n / 2) then n else (n + 2)%Z
       else n.

(** *** Other values *)

(** [x ?? d] on a possibly undefined value. *)
Definition nullish {A} (x : option A) (d : A) : A :=
  match x with Some v => v | None => d end.

(** [!!x] on an object-or-undefined value. *)
Definition truthy {A} (x : option A) : bool :=
  match x with Some _ => true | None => false end.

(** [`${n}`] for an integer below [10^21] in magnitude, which prints as
    its decimal digits. *)
Definition show_int (z : Z) : string := NilZero.string_of_int (Z.to_int z).

(** [Array.prototype.find]. *)
Definition find {A} (p : A -> bool) (l : list A) : option A := List.find p l.

(** [Array.prototype.includes] on strings. *)
Definition includes (l : list string) (s : string) : bool :=
  existsb (String.eqb s) l.

(** [Array.prototype.join]. *)
Fixpoint join (sep : string) (l : list string) : string :=
  match l with
  | [] => ""
  | [s] => s
  | s :: rest => s ++ sep ++ join sep rest
  end.

(** [Array.prototype.sort(cmp)]: the comparator answers a number whose sign
    decides, a NaN answer counting as 0; the sort is stable.  [le a b]
    stands for "[cmp(a, b)] is not positive".  Each element is put in front
    of the first element of the sorted tail it does not exceed, so it stays
    ahead of the later elements it ties with.  For a comparator that is a
    total preorder the answer does not depend on the algorithm of the host
    (lemma [stable_sort_unique]); for any other comparator the host is free
    in the order it answers, and only what holds of every permutation, or
    of every merge by that comparator, is claimed of it. *)
Section Sort.
Context {A : Type} (le : A -> A -> bool).

Fixpoint insert (x : A) (l : list A) : list A :=
  match l with
  | [] => [x]
  | y :: l' => if le x y then x :: y :: l' else y :: insert x l'
  end.

Fixpoint sort (l : list A) : list A :=
  match l with
  | [] => []
  | x :: l' => insert x (sort l')
  end.
End Sort.

(** [new Set(iterable)]: insertion order, a value already present is not
    added again. *)
Definition set_add (acc : list string) (x : string) : list string :=
  if includes acc x then acc else (acc ++ [x])%list.

Definition new_Set (l : list string) : list string :=
  fold_left set_add l [].

(** [Map<string, V>]: entries in insertion order; [set] on a present key
    replaces the value in place, [get] answers the entry of the key. *)
Section MapOps.
Context {V : Type}.

Definition Map := list (string * V).

Fixpoint get (m : Map) (k : string) : option V :=
  match m with
  | [] => None
  | (k', v) :: m' => if String.eqb k k' then Some v else get m' k
  end.

Fixpoint set (m : Map) (k : string) (v : V) : Map :=
  match m with
  | [] => [(k, v)]
  | (k', v') :: m' =>
      if String.eqb k k' then (k', v) :: m' else (k', v') :: set m' k v
  end.

Definition keys (m : Map) : list string := List.map fst m.
Definition values (m : Map) : list V := List.map snd m.
End MapOps.
Arguments Map : clear implicits.

(** *** Object literals used as tables

    The property names every object inherits from [Object.prototype]. *)
Definition Object_prototype : list string :=
  [ "constructor"; "hasOwnProperty"; "isPrototypeOf"; "propertyIsEnumerable";
    "toLocaleString"; "toString"; "valueOf"; "__proto__";
    "__defineGetter__"; "__defineSetter__"; "__lookupGetter__";
    "__lookupSetter__" ].

(** What [table[key]] answers on an object literal: its own property of
    that name; failing that, the member of [Object.prototype] of that name,
    which is a function (for "__proto__" the prototype object): a truthy
    value that cannot be iterated and has no array methods; failing that,
    [undefined]. *)
Inductive Property (V : Type) :=
  Own (v : V) | Inherited (key : string) | Undefined.
Arguments Own {V} v.
Arguments Inherited {V} key.
Arguments Undefined {V}.

Definition index {V} (table : Map V) (key : string) : Property V :=
  match get table key with
  | Some v => Own v
  | None => if includes Object_prototype key then Inherited key else Undefined
  end.

End Js.

Declare Scope js_scope.
Delimit Scope js_scope with js.
Bind Scope js_scope with Js.number.
Number Notation Js.number Js.of_Z Js.to_Z : js_scope.
Infix "+" := Js.add : js_scope.
Infix "-" := Js.sub : js_scope.
Infix "*" := Js.mul : js_scope.
Infix "/" := Js.div : js_scope.

Arguments Js.fit : simpl never.
Arguments Qle_bool : simpl never.
Arguments Qeq_bool : simpl never.

(** ** schemas/change-record.ts *)

Inductive ChangeDirection := increase | decrease | unchanged | added | removed.

Inductive ChangeCategory :=
  earning | deduction | fringe_benefit | company_contribution
| aggregate | key_amount.

Inductive ImportanceLevel := high | medium | low.

Scheme Equality for ChangeDirection.
Scheme Equality for ChangeCategory.
Scheme Equality for ImportanceLevel.

Record ChangeRecord := mkChange {
  id : string;
  label : string;
  category : ChangeCategory;
  code : string;
  oldValue : Js.number;
  newValue : Js.number;
  delta : Js.number;
  percentChange : option Js.number;
  direction : ChangeDirection;
  importance : ImportanceLevel
}.

Record PeriodStamp := mkStamp { stamp_year : Z; stamp_month : Z }.

Record Summary := mkSummary {
  totalChanges : nat;
  increases : nat;
  decreases : nat;
  s_added : nat;
  s_removed : nat;
  netPayDelta : Js.number
}.

Record ComparisonResult := mkComparison {
  previousPeriod : PeriodStamp;
  currentPeriod : PeriodStamp;
  c_employeeCode : string;
  c_displayName : string;
  changes : list ChangeRecord;
  summary : Summary
}.

Definition getChangeDirection (oldValue newValue : Js.number)
    (isAdded isRemoved : bool) : ChangeDirection :=
  if isAdded then added
  else if isRemoved then removed
  else if Js.gtn newValue oldValue then increase
  else if Js.ltn newValue oldValue then decrease
  else unchanged.

Definition calculatePercentChange (oldValue newValue : Js.number)
    : option Js.number :=
  if Js.eqn oldValue 0 then None
  else Some (((newValue - oldValue) / Js.abs oldValue) * 100)%js.

Definition determineImportance (category : ChangeCategory) (code : string)
    (delta : Js.number) (direction : ChangeDirection) : ImportanceLevel :=
  if code =? "netPay" then high
  else if (code =? "PAYE") || (code =? "paye") then high
  else if (code =? "SALARY") || (code =? "basicSalary") then high
  else if ChangeDirection_beq direction added
          || ChangeDirection_beq direction removed then medium
  else if ChangeCategory_beq category aggregate then medium
  else if Js.ltn (Js.abs delta) 100 then low
  else medium.

(** The importance policy as the specification words it: a decision list
    over the code, the direction, the category and the size of the delta. *)
Definition high_codes : list string :=
  ["netPay"; "PAYE"; "paye"; "SALARY"; "basicSalary"].

Definition importance_policy (category : ChangeCategory) (code : string)
    (delta : Js.number) (direction : ChangeDirection) : ImportanceLevel :=
  if in_dec string_dec code high_codes then high
  else match direction with
       | added | removed => medium
       | _ =>
           match category with
           | aggregate => medium
           | _ => if Js.ltn (Js.abs delta) 100 then low else medium
           end
       end.

(** ** schemas/normalized.ts *)

Record NormalizedLine := mkLine {
  l_code : string;
  description : string;
  amount : Js.number;
  taxableAmount : Js.number;
  taxDeductibleAmount : Js.number
}.

Record Period := mkPeriod {
  year : Z;
  month : Z;
  startDate : string;
  endDate : string
}.

Record Totals := mkTotals {
  grossEarnings : Js.number;
  totalTaxableEarnings : Js.number;
  totalDeductions : Js.number;
  totalTaxDeductible : Js.number;
  totalFringeBenefits : Js.number;
  totalCompanyContributions : Js.number;
  netPay : Js.number
}.

Record KeyAmounts := mkKeyAmounts {
  basicSalary : Js.number;
  paye : Js.number;
  uif : Js.number;
  overtime : Js.number;
  travel : Js.number;
  commission : Js.number
}.

Definition LineMap := Js.Map NormalizedLine.

Record NormalizedPayslip := mkNormalized {
  payslipID : Z;
  employeeCode : string;
  displayName : string;
  period : Period;
  taxYear : Z;
  earnings : LineMap;
  deductions : LineMap;
  fringeBenefits : LineMap;
  companyContributions : LineMap;
  totals : Totals;
  keyAmounts : KeyAmounts
}.

(** [comparePeriods]: the sign of the answer orders two periods.  The
    difference of two integers that are doubles is exact for safe integers;
    rounded, it keeps its sign and is 0 for equal terms only. *)
Definition comparePeriods (a b : Period) : Z :=
  if negb (year a =? year b)%Z then (year a - year b)%Z
  else (month a - month b)%Z.

Definition isConsecutiveMonth (a b : Period) : bool :=
  if (month a =? 12)%Z
  then (year b =? Js.succ (year a))%Z && (month b =? 1)%Z
  else (year b =? year a)%Z && (month b =? Js.succ (month a))%Z.

(** ** schemas/payslip.ts

    The line items keep the fields the pipeline reads.  Earnings and fringe
    benefits carry [taxableAmount]; deductions and company contributions
    carry [taxDeductibleAmount]. *)

Record EarningLine := mkEarning {
  e_lineCode : string;
  e_lineDescription : string;
  e_total : Js.number;
  e_taxableAmount : Js.number
}.

Record DeductionLine := mkDeduction {
  d_lineCode : string;
  d_lineDescription : string;
  d_total : Js.number;
  d_taxDeductibleAmount : Js.number
}.

Definition FringeBenefitLine := EarningLine.
Definition CompanyContributionLine := DeductionLine.

Record PayslipHeader := mkHeader {
  h_payslipID : Z;
  h_displayName : string;
  h_employeeCode : string;
  periodStartDate : string;
  periodEndDate : string;
  calendarMonth : Z;
  calendarYear : Z;
  statutoryTaxYear : Z;
  h_netPay : Js.number;
  h_earnings : list EarningLine;
  h_deductions : list DeductionLine;
  h_fringeBenefits : list FringeBenefitLine;
  h_companyContributions : list CompanyContributionLine
}.

(** ** utils/payslip-utils.ts *)

Definition isPrimaryPayslip (payslip : PayslipHeader) : bool :=
  match Js.find (fun e => e_lineCode e =? "SALARY") (h_earnings payslip) with
  | Some salary => Js.gtn (e_total salary) 0
  | None => false
  end.

Definition filterPrimaryPayslips (payslips : list PayslipHeader)
    : list PayslipHeader :=
  filter isPrimaryPayslip payslips.

(** The comparator of [sortPayslipsByPeriod] and the test [cmp(a, b) <= 0]
    the sort makes with it. *)
Definition period_cmp (a b : PayslipHeader) : Z :=
  if negb (calendarYear a =? calendarYear b)%Z
  then (calendarYear a - calendarYear b)%Z
  else (calendarMonth a - calendarMonth b)%Z.

Definition period_le (a b : PayslipHeader) : bool :=
  (period_cmp a b <=? 0)%Z.

Definition sortPayslipsByPeriod (payslips : list PayslipHeader)
    : list PayslipHeader :=
  Js.sort period_le payslips.

Definition normalizeEarningLine (line : EarningLine) : NormalizedLine :=
  {| l_code := e_lineCode line;
     description := e_lineDescription line;
     amount := e_total line;
     taxableAmount := e_taxableAmount line;
     taxDeductibleAmount := 0 |}.

Definition normalizeDeductionLine (line : DeductionLine) : NormalizedLine :=
  {| l_code := d_lineCode line;
     description := d_lineDescription line;
     amount := d_total line;
     taxableAmount := 0;
     taxDeductibleAmount := d_taxDeductibleAmount line |}.

(** [for (const x of xs) m.set(code(x), norm(x))] from an empty map. *)
Definition build_map {A} (codeOf : A -> string) (norm : A -> NormalizedLine)
    (xs : list A) : LineMap :=
  fold_left (fun m x => Js.set m (codeOf x) (norm x)) xs [].

(** [xs.reduce((sum, x) => sum + f(x), 0)]. *)
Definition reduce_sum {A} (f : A -> Js.number) (xs : list A) : Js.number :=
  fold_left (fun sum x => (sum + f x)%js) xs 0%js.

(** [m.get(code)?.amount ?? 0]. *)
Definition amount_of (m : LineMap) (c : string) : Js.number :=
  Js.nullish (option_map amount (Js.get m c)) 0%js.

Definition normalizePayslip (payslip : PayslipHeader) : NormalizedPayslip :=
  let earnings :=
    build_map e_lineCode normalizeEarningLine (h_earnings payslip) in
  let deductions :=
    build_map d_lineCode normalizeDeductionLine (h_deductions payslip) in
  let fringeBenefits :=
    build_map e_lineCode normalizeEarningLine (h_fringeBenefits payslip) in
  let companyContributions :=
    build_map d_lineCode normalizeDeductionLine
      (h_companyContributions payslip) in
  let ot15 := amount_of earnings "OTIME1_5" in
  let ot20 := amount_of earnings "OTIME2_0" in
  {| payslipID := h_payslipID payslip;
     employeeCode := h_employeeCode payslip;
     displayName := h_displayName payslip;
     period := {| year := calendarYear payslip;
                  month := calendarMonth payslip;
                  startDate := periodStartDate payslip;
                  endDate := periodEndDate payslip |};
     taxYear := statutoryTaxYear payslip;
     earnings := earnings;
     deductions := deductions;
     fringeBenefits := fringeBenefits;
     companyContributions := companyContributions;
     totals :=
       {| grossEarnings := reduce_sum e_total (h_earnings payslip);
          totalTaxableEarnings :=
            reduce_sum e_taxableAmount (h_earnings payslip);
          totalDeductions := reduce_sum d_total (h_deductions payslip);
          totalTaxDeductible :=
            reduce_sum d_taxDeductibleAmount (h_deductions payslip);
          totalFringeBenefits := reduce_sum e_total (h_fringeBenefits payslip);
          totalCompanyContributions :=
            reduce_sum d_total (h_companyContributions payslip);
          netPay := h_netPay payslip |};
     keyAmounts :=
       {| basicSalary := amount_of earnings "SALARY";
          paye := amount_of deductions "PAYE";
          uif := amount_of deductions "UIF";
          overtime := (ot15 + ot20)%js;
          travel := amount_of earnings "TRAVEL";
          commission := amount_of earnings "COMM" |} |}.

Definition getNormalizedPrimaryPayslips (payslips : list PayslipHeader)
    : list NormalizedPayslip :=
  map normalizePayslip (sortPayslipsByPeriod (filterPrimaryPayslips payslips)).

(** [[normalized[length - 2], normalized[length - 1]]], or [undefined] when
    fewer than two are there. *)
Definition getPayslipPairForComparison (payslips : list PayslipHeader)
    : option (NormalizedPayslip * NormalizedPayslip) :=
  let normalized := getNormalizedPrimaryPayslips payslips in
  if (List.length normalized <? 2)%nat then None
  else
    match nth_error normalized (List.length normalized - 2),
          nth_error normalized (List.length normalized - 1) with
    | Some previous, Some current => Some (previous, current)
    | _, _ => None
    end.

(** Sum of a field over the lines a map holds, in the map's own order. *)
Definition sum_over (f : NormalizedLine -> Js.number) (m : LineMap)
    : Js.number :=
  fold_left (fun sum l => (sum + f l)%js) (Js.values m) 0%js.

(** ** engine/diff-engine.ts *)

Definition category_name (c : ChangeCategory) : string :=
  match c with
  | earning => "earning"
  | deduction => "deduction"
  | fringe_benefit => "fringe_benefit"
  | company_contribution => "company_contribution"
  | aggregate => "aggregate"
  | key_amount => "key_amount"
  end.

(** A loop [for (const x of xs) { ... continue ... changes.push(r) }] whose
    body pushes at most one record per round: [body x] is the record pushed
    in the round of [x], or [None] when the round is skipped. *)
Definition for_push {A B} (body : A -> option B) (xs : list A) : list B :=
  fold_left
    (fun changes x =>
       match body x with
       | Some r => (changes ++ [r])%list
       | None => changes
       end)
    xs [].

(** One round of the loop of [compareLineMaps]. *)
Definition compareLine (category : ChangeCategory) (oldMap newMap : LineMap)
    (code : string) : option ChangeRecord :=
  let oldLine := Js.get oldMap code in
  let newLine := Js.get newMap code in
  let oldValue := Js.nullish (option_map amount oldLine) 0%js in
  let newValue := Js.nullish (option_map amount newLine) 0%js in
  let isAdded := negb (Js.truthy oldLine) && Js.truthy newLine in
  let isRemoved := Js.truthy oldLine && negb (Js.truthy newLine) in
  if Js.eqn oldValue 0 && Js.eqn newValue 0 && negb isAdded && negb isRemoved
  then None
  else
    let delta := (newValue - oldValue)%js in
    if Js.eqn delta 0 && negb isAdded && negb isRemoved then None
    else
      let direction := getChangeDirection oldValue newValue isAdded isRemoved in
      let label :=
        match newLine with
        | Some l => description l
        | None =>
            match oldLine with
            | Some l => description l
            | None => code
            end
        end in
      Some {| id := category_name category ++ ":" ++ code ++ ":amount";
              label := label;
              category := category;
              code := code;
              oldValue := oldValue;
              newValue := newValue;
              delta := delta;
              percentChange := calculatePercentChange oldValue newValue;
              direction := direction;
              importance :=
                determineImportance category code delta direction |}.

Definition allCodes (oldMap newMap : LineMap) : list string :=
  Js.new_Set (Js.keys oldMap ++ Js.keys newMap).

Definition compareLineMaps (category : ChangeCategory)
    (oldMap newMap : LineMap) : list ChangeRecord :=
  for_push (compareLine category oldMap newMap) (allCodes oldMap newMap).

Record AggregateField := mkField {
  f_code : string;
  f_label : string;
  getValue : NormalizedPayslip -> Js.number
}.

Definition AGGREGATE_FIELDS : list AggregateField :=
  [ mkField "grossEarnings" "Gross Earnings"
      (fun ps => grossEarnings (totals ps));
    mkField "totalTaxableEarnings" "Taxable Earnings"
      (fun ps => totalTaxableEarnings (totals ps));
    mkField "totalDeductions" "Total Deductions"
      (fun ps => totalDeductions (totals ps));
    mkField "netPay" "Net Pay" (fun ps => netPay (totals ps));
    mkField "totalFringeBenefits" "Fringe Benefits"
      (fun ps => totalFringeBenefits (totals ps));
    mkField "totalCompanyContributions" "Company Contributions"
      (fun ps => totalCompanyContributions (totals ps)) ].

Definition KEY_AMOUNT_FIELDS : list AggregateField :=
  [ mkField "basicSalary" "Basic Salary"
      (fun ps => basicSalary (keyAmounts ps));
    mkField "paye" "PAYE Tax" (fun ps => paye (keyAmounts ps));
    mkField "uif" "UIF" (fun ps => uif (keyAmounts ps));
    mkField "overtime" "Overtime" (fun ps => overtime (keyAmounts ps));
    mkField "travel" "Travel Allowance" (fun ps => travel (keyAmounts ps));
    mkField "commission" "Commission" (fun ps => commission (keyAmounts ps)) ].

(** One round of the loop of [compareAggregates]. *)
Definition compareField (category : ChangeCategory)
    (prev curr : NormalizedPayslip) (field : AggregateField)
    : option ChangeRecord :=
  let oldValue := getValue field prev in
  let newValue := getValue field curr in
  let delta := (newValue - oldValue)%js in
  if Js.eqn delta 0 then None
  else if Js.eqn oldValue 0 && Js.eqn newValue 0 then None
  else
    let direction := getChangeDirection oldValue newValue false false in
    Some {| id := category_name category ++ ":" ++ f_code field;
            label := f_label field;
            category := category;
            code := f_code field;
            oldValue := oldValue;
            newValue := newValue;
            delta := delta;
            percentChange := calculatePercentChange oldValue newValue;
            direction := direction;
            importance :=
              determineImportance category (f_code field) delta direction |}.

Definition compareAggregates (category : ChangeCategory)
    (fields : list AggregateField) (prev curr : NormalizedPayslip)
    : list ChangeRecord :=
  for_push (compareField category prev curr) fields.

Definition skipCodes : list string :=
  ["basicSalary"; "paye"; "uif"; "travel"; "commission"].

Definition importanceOrder (i : ImportanceLevel) : Z :=
  match i with high => 0 | medium => 1 | low => 2 end.

(** The comparator handed to [changes.sort], and the test the sort makes
    with it: the answer is not positive. *)
Definition change_cmp (a b : ChangeRecord) : Js.number :=
  let importanceDiff :=
    Js.of_Z
      (importanceOrder (importance a) - importanceOrder (importance b)) in
  if negb (Js.eqn importanceDiff 0) then importanceDiff
  else (Js.abs (delta b) - Js.abs (delta a))%js.

Definition change_le (a b : ChangeRecord) : bool :=
  negb (Js.gtn (change_cmp a b) 0).

(** The [changes] array of [comparePayslips] as it stands before the sort:
    the four line-item passes, the aggregate pass, and the key amounts that
    are not in [skipCodes]. *)
Definition collectChanges (previous current : NormalizedPayslip)
    : list ChangeRecord :=
  ((compareLineMaps earning (earnings previous) (earnings current)
    ++ compareLineMaps deduction (deductions previous) (deductions current)
    ++ compareLineMaps fringe_benefit
         (fringeBenefits previous) (fringeBenefits current)
    ++ compareLineMaps company_contribution
         (companyContributions previous) (companyContributions current))
   ++ compareAggregates aggregate AGGREGATE_FIELDS previous current
   ++ for_push
        (fun change =>
           if negb (Js.includes skipCodes (code change)) then Some change
           else None)
        (compareAggregates key_amount KEY_AMOUNT_FIELDS previous current))%list.

Definition count_direction (d : ChangeDirection) (cs : list ChangeRecord)
    : nat :=
  List.length (filter (fun c => ChangeDirection_beq (direction c) d) cs).

Definition comparePayslips (previous current : NormalizedPayslip)
    : ComparisonResult :=
  let changes := Js.sort change_le (collectChanges previous current) in
  {| previousPeriod :=
       {| stamp_year := year (period previous);
          stamp_month := month (period previous) |};
     currentPeriod :=
       {| stamp_year := year (period current);
          stamp_month := month (period current) |};
     c_employeeCode := employeeCode current;
     c_displayName := displayName current;
     changes := changes;
     summary :=
       {| totalChanges := List.length changes;
          increases := count_direction increase changes;
          decreases := count_direction decrease changes;
          s_added := count_direction added changes;
          s_removed := count_direction removed changes;
          netPayDelta :=
            (netPay (totals current) - netPay (totals previous))%js |} |}.

Definition getHighImportanceChanges (result : ComparisonResult)
    : list ChangeRecord :=
  filter (fun c => ImportanceLevel_beq (importance c) high) (changes result).

Definition getChangesByCategory (result : ComparisonResult)
    (cat : ChangeCategory) : list ChangeRecord :=
  filter (fun c => ChangeCategory_beq (category c) cat) (changes result).

(** ** schemas/fact.ts *)

Module FactType.
Inductive t :=
  net_pay_change | summary | causal | tax_impact
| earning_change | earning_added | earning_removed
| deduction_change | deduction_added | deduction_removed
| no_change.

Scheme Equality for t.
End FactType.

Record FactValues := mkValues {
  v_amount : Js.number;
  v_delta : Js.number;
  v_percentChange : option Js.number
}.

Record Fact := mkFact {
  fact_id : string;
  fact_type : FactType.t;
  fact_importance : ImportanceLevel;
  sentence : string;
  relatedChangeIds : option (list string);
  values : option FactValues
}.

Record FactsResult := mkFacts {
  periodDescription : string;
  employeeName : string;
  facts : list Fact;
  keyTakeaway : string
}.

(** ** engine/facts-generator.ts *)

(** What a [catch] clause receives: an [Error] with its message, or any
    other thrown value. *)
Inductive Thrown := ErrorObject (message : string) | OtherValue.

(** What the host contributes.  Its two number printers:
    [n.toLocaleString("en-ZA", ...)] with exactly two fraction digits, and
    [n.toFixed(1)].  The messages of the two TypeErrors it raises when the
    member of [Object.prototype] of a given name is handed to a [for...of]
    loop, and when a missing method of it is called. *)
Class Host := {
  toLocaleString2 : Js.number -> string;
  toFixed1 : Js.number -> string;
  notIterable : string -> string;
  notFunction : string -> string
}.

Definition CURRENCY : string := "ZAR".

Definition months : list string :=
  ["January"; "February"; "March"; "April"; "May"; "June";
   "July"; "August"; "September"; "October"; "November"; "December"].

(** [months[month - 1] || `Month ${month}`]. *)
Definition getMonthName (month : Z) : string :=
  let entry :=
    if (0 <=? month - 1)%Z then nth_error months (Z.to_nat (month - 1))
    else None in
  match entry with
  | Some name => name
  | None => "Month " ++ Js.show_int month
  end.

(** [CAUSAL_RULES]: what a code affects downstream. *)
Definition CAUSAL_RULES : Js.Map (list string) :=
  [ ("SALARY", ["grossEarnings"; "totalTaxableEarnings"]);
    ("OTIME1_5", ["grossEarnings"; "totalTaxableEarnings"]);
    ("OTIME2_0", ["grossEarnings"; "totalTaxableEarnings"]);
    ("COMM", ["grossEarnings"; "totalTaxableEarnings"]);
    ("TRAVEL", ["grossEarnings"; "totalTaxableEarnings"]);
    ("grossEarnings", ["netPay"]);
    ("totalTaxableEarnings", ["PAYE"]);
    ("totalDeductions", ["netPay"]);
    ("PAYE", ["netPay"]);
    ("UIF", ["netPay"]);
    ("ADVANCE", ["netPay"]) ].

(** [CAUSAL_RULES[code] || []]: the array the table holds under the code,
    the empty array for a code it does not know, and for a code that names
    a member of [Object.prototype] that member. *)
Definition getAffectedBy (code : string) : Js.Property (list string) :=
  match Js.index CAUSAL_RULES code with
  | Js.Undefined => Js.Own []
  | found => found
  end.

Section Sentences.
Context `{Host}.

(** [affects.includes(effectCode)] throws when [affects] is no array. *)
Definition couldHaveCaused (causeCode effectCode : string) : Thrown + bool :=
  match getAffectedBy causeCode with
  | Js.Own affects => inr (Js.includes affects effectCode)
  | Js.Inherited key => inl (ErrorObject (notFunction key))
  | Js.Undefined => inl (ErrorObject (notFunction causeCode))
  end.

Definition formatCurrency (amount : Js.number) : string :=
  CURRENCY ++ " " ++ toLocaleString2 (Js.abs amount).

Definition formatPercent (percent : Js.number) : string :=
  toFixed1 (Js.abs percent) ++ "%".

Definition generateNetPaySentence (change : ChangeRecord) : string :=
  let delta := formatCurrency (delta change) in
  match direction change with
  | increase => "Your net pay increased by " ++ delta ++ " this month."
  | decrease => "Your net pay decreased by " ++ delta ++ " this month."
  | _ => "Your net pay remained the same this month."
  end.

(** [change.percentChange ? ` (${formatPercent(...)})` : ""]: a null, a
    zero or a NaN percentage prints nothing. *)
Definition percent_suffix (change : ChangeRecord) : string :=
  match percentChange change with
  | Some p => if Js.toBoolean p then " (" ++ formatPercent p ++ ")" else ""
  | None => ""
  end.

Definition generateEarningChangeSentence (change : ChangeRecord) : string :=
  let delta := formatCurrency (Js.abs (delta change)) in
  let percent := percent_suffix change in
  match direction change with
  | increase => label change ++ " increased by " ++ delta ++ percent ++ "."
  | decrease => label change ++ " decreased by " ++ delta ++ percent ++ "."
  | added =>
      "You received " ++ label change ++ " of "
      ++ formatCurrency (newValue change) ++ " this month."
  | removed =>
      label change ++ " was not paid this month (previously "
      ++ formatCurrency (oldValue change) ++ ")."
  | unchanged =>
      label change ++ " remained unchanged at "
      ++ formatCurrency (newValue change) ++ "."
  end.

Definition generateDeductionChangeSentence (change : ChangeRecord)
    : string :=
  let delta := formatCurrency (Js.abs (delta change)) in
  let percent := percent_suffix change in
  match direction change with
  | increase => label change ++ " increased by " ++ delta ++ percent ++ "."
  | decrease => label change ++ " decreased by " ++ delta ++ percent ++ "."
  | added =>
      "A new deduction for " ++ label change ++ " of "
      ++ formatCurrency (newValue change) ++ " was applied."
  | removed =>
      label change ++ " deduction was removed (previously "
      ++ formatCurrency (oldValue change) ++ ")."
  | unchanged =>
      label change ++ " remained unchanged at "
      ++ formatCurrency (newValue change) ++ "."
  end.

Definition generateTaxImpactSentence (change : ChangeRecord) : string :=
  let delta := formatCurrency (Js.abs (delta change)) in
  if (code change =? "PAYE")
     && ChangeDirection_beq (direction change) increase
  then "Your PAYE tax increased by " ++ delta
       ++ " due to higher taxable earnings."
  else if (code change =? "PAYE")
          && ChangeDirection_beq (direction change) decrease
  then "Your PAYE tax decreased by " ++ delta
       ++ " due to lower taxable earnings."
  else if (code change =? "UIF")
          && ChangeDirection_beq (direction change) increase
  then "Your UIF contribution increased by " ++ delta ++ "."
  else if (code change =? "UIF")
          && ChangeDirection_beq (direction change) decrease
  then "Your UIF contribution decreased by " ++ delta ++ "."
  else generateDeductionChangeSentence change.

Definition generateCausalSentence (cause effect : ChangeRecord) : string :=
  let causeDirection :=
    if ChangeDirection_beq (direction cause) increase
    then "increased" else "decreased" in
  let effectDirection :=
    if ChangeDirection_beq (direction effect) increase
    then "increased" else "decreased" in
  if (code cause =? "SALARY") && (code effect =? "PAYE") then
    "Because your Basic Salary " ++ causeDirection
    ++ ", your PAYE tax also " ++ effectDirection ++ "."
  else if ChangeCategory_beq (category cause) earning
          && (code effect =? "grossEarnings") then
    "Your " ++ label cause
    ++ " change contributed to the overall change in gross earnings."
  else if (code cause =? "totalTaxableEarnings")
          && (code effect =? "PAYE") then
    "Your PAYE tax " ++ effectDirection
    ++ " because your taxable earnings " ++ causeDirection ++ "."
  else if (code cause =? "PAYE") && (code effect =? "netPay") then
    let payeAmount := formatCurrency (Js.abs (delta cause)) in
    if ChangeDirection_beq (direction cause) increase
    then "The increase in PAYE (" ++ payeAmount ++ ") reduced your net pay."
    else "The decrease in PAYE (" ++ payeAmount
         ++ ") increased your net pay."
  else if (code cause =? "ADVANCE") && (code effect =? "netPay") then
    "An advance deduction of " ++ formatCurrency (newValue cause)
    ++ " significantly impacted your net pay."
  else
    "The change in " ++ label cause ++ " affected your "
    ++ label effect ++ ".".

Definition changeToFactType (change : ChangeRecord) : FactType.t :=
  if code change =? "netPay" then FactType.net_pay_change
  else if (code change =? "PAYE") || (code change =? "UIF")
  then FactType.tax_impact
  else
    match category change with
    | earning =>
        match direction change with
        | added => FactType.earning_added
        | removed => FactType.earning_removed
        | _ => FactType.earning_change
        end
    | deduction =>
        match direction change with
        | added => FactType.deduction_added
        | removed => FactType.deduction_removed
        | _ => FactType.deduction_change
        end
    | _ => FactType.summary
    end.

Definition generateFactFromChange (change : ChangeRecord) : Fact :=
  let type := changeToFactType change in
  let sentence :=
    match type with
    | FactType.net_pay_change => generateNetPaySentence change
    | FactType.tax_impact => generateTaxImpactSentence change
    | FactType.earning_change
    | FactType.earning_added
    | FactType.earning_removed => generateEarningChangeSentence change
    | FactType.deduction_change
    | FactType.deduction_added
    | FactType.deduction_removed => generateDeductionChangeSentence change
    | _ =>
        label change ++ " changed from "
        ++ formatCurrency (oldValue change) ++ " to "
        ++ formatCurrency (newValue change) ++ "."
    end in
  {| fact_id := "fact:" ++ id change;
     fact_type := type;
     fact_importance := importance change;
     sentence := sentence;
     relatedChangeIds := None;
     values := Some {| v_amount := newValue change;
                       v_delta := delta change;
                       v_percentChange := percentChange change |} |}.

(** [changesByCode]: the last record set under a code is the one kept. *)
Definition changesByCode (changes : list ChangeRecord)
    : Js.Map ChangeRecord :=
  fold_left (fun m change => Js.set m (code change) change) changes [].

(** One round of the inner loop of [generateCausalFacts]. *)
Definition causalFact (byCode : Js.Map ChangeRecord) (cause : ChangeRecord)
    (effectCode : string) : option Fact :=
  match Js.get byCode effectCode with
  | Some effect =>
      if negb (ChangeDirection_beq (direction effect) unchanged) then
        Some {| fact_id := "causal:" ++ code cause ++ "->" ++ code effect;
                fact_type := FactType.causal;
                fact_importance := medium;
                sentence := generateCausalSentence cause effect;
                relatedChangeIds := Some [id cause; id effect];
                values := None |}
      else None
  | None => None
  end.

(** The outer loop of [generateCausalFacts] from a given cause on.  The
    inner [for (const effectCode of affects)] throws a TypeError when
    [affects] cannot be iterated, which ends the function. *)
Fixpoint causalLoop (byCode : Js.Map ChangeRecord) (causes : list ChangeRecord)
    (causalFacts : list Fact) : Thrown + list Fact :=
  match causes with
  | [] => inr causalFacts
  | cause :: rest =>
      match getAffectedBy (code cause) with
      | Js.Own affects =>
          causalLoop byCode rest
            (causalFacts ++ for_push (causalFact byCode cause) affects)%list
      | Js.Inherited key => inl (ErrorObject (notIterable key))
      | Js.Undefined => inl (ErrorObject (notIterable (code cause)))
      end
  end.

Definition generateCausalFacts (changes : list ChangeRecord)
    : Thrown + list Fact :=
  causalLoop (changesByCode changes) changes [].

Definition typePriority (t : FactType.t) : Z :=
  match t with
  | FactType.net_pay_change => 0
  | FactType.summary => 1
  | FactType.causal => 2
  | FactType.tax_impact => 3
  | FactType.earning_change => 4
  | FactType.earning_added => 5
  | FactType.earning_removed => 6
  | FactType.deduction_change => 7
  | FactType.deduction_added => 8
  | FactType.deduction_removed => 9
  | FactType.no_change => 10
  end.

(** The comparator handed to [facts.sort]. *)
Definition fact_cmp (a b : Fact) : Z :=
  let impDiff :=
    (importanceOrder (fact_importance a)
     - importanceOrder (fact_importance b))%Z in
  if negb (impDiff =? 0)%Z then impDiff
  else (typePriority (fact_type a) - typePriority (fact_type b))%Z.

Definition fact_le (a b : Fact) : bool := (fact_cmp a b <=? 0)%Z.

(** [generateFacts] once the causal facts are there. *)
Definition assembleFacts (comparison : ComparisonResult)
    (causalFacts : list Fact) : FactsResult :=
  let relevantChanges :=
    filter
      (fun c => negb (ChangeCategory_beq (category c) aggregate)
                || (code c =? "netPay"))
      (changes comparison) in
  let facts :=
    Js.sort fact_le
      (map generateFactFromChange relevantChanges ++ causalFacts)%list in
  let prevMonth := getMonthName (stamp_month (previousPeriod comparison)) in
  let currMonth := getMonthName (stamp_month (currentPeriod comparison)) in
  let year := stamp_year (currentPeriod comparison) in
  let netPayFact :=
    Js.find
      (fun f => FactType.t_beq (fact_type f) FactType.net_pay_change)
      facts in
  {| periodDescription :=
       "Changes from " ++ prevMonth ++ " to " ++ currMonth ++ " "
       ++ Js.show_int year;
     employeeName := c_displayName comparison;
     facts := facts;
     keyTakeaway :=
       match netPayFact with
       | Some f =>
           if sentence f =? "" then "No significant changes this month."
           else sentence f
       | None => "No significant changes this month."
       end |}.

(** [inl] is the TypeError thrown by [generateCausalFacts]. *)
Definition generateFacts (comparison : ComparisonResult)
    : Thrown + FactsResult :=
  match generateCausalFacts (changes comparison) with
  | inl thrown => inl thrown
  | inr causalFacts => inr (assembleFacts comparison causalFacts)
  end.

Definition getKeyFacts (result : FactsResult) (limit : nat) : list Fact :=
  firstn limit (facts result).

Definition getFactsByType (result : FactsResult) (type : FactType.t)
    : list Fact :=
  filter (fun f => FactType.t_beq (fact_type f) type) (facts result).

Definition getCausalFacts (result : FactsResult) : list Fact :=
  filter (fun f => FactType.t_beq (fact_type f) FactType.causal)
    (facts result).

Definition getAllSentences (result : FactsResult) : list string :=
  map sentence (facts result).

(** *** engine/narrator.ts: the deterministic rendering *)

Definition narrateFactsSimple (facts : FactsResult) : string :=
  let keyFacts := getKeyFacts facts 5 in
  let lines :=
    List.app
      [ "📋 **Payslip Summary for " ++ employeeName facts ++ "**";
        "📅 " ++ periodDescription facts;
        "";
        "**Key Takeaway:** " ++ keyTakeaway facts;
        "";
        "**Details:**" ]
      (map (fun f => "• " ++ sentence f) keyFacts) in
  Js.join (String (ascii_of_nat 10) "") lines.

End Sentences.

(** ** engine/narrator.ts: the contract of the narration collaborator *)

Inductive Language := en | af.

Record NarratorConfig := mkConfig {
  model : option string;
  maxTokens : option Z;
  temperature : option Js.number;
  language : option Language
}.

Record Usage := mkUsage {
  promptTokens : Z;
  completionTokens : Z;
  totalTokens : Z
}.

Record NarratorResult := mkNarration {
  explanation : string;
  usage : option Usage;
  n_model : string
}.

(** [await narrateFacts(facts, config)]: the promise of the remote text
    generation either rejects with a thrown value or resolves to a result. *)
Class Narrator := {
  narrateFacts : FactsResult -> option NarratorConfig -> Thrown + NarratorResult
}.

(** ** engine/pipeline.ts *)

Record PayslipPair := mkPair {
  previous : NormalizedPayslip;
  current : NormalizedPayslip
}.

Record PipelineResult := mkResult {
  success : bool;
  error : option string;
  payslips : option PayslipPair;
  comparison : option ComparisonResult;
  r_facts : option FactsResult;
  r_explanation : option string;
  llmUsage : option Usage
}.

Record PipelineOptions := mkOptions {
  useLLM : option bool;
  narratorConfig : option NarratorConfig;
  comparePeriods_opt : option (PeriodStamp * PeriodStamp)
}.

Definition failure (msg : string) : PipelineResult :=
  {| success := false; error := Some msg; payslips := None;
     comparison := None; r_facts := None; r_explanation := None;
     llmUsage := None |}.

(** [error instanceof Error ? error.message : "Unknown error"]. *)
Definition error_message (e : Thrown) : string :=
  match e with
  | ErrorObject msg => msg
  | OtherValue => "Unknown error"
  end.

Section Pipeline.
Context `{Host} `{Narrator}.

(** Step 5 of both entry points, inside their [try] block. *)
Definition narrate_step (useLLM : bool) (config : option NarratorConfig)
    (facts : FactsResult) : Thrown + (string * option Usage) :=
  if useLLM then
    match narrateFacts facts config with
    | inr narratorResult =>
        inr (explanation narratorResult, usage narratorResult)
    | inl thrown => inl thrown
    end
  else inr (narrateFactsSimple facts, None).

(** The [try] block of [runPipeline]: [inl] is a value thrown inside it. *)
Definition runPipeline_try (payslips : list PayslipHeader)
    (options : PipelineOptions) : Thrown + PipelineResult :=
  let useLLM := Js.nullish (useLLM options) false in
  match getPayslipPairForComparison payslips with
  | None =>
      inr (failure
             "Not enough primary payslips to compare (need at least 2)")
  | Some (previous, current) =>
      let comparison := comparePayslips previous current in
      match generateFacts comparison with
      | inl thrown => inl thrown
      | inr facts =>
          match narrate_step useLLM (narratorConfig options) facts with
          | inl thrown => inl thrown
          | inr (explanation, llmUsage) =>
              inr {| success := true;
                     error := None;
                     payslips := Some (mkPair previous current);
                     comparison := Some comparison;
                     r_facts := Some facts;
                     r_explanation := Some explanation;
                     llmUsage := llmUsage |}
          end
      end
  end.

(** [runPipeline]: the [try] block and its [catch]. *)
Definition runPipeline (payslips : list PayslipHeader)
    (options : PipelineOptions) : PipelineResult :=
  match runPipeline_try payslips options with
  | inr result => result
  | inl error => failure (error_message error)
  end.

Definition compareSpecificPayslips_try (previous current : PayslipHeader)
    (options : PipelineOptions) : Thrown + PipelineResult :=
  let useLLM := Js.nullish (useLLM options) false in
  let prevNormalized := normalizePayslip previous in
  let currNormalized := normalizePayslip current in
  let comparison := comparePayslips prevNormalized currNormalized in
  match generateFacts comparison with
  | inl thrown => inl thrown
  | inr facts =>
      match narrate_step useLLM (narratorConfig options) facts with
      | inl thrown => inl thrown
      | inr (explanation, llmUsage) =>
          inr {| success := true;
                 error := None;
                 payslips := Some (mkPair prevNormalized currNormalized);
                 comparison := Some comparison;
                 r_facts := Some facts;
                 r_explanation := Some explanation;
                 llmUsage := llmUsage |}
      end
  end.

Definition compareSpecificPayslips (previous current : PayslipHeader)
    (options : PipelineOptions) : PipelineResult :=
  match compareSpecificPayslips_try previous current options with
  | inr result => result
  | inl error => failure (error_message error)
  end.

(** *** server.ts: the narration step of [compareMonthWithPrevious]

    The HTTP handler narrates inside a [try] of its own and renders the
    facts with [narrateFactsSimple] when the collaborator throws. *)
Definition server_narrate (useLLM hasApiKey : bool) (facts : FactsResult)
    : string * bool :=
  if useLLM && hasApiKey then
    match narrateFacts facts
            (Some {| model := Some "gpt-4o-mini"; maxTokens := None;
                     temperature := None; language := None |}) with
    | inr result => (explanation result, true)
    | inl _ => (narrateFactsSimple facts, false)
    end
  else (narrateFactsSimple facts, false).

End Pipeline.

(** ** Vocabulary of the properties *)

(** What one round of a pushing loop leaves in the array. *)
Definition pushed {B} (o : option B) : list B :=
  match o with Some r => [r] | None => [] end.

(** The records of a list that carry a given code. *)
Definition with_code (c : string) (cs : list ChangeRecord)
    : list ChangeRecord :=
  filter (fun r => code r =? c) cs.

(** A code present only in the current map, only in the previous map. *)
Definition isAddedIn (oldMap newMap : LineMap) (c : string) : bool :=
  negb (Js.truthy (Js.get oldMap c)) && Js.truthy (Js.get newMap c).

Definition isRemovedIn (oldMap newMap : LineMap) (c : string) : bool :=
  Js.truthy (Js.get oldMap c) && negb (Js.truthy (Js.get newMap c)).

(** The two suppression rules of the line-item comparison: both values 0,
    or delta 0, for an item that is neither added nor removed. *)
Definition both_zero_rule (oldMap newMap : LineMap) (c : string) : Prop :=
  Js.eqn (amount_of oldMap c) 0 = true /\ Js.eqn (amount_of newMap c) 0 = true
  /\ isAddedIn oldMap newMap c = false /\ isRemovedIn oldMap newMap c = false.

Definition zero_delta_rule (oldMap newMap : LineMap) (c : string) : Prop :=
  Js.eqn (amount_of newMap c - amount_of oldMap c) 0 = true
  /\ isAddedIn oldMap newMap c = false /\ isRemovedIn oldMap newMap c = false.

(** The record the line-item comparison builds for a code it reports. *)
Definition line_record (category : ChangeCategory) (oldMap newMap : LineMap)
    (c : string) : ChangeRecord :=
  let ov := amount_of oldMap c in
  let nv := amount_of newMap c in
  let direction :=
    getChangeDirection ov nv
      (isAddedIn oldMap newMap c) (isRemovedIn oldMap newMap c) in
  {| id := category_name category ++ ":" ++ c ++ ":amount";
     label :=
       match Js.get newMap c with
       | Some l => description l
       | None =>
           match Js.get oldMap c with
           | Some l => description l
           | None => c
           end
       end;
     category := category;
     code := c;
     oldValue := ov;
     newValue := nv;
     delta := (nv - ov)%js;
     percentChange := calculatePercentChange ov nv;
     direction := direction;
     importance := determineImportance category c (nv - ov)%js direction |}.

(** A record whose delta is the difference of its values, whose direction
    agrees with the sign of the delta, and whose percentage is missing
    exactly when the old value is 0. *)
Definition well_signed (r : ChangeRecord) : Prop :=
  delta r = (newValue r - oldValue r)%js
  /\ (direction r = increase -> Js.ltn 0 (delta r) = true)
  /\ (direction r = decrease -> Js.ltn (delta r) 0 = true)
  /\ (percentChange r = None <-> Js.eqn (oldValue r) 0 = true).

(** [a] may stand before [b] in the sorted changes: a smaller importance
    rank (high 0, medium 1, low 2), or the same importance and an absolute
    delta at least as large. *)
Definition ranked_before (a b : ChangeRecord) : Prop :=
  (importanceOrder (importance a) < importanceOrder (importance b))%Z
  \/ (importance a = importance b
      /\ Js.leq (Js.abs (delta b)) (Js.abs (delta a)) = true).

(** The records of one importance and one absolute delta. *)
Definition same_key (i : ImportanceLevel) (d : Js.number) (c : ChangeRecord)
    : bool :=
  ImportanceLevel_beq (importance c) i && Js.eqn (Js.abs (delta c)) d.

(** The last record of a list that carries a code: the one [changesByCode]
    keeps for it. *)
Definition lastWithCode (cs : list ChangeRecord) (c : string)
    : option ChangeRecord :=
  List.find (fun r => code r =? c) (rev cs).

Definition changed (r : ChangeRecord) : bool :=
  negb (ChangeDirection_beq (direction r) unchanged).

(** Two readings of "the effect code has a change record with a direction
    other than unchanged": some record with the code is such, or the last
    record with the code is. *)
Definition some_changed (cs : list ChangeRecord) (c : string) : bool :=
  existsb (fun r => (code r =? c) && changed r) cs.

Definition last_changed (cs : list ChangeRecord) (c : string) : bool :=
  match lastWithCode cs c with
  | Some r => changed r
  | None => false
  end.

(** The codes the dependency table declares a code to affect. *)
Definition affectedCodes (code : string) : list string :=
  Js.nullish (Js.get CAUSAL_RULES code) [].

(** The pairs (cause record, effect code) the dependency table declares,
    for the effect codes that [live] accepts; one entry per cause record in
    the list and per code it affects. *)
Definition causal_pairs (live : string -> bool) (cs : list ChangeRecord)
    : list (ChangeRecord * string) :=
  flat_map
    (fun cause => map (pair cause) (filter live (affectedCodes (code cause))))
    cs.

(** A code that names a member of [Object.prototype], and a list of change
    records none of whose codes does. *)
Definition inherits (code : string) : bool :=
  Js.includes Js.Object_prototype code.

Definition plain_codes (cs : list ChangeRecord) : bool :=
  forallb (fun c => negb (inherits (code c))) cs.

(** The first record of a list whose code names a member of
    [Object.prototype]. *)
Definition first_inheriting (cs : list ChangeRecord) : option ChangeRecord :=
  List.find (fun c => inherits (code c)) cs.

(** The causal facts of a list of changes: what the loops of
    [generateCausalFacts] push when every cause reads an array from the
    dependency table. *)
Definition causalFactsOf `{Host} (cs : list ChangeRecord) : list Fact :=
  flat_map
    (fun cause =>
       for_push (causalFact (changesByCode cs) cause)
         (affectedCodes (code cause)))
    cs.

Definition is_causal (f : Fact) : bool :=
  FactType.t_beq (fact_type f) FactType.causal.

(** A causal fact that links [cause] to the last record under [effectCode]. *)
Definition links (cs : list ChangeRecord) (f : Fact)
    (pair : ChangeRecord * string) : Prop :=
  exists effect,
    lastWithCode cs (snd pair) = Some effect
    /\ fact_type f = FactType.causal
    /\ fact_importance f = medium
    /\ relatedChangeIds f = Some [id (fst pair); id effect].

(** The period of [a] is not later than the period of [b]. *)
Definition period_before (a b : PayslipHeader) : Prop :=
  (calendarYear a < calendarYear b)%Z
  \/ (calendarYear a = calendarYear b
      /\ (calendarMonth a <= calendarMonth b)%Z).

Definition not_enough_payslips : string :=
  "Not enough primary payslips to compare (need at least 2)".

(** A payslip carries a positive SALARY line. *)
Definition has_positive_salary (payslip : PayslipHeader) : Prop :=
  exists e, In e (h_earnings payslip)
            /\ e_lineCode e = "SALARY" /\ Js.ltn 0 (e_total e) = true.

(** The first SALARY line of a payslip is positive. *)
Definition first_salary_positive (payslip : PayslipHeader) : Prop :=
  exists before e after,
    h_earnings payslip = (before ++ e :: after)%list
    /\ Forall (fun x => e_lineCode x <> "SALARY") before
    /\ e_lineCode e = "SALARY" /\ Js.ltn 0 (e_total e) = true.

(** Every amount a comparison reads from a payslip is a finite number: the
    amounts of its lines, its six compared totals and its overtime. *)
Definition finite_lines (m : LineMap) : bool :=
  forallb (fun l => Js.isFinite (amount l)) (Js.values m).

Definition finite_amounts (p : NormalizedPayslip) : bool :=
  finite_lines (earnings p) && finite_lines (deductions p)
  && finite_lines (fringeBenefits p) && finite_lines (companyContributions p)
  && forallb (fun field => Js.isFinite (getValue field p)) AGGREGATE_FIELDS
  && Js.isFinite (overtime (keyAmounts p)).

(** No line of a payslip is coded by a name of [Object.prototype]. *)
Definition plain_lines (m : LineMap) : bool :=
  forallb (fun c => negb (inherits c)) (Js.keys m).

Definition plain_payslip (p : NormalizedPayslip) : bool :=
  plain_lines (earnings p) && plain_lines (deductions p)
  && plain_lines (fringeBenefits p) && plain_lines (companyContributions p).

(** ** Sample data: the March to June 2012 records of one employee *)

(** A host for the samples.  Its printers write the whole part, a point
    and two digits, or one digit; its two TypeErrors name the variable
    [affects] that holds the member, whatever the member is. *)
Definition two_digits (n : Js.number) : string :=
  match n with
  | Js.Fin q =>
      let cents := (Qnum (Qabs q * 100) / Zpos (Qden (Qabs q * 100)))%Z in
      let frac := (cents mod 100)%Z in
      Js.show_int (cents / 100) ++ "."
      ++ (if (frac <? 10)%Z then "0" else "") ++ Js.show_int frac
  | Js.Infinity s => if s then "-∞" else "∞"
  | Js.NaN => "NaN"
  end.

Definition one_digit (n : Js.number) : string :=
  match n with
  | Js.Fin q =>
      let tenths := (Qnum (Qabs q * 10) / Zpos (Qden (Qabs q * 10)))%Z in
      Js.show_int (tenths / 10) ++ "." ++ Js.show_int (tenths mod 10)
  | Js.Infinity s => if s then "-Infinity" else "Infinity"
  | Js.NaN => "NaN"
  end.

Definition sample_host : Host :=
  {| toLocaleString2 := two_digits;
     toFixed1 := one_digit;
     notIterable := fun key => "affects is not iterable";
     notFunction := fun key => "affects.includes is not a function" |}.

Definition sample_payslip (pid month : Z) (net : Js.number)
    (es : list EarningLine) (ds : list DeductionLine) : PayslipHeader :=
  {| h_payslipID := pid;
     h_displayName := "Mr NEG StandardHost";
     h_employeeCode := "EMP001";
     periodStartDate := "";
     periodEndDate := "";
     calendarMonth := month;
     calendarYear := 2012;
     statutoryTaxYear := 2013;
     h_netPay := net;
     h_earnings := es;
     h_deductions := ds;
     h_fringeBenefits := [];
     h_companyContributions := [] |}.

Definition may_2012 : PayslipHeader :=
  sample_payslip 71 5 19000
    [ mkEarning "SALARY" "Basic Salary" 25000 25000;
      mkEarning "TRAVEL" "Travel Allowance" 1500 1200 ]
    [ mkDeduction "PAYE" "PAYE Tax" 5000 0 ].

Definition june_2012 : PayslipHeader :=
  sample_payslip 87 6 18300
    [ mkEarning "SALARY" "Basic Salary" 25000 25000;
      mkEarning "TRAVEL" "Travel Allowance" 1500 1200 ]
    [ mkDeduction "PAYE" "PAYE Tax" 5200 0;
      mkDeduction "ADVANCE" "Salary Advance" 500 0 ].

(** A supplementary record of June: a bonus run without a salary line. *)
Definition june_2012_bonus : PayslipHeader :=
  sample_payslip 167 6 800
    [ mkEarning "SALARY" "Basic Salary" 0 0;
      mkEarning "BONUS" "Bonus" 1000 1000 ]
    [ mkDeduction "PAYE" "PAYE Tax" 200 0 ].

Definition april_2012 : PayslipHeader :=
  sample_payslip 63 4 19000
    [ mkEarning "SALARY" "Basic Salary" 25000 25000;
      mkEarning "TRAVEL" "Travel Allowance" 1500 1200 ]
    [ mkDeduction "PAYE" "PAYE Tax" 5000 0 ].

(** A narration service that is down: every call rejects. *)
Definition narrator_down : Narrator :=
  {| narrateFacts := fun _ _ => inl (ErrorObject "Request timed out") |}.

Definition with_llm : PipelineOptions :=
  {| useLLM := Some true; narratorConfig := None; comparePeriods_opt := None |}.

Definition without_llm : PipelineOptions :=
  {| useLLM := None; narratorConfig := None; comparePeriods_opt := None |}.

Definition march_2012 : PayslipHeader :=
  sample_payslip 55 3 19550
    [ mkEarning "SALARY" "Basic Salary" 25000 25000;
      mkEarning "TRAVEL" "Travel Allowance" 1500 1200 ]
    [ mkDeduction "PAYE" "PAYE Tax" 5000 0 ].

(** The records of four periods as the payroll service lists them, not in
    period order, with the supplementary run of June among them. *)
Definition history_2012 : list PayslipHeader :=
  [june_2012_bonus; june_2012; march_2012; may_2012; april_2012].

Definition may_normalized : NormalizedPayslip := normalizePayslip may_2012.
Definition june_normalized : NormalizedPayslip := normalizePayslip june_2012.

(** A deduction line that is new in the current period and carries 0. *)
Definition zero_advance : LineMap :=
  [("ADVANCE", mkLine "ADVANCE" "Salary Advance" 0 0 0)].



(** A payslip with two earning lines of [2^1023], the largest power of two
    among the doubles: each line is a finite number, their sum is not. *)
Definition two_to_1023 : Js.number := Js.Fin (inject_Z (2 ^ 1023)).

Definition windfall_2012 : PayslipHeader :=
  sample_payslip 95 7 19000
    [ mkEarning "SALARY" "Basic Salary" 25000 25000;
      mkEarning "BONUS" "Bonus" two_to_1023 two_to_1023;
      mkEarning "COMM" "Commission" two_to_1023 two_to_1023 ]
    [ mkDeduction "PAYE" "PAYE Tax" 5000 0 ].

Definition windfall_normalized : NormalizedPayslip :=
  normalizePayslip windfall_2012.


(** June with an earning line coded "constructor". *)
Definition june_2012_constructor : PayslipHeader :=
  sample_payslip 97 6 18300
    [ mkEarning "SALARY" "Basic Salary" 25000 25000;
      mkEarning "constructor" "Site Allowance" 300 300 ]
    [ mkDeduction "PAYE" "PAYE Tax" 5200 0 ].

(** * Further functions of the sources *)

(** ** engine/diff-engine.ts: the filtered getters *)

Definition getLineItemChanges (result : ComparisonResult)
    : list ChangeRecord :=
  filter
    (fun c =>
       ChangeCategory_beq (category c) earning
       || ChangeCategory_beq (category c) deduction
       || ChangeCategory_beq (category c) fringe_benefit
       || ChangeCategory_beq (category c) company_contribution)
    (changes result).

Definition getAggregateChanges (result : ComparisonResult)
    : list ChangeRecord :=
  filter (fun c => ChangeCategory_beq (category c) aggregate)
    (changes result).

(** ** utils/payslip-utils.ts: lookup by period *)

Definition getPrimaryPayslipForPeriod (payslips : list PayslipHeader)
    (year month : Z) : option PayslipHeader :=
  Js.find
    (fun ps =>
       (calendarYear ps =? year)%Z && (calendarMonth ps =? month)%Z
       && isPrimaryPayslip ps)
    payslips.

(** ** schemas/tax-type.ts *)

Inductive TaxType :=
  Normal | Periodic | OnAssessment | Never | CCTaxable | TaxDeductible
| Criteria.

(** The strings of [TaxTypeSchema]. *)
Definition taxType_name (t : TaxType) : string :=
  match t with
  | Normal => "Normal"
  | Periodic => "Periodic"
  | OnAssessment => "On Assessment"
  | Never => "Never"
  | CCTaxable => "CC Taxable"
  | TaxDeductible => "Tax Deductible"
  | Criteria => "Criteria"
  end.

Definition taxTypeToCode (t : TaxType) : string :=
  match t with
  | Normal => "NRM"
  | Periodic => "PRD"
  | OnAssessment => "ASM"
  | Never => "NVR"
  | CCTaxable => "CCT"
  | TaxDeductible => "TXD"
  | Criteria => "CRI"
  end.

(** The object literal [codeToTaxType] and what [codeToTaxType[c]]
    answers. *)
Definition codeToTaxType_table : Js.Map TaxType :=
  [ ("NRM", Normal); ("PRD", Periodic); ("ASM", OnAssessment);
    ("NVR", Never); ("CCT", CCTaxable); ("TXD", TaxDeductible);
    ("CRI", Criteria) ].

Definition codeToTaxType (c : string) : Js.Property TaxType :=
  Js.index codeToTaxType_table c.

(** ** server.ts *)

Record PeriodInfo := mkPeriodInfo {
  pi_year : Z;
  pi_month : Z;
  pi_monthName : string;
  pi_netPay : Js.number;
  pi_payslipID : Z;
  hasPrevious : bool
}.

Record PeriodSide := mkSide {
  side_year : Z;
  side_month : Z;
  side_monthName : string;
  side_netPay : Js.number
}.

Record FactView := mkView {
  view_type : FactType.t;
  view_importance : ImportanceLevel;
  view_sentence : string
}.

Record MonthComparison := mkMonth {
  llmUsed : bool;
  m_previous : PeriodSide;
  m_current : PeriodSide;
  m_summary : Summary;
  m_facts : list FactView;
  m_explanation : string
}.

(** What [compareMonthWithPrevious] answers: [{ error }] or the comparison. *)
Inductive MonthAnswer :=
  MonthError (error : string) | MonthCompared (result : MonthComparison).

(** [Array.prototype.findIndex]: the first index whose element passes, or
    [-1]. *)
Fixpoint findIndex {A} (p : A -> bool) (l : list A) : Z :=
  match l with
  | [] => (-1)%Z
  | x :: l' =>
      if p x then 0%Z
      else let i := findIndex p l' in
           if (i =? -1)%Z then (-1)%Z else (i + 1)%Z
  end.

(** [arr[i]] for an integer index. *)
Definition at_index {A} (l : list A) (i : Z) : option A :=
  if (i <? 0)%Z then None else nth_error l (Z.to_nat i).

(** [idx] runs along with the elements, as in [arr.map((x, idx) => ...)]. *)
Fixpoint map_indexed {A B} (f : A -> nat -> B) (idx : nat) (l : list A)
    : list B :=
  match l with
  | [] => []
  | x :: l' => f x idx :: map_indexed f (S idx) l'
  end.

Definition side_of (ps : PayslipHeader) : PeriodSide :=
  {| side_year := calendarYear ps;
     side_month := calendarMonth ps;
     side_monthName := getMonthName (calendarMonth ps);
     side_netPay := h_netPay ps |}.

Section Server.
Context `{Host} `{Narrator}.

(** The two module constants of the server: the primary payslips sorted by
    period, and whether an API key is set. *)
Variable primaryPayslips : list PayslipHeader.
Variable hasApiKey : bool.

Definition getAvailablePeriods : list PeriodInfo :=
  map_indexed
    (fun ps idx =>
       {| pi_year := calendarYear ps;
          pi_month := calendarMonth ps;
          pi_monthName := getMonthName (calendarMonth ps);
          pi_netPay := h_netPay ps;
          pi_payslipID := h_payslipID ps;
          hasPrevious := (0 <? idx)%nat |})
    0%nat primaryPayslips.

Definition findPayslipIndex (year month : Z) : Z :=
  findIndex
    (fun ps => (calendarYear ps =? year)%Z && (calendarMonth ps =? month)%Z)
    primaryPayslips.

(** [inl] is a value thrown on the way: the TypeError of [generateFacts],
    which no [try] surrounds here, or that of reading a field of
    [undefined], should an index miss the array. *)
Definition compareMonthWithPrevious (year month : Z) (useLLM : bool)
    : Thrown + MonthAnswer :=
  let currentIdx := findPayslipIndex year month in
  if (currentIdx =? -1)%Z then
    inr (MonthError
           ("No payslip found for " ++ Js.show_int month ++ "/"
            ++ Js.show_int year))
  else if (currentIdx =? 0)%Z then
    inr (MonthError
           ("No previous payslip to compare with for " ++ Js.show_int month
            ++ "/" ++ Js.show_int year))
  else
    match at_index primaryPayslips currentIdx,
          at_index primaryPayslips (currentIdx - 1) with
    | Some current, Some previous =>
        let currNormalized := normalizePayslip current in
        let prevNormalized := normalizePayslip previous in
        let comparison := comparePayslips prevNormalized currNormalized in
        match generateFacts comparison with
        | inl thrown => inl thrown
        | inr factsResult =>
            let (explanation, llmUsed) :=
              server_narrate useLLM hasApiKey factsResult in
            inr (MonthCompared
                   {| llmUsed := llmUsed;
                      m_previous := side_of previous;
                      m_current := side_of current;
                      m_summary := summary comparison;
                      m_facts :=
                        map (fun f =>
                               {| view_type := fact_type f;
                                  view_importance := fact_importance f;
                                  view_sentence := sentence f |})
                          (facts factsResult);
                      m_explanation := explanation |})
        end
    | _, _ => inl (ErrorObject "undefined is not an object")
    end.

End Server.

(** ** Vocabulary of the further properties *)

(** The records of a list under one category and one code. *)
Definition select (cat : ChangeCategory) (c : string)
    (cs : list ChangeRecord) : list ChangeRecord :=
  filter (fun r => ChangeCategory_beq (category r) cat && (code r =? c)) cs.

Definition is_line_category (cat : ChangeCategory) : bool :=
  match cat with
  | aggregate | key_amount => false
  | _ => true
  end.

(** The line map of a payslip that a line category is compared on. *)
Definition lines_of (cat : ChangeCategory) (p : NormalizedPayslip)
    : LineMap :=
  match cat with
  | earning => earnings p
  | deduction => deductions p
  | fringe_benefit => fringeBenefits p
  | company_contribution => companyContributions p
  | aggregate | key_amount => []
  end.

(** The entry "netPay" of [AGGREGATE_FIELDS] and the entry "overtime" of
    [KEY_AMOUNT_FIELDS]. *)
Definition netPay_field : AggregateField :=
  mkField "netPay" "Net Pay" (fun ps => netPay (totals ps)).

Definition overtime_field : AggregateField :=
  mkField "overtime" "Overtime" (fun ps => overtime (keyAmounts ps)).

(** The records of one importance. *)
Definition of_importance (i : ImportanceLevel) (cs : list ChangeRecord)
    : list ChangeRecord :=
  filter (fun c => ImportanceLevel_beq (importance c) i) cs.

(** What identifies a record within a comparison, and the id the diff engine
    writes for it: line items end in ":amount". *)
Definition record_key (r : ChangeRecord) : ChangeCategory * string :=
  (category r, code r).

Definition id_of_key (k : ChangeCategory * string) : string :=
  if is_line_category (fst k)
  then category_name (fst k) ++ ":" ++ snd k ++ ":amount"
  else category_name (fst k) ++ ":" ++ snd k.

(** [a] may stand before [b] in the sorted facts: a smaller importance rank,
    or the same importance and a type priority no larger. *)
Definition fact_ranked_before (a b : Fact) : Prop :=
  (importanceOrder (fact_importance a)
   < importanceOrder (fact_importance b))%Z
  \/ (fact_importance a = fact_importance b
      /\ (typePriority (fact_type a) <= typePriority (fact_type b))%Z).

(** The facts of one importance and one type. *)
Definition same_fact_key (i : ImportanceLevel) (t : FactType.t) (f : Fact)
    : bool :=
  ImportanceLevel_beq (fact_importance f) i && FactType.t_beq (fact_type f) t.

(** The changes [generateFacts] turns into facts of their own: every one
    that is not an aggregate, and the net pay. *)
Definition relevantChanges (comparison : ComparisonResult)
    : list ChangeRecord :=
  filter
    (fun c => negb (ChangeCategory_beq (category c) aggregate)
              || (code c =? "netPay"))
    (changes comparison).

Definition is_net_pay_fact (f : Fact) : bool :=
  FactType.t_beq (fact_type f) FactType.net_pay_change.

Definition no_significant_changes : string :=
  "No significant changes this month.".

(** Where a record of a comparison comes from: a round of the line loop of
    a line category on a code one of its two maps knows, a round of the
    aggregate loop on one of the six totals, or the overtime round of the
    key-amount loop. *)
Definition reported_by (previous current : NormalizedPayslip)
    (r : ChangeRecord) : Prop :=
  (exists cat c,
      is_line_category cat = true
      /\ In c (Js.keys (lines_of cat previous)
               ++ Js.keys (lines_of cat current))%list
      /\ compareLine cat (lines_of cat previous) (lines_of cat current) c
         = Some r)
  \/ (exists field,
         In field AGGREGATE_FIELDS
         /\ compareField aggregate previous current field = Some r)
  \/ compareField key_amount previous current overtime_field = Some r.

(** June with the net pay of May: PAYE and the travel allowance both went
    up by 200. *)
Definition june_2012_level : PayslipHeader :=
  sample_payslip 88 6 19000
    [ mkEarning "SALARY" "Basic Salary" 25000 25000;
      mkEarning "TRAVEL" "Travel Allowance" 1700 1400 ]
    [ mkDeduction "PAYE" "PAYE Tax" 5200 0 ].

(** A line map built from a list of raw lines: its keys are the codes of the
    list in the order of their first appearance, and under each code it
    holds the normalization of the last line with that code. *)
Definition holds_last_lines {A} (codeOf : A -> string)
    (norm : A -> NormalizedLine) (xs : list A) (m : LineMap) : Prop :=
  Js.keys m = Js.new_Set (map codeOf xs)
  /\ (forall c,
         Js.get m c
         = option_map norm (List.find (fun x => codeOf x =? c) (rev xs)))
  /\ Forall (fun kv => l_code (snd kv) = fst kv) m.

(** A payslip of the given calendar year and month. *)
Definition of_period (year month : Z) (ps : PayslipHeader) : bool :=
  (calendarYear ps =? year)%Z && (calendarMonth ps =? month)%Z.

(** The period of [ps] is earlier than the given year and month. *)
Definition earlier_than (year month : Z) (ps : PayslipHeader) : Prop :=
  (calendarYear ps < year)%Z
  \/ (calendarYear ps = year /\ (calendarMonth ps < month)%Z).

(** The direction a change shows when the two payslips are swapped. *)
Definition mirror (d : ChangeDirection) : ChangeDirection :=
  match d with
  | increase => decrease
  | decrease => increase
  | added => removed
  | removed => added
  | unchanged => unchanged
  end.

(** * Properties *)

(** ** Numbers *)

Lemma Qle_bool_spec (x y : Q) : reflect (x <= y)%Q (Qle_bool x y).
Proof. apply iff_reflect. symmetry. apply Qle_bool_iff. Qed.

Lemma Qeq_bool_spec (x y : Q) : reflect (x == y)%Q (Qeq_bool x y).
Proof. apply iff_reflect. symmetry. apply Qeq_bool_iff. Qed.

Lemma overflow_pos : (0 < Js.overflow)%Q.
Proof. reflexivity. Qed.

Lemma Qabs_cases (q : Q) :
  (0 <= q /\ Qabs q == q)%Q \/ (q < 0 /\ Qabs q == - q)%Q.
Proof.
  destruct (Qlt_le_dec q 0) as [L|L].
  - right. split; [exact L|]. apply Qabs_neg. lra.
  - left. split; [exact L|]. now apply Qabs_pos.
Qed.

(** An exact result stays as it is below the overflow bound and becomes the
    infinity of its sign from the bound on. *)
Lemma fit_cases (q : Q) :
  (Js.fit q = Js.Fin q /\ - Js.overflow < q < Js.overflow)%Q
  \/ (Js.fit q = Js.Infinity false /\ Js.overflow <= q)%Q
  \/ (Js.fit q = Js.Infinity true /\ q <= - Js.overflow)%Q.
Proof.
  pose proof overflow_pos as P.
  unfold Js.fit, Js.negative.
  destruct (Qabs_cases q) as [[S A]|[S A]];
    destruct (Qle_bool_spec Js.overflow (Qabs q)) as [L|L];
    destruct (Qle_bool_spec 0 q) as [Z|Z]; simpl;
    try lra; [right; left | left | right; right | left];
    (split; [reflexivity | lra]).
Qed.

Ltac js_bools :=
  repeat match goal with
  | H : context [Qle_bool ?x ?y] |- _ => destruct (Qle_bool_spec x y)
  | |- context [Qle_bool ?x ?y] => destruct (Qle_bool_spec x y)
  | H : context [Qeq_bool ?x ?y] |- _ => destruct (Qeq_bool_spec x y)
  | |- context [Qeq_bool ?x ?y] => destruct (Qeq_bool_spec x y)
  end.

Ltac js_fit :=
  repeat match goal with
  | H : context [Js.fit ?q] |- _ =>
      let F := fresh "F" in
      destruct (fit_cases q) as [[F ?]|[[F ?]|[F ?]]]; rewrite F in *; clear F
  | |- context [Js.fit ?q] =>
      let F := fresh "F" in
      destruct (fit_cases q) as [[F ?]|[[F ?]|[F ?]]]; rewrite F in *; clear F
  end.

Ltac js_abs :=
  repeat match goal with
  | H : context [Qabs ?q] |- _ =>
      let A := fresh "A" in
      destruct (Qabs_cases q) as [[? A]|[? A]];
      generalize dependent (Qabs q); intros
  | |- context [Qabs ?q] =>
      let A := fresh "A" in
      destruct (Qabs_cases q) as [[? A]|[? A]];
      generalize dependent (Qabs q); intros
  end.

Ltac js_simpl :=
  cbn [Js.add Js.neg Js.abs Js.eqn Js.ltn Js.isNaN Js.isFinite Js.same
       Bool.eqb negb andb orb inject_Z] in *.

(** Case analysis on the numbers of a goal, down to facts of the
    rationals. *)
Ltac js_numbers :=
  pose proof overflow_pos;
  unfold Js.gtn, Js.leq, Js.sub, Js.toBoolean, Js.of_Z in *;
  repeat match goal with
  | a : Js.number |- _ => destruct a as [?|[|]|]
  end;
  js_simpl; js_fit; js_simpl; js_abs; js_bools;
  cbn [negb andb orb] in *;
  try (reflexivity || discriminate || tauto || (exfalso; lra));
  try (intuition (try discriminate; try reflexivity; try lra)).

(** The sign of a difference is the order of its terms. *)
Lemma ltn_zero_sub (a b : Js.number) : Js.ltn 0 (b - a) = Js.ltn a b.
Proof. js_numbers. Qed.

Lemma ltn_sub_zero (a b : Js.number) : Js.ltn (b - a) 0 = Js.ltn b a.
Proof. js_numbers. Qed.

(** A finite number minus itself is 0; an infinity minus itself is NaN. *)
Lemma eqn_sub_self (a : Js.number) :
  Js.isFinite a = true -> Js.eqn (a - a) 0 = true.
Proof. js_numbers. Qed.

Lemma eqn_sub_zero (a b : Js.number) :
  Js.isFinite a = true -> Js.isFinite b = true ->
  Js.eqn (b - a) 0 = Js.eqn b a.
Proof. js_numbers. Qed.

Lemma eqn_sub_sym (a b : Js.number) :
  Js.eqn (a - b) 0 = Js.eqn (b - a) 0.
Proof. js_numbers. Qed.

Lemma eqn_zero_sub (a b : Js.number) :
  Js.eqn a 0 = true -> Js.eqn b 0 = true -> Js.eqn (b - a) 0 = true.
Proof. js_numbers. Qed.

(** A difference that is not 0 between terms of which neither is less than
    the other is NaN. *)
Lemma isNaN_sub (a b : Js.number) :
  Js.eqn (b - a) 0 = false ->
  (Js.ltn a b = false /\ Js.ltn b a = false <-> Js.isNaN (b - a) = true).
Proof. js_numbers. Qed.

Lemma isNaN_sub_finite (a b : Js.number) :
  Js.isFinite a = true -> Js.isFinite b = true -> Js.isNaN (b - a) = false.
Proof. js_numbers. Qed.

Lemma same_sub_neg (a b : Js.number) : Js.same (a - b) (Js.neg (b - a)).
Proof. js_numbers. Qed.

Lemma same_refl (a : Js.number) : Js.same a a.
Proof. js_numbers. Qed.

Lemma eqn_of_Z (x y : Z) : Js.eqn (Js.of_Z x) (Js.of_Z y) = (x =? y)%Z.
Proof.
  unfold Js.of_Z. cbn [Js.eqn].
  destruct (Qeq_bool_spec (inject_Z x) (inject_Z y)) as [E|E];
    destruct (Z.eqb_spec x y) as [E'|E']; trivial.
  - exfalso. apply E'. now apply inject_Z_injective.
  - subst. exfalso. apply E. reflexivity.
Qed.

Lemma ltn_of_Z (x y : Z) : Js.ltn (Js.of_Z x) (Js.of_Z y) = (x <? y)%Z.
Proof.
  unfold Js.of_Z. cbn [Js.ltn].
  destruct (Qle_bool_spec (inject_Z y) (inject_Z x)) as [L|L];
    rewrite <- Zle_Qle in L; simpl; symmetry;
    [apply Z.ltb_ge | apply Z.ltb_lt]; lia.
Qed.

Lemma isNaN_abs (a : Js.number) : Js.isNaN (Js.abs a) = Js.isNaN a.
Proof. destruct a; reflexivity. Qed.

(** Away from NaN, [<=] is the negation of [>], and it is transitive. *)
Lemma leq_not_ltn (a b : Js.number) :
  Js.isNaN a = false -> Js.isNaN b = false ->
  Js.leq b a = negb (Js.ltn a b).
Proof. js_numbers. Qed.

Lemma ltn_asym (a b : Js.number) :
  Js.ltn a b = true -> Js.ltn b a = false.
Proof. js_numbers. Qed.

Lemma leq_trans (a b c : Js.number) :
  Js.leq a b = true -> Js.leq b c = true -> Js.leq a c = true.
Proof. js_numbers. Qed.

Lemma leq_NaN (a b : Js.number) :
  Js.leq a b = true -> Js.isNaN a = false /\ Js.isNaN b = false.
Proof. js_numbers. Qed.

Lemma ltn_eqn_tied (a b d : Js.number) :
  Js.eqn a d = true -> Js.eqn b d = true -> Js.ltn a b = false.
Proof. js_numbers. Qed.

(** Two finite numbers whose difference is not 0 are in strict order. *)
Lemma ltn_or_gtn (a b : Js.number) :
  Js.isFinite a = true -> Js.isFinite b = true ->
  Js.eqn (b - a) 0 = false ->
  Js.ltn a b = true \/ Js.ltn b a = true.
Proof. js_numbers. Qed.

(** ** Loops that push *)

Lemma for_push_from {A B} (body : A -> option B) (xs : list A) (acc : list B) :
  fold_left
    (fun changes x =>
       match body x with
       | Some r => (changes ++ [r])%list
       | None => changes
       end) xs acc
  = (acc ++ flat_map (fun x => pushed (body x)) xs)%list.
Proof.
  revert acc. induction xs as [|x xs IH]; intro acc; simpl.
  - now rewrite app_nil_r.
  - rewrite IH. destruct (body x); simpl.
    + now rewrite <- app_assoc.
    + reflexivity.
Qed.

Lemma for_push_flat_map {A B} (body : A -> option B) (xs : list A) :
  for_push body xs = flat_map (fun x => pushed (body x)) xs.
Proof. unfold for_push. now rewrite for_push_from. Qed.

Lemma for_push_none {A B} (body : A -> option B) (xs : list A) :
  (forall x, In x xs -> body x = None) -> for_push body xs = [].
Proof.
  rewrite for_push_flat_map.
  induction xs as [|x xs IH]; intro Hn; simpl; [reflexivity|].
  rewrite (Hn x (or_introl eq_refl)). simpl.
  apply IH. intros y Hy. apply Hn. now right.
Qed.

Lemma in_for_push {A B} (body : A -> option B) (xs : list A) (r : B) :
  In r (for_push body xs) <-> exists x, In x xs /\ body x = Some r.
Proof.
  rewrite for_push_flat_map, in_flat_map.
  split; intros [x [Hx Hr]]; exists x; split; trivial.
  - destruct (body x); simpl in Hr; [|contradiction].
    destruct Hr as [->|[]]. reflexivity.
  - rewrite Hr. now left.
Qed.

(** ** Sets and maps *)

Lemma includes_In (l : list string) (s : string) :
  Js.includes l s = true <-> In s l.
Proof.
  unfold Js.includes. rewrite existsb_exists. split.
  - intros [x [Hx E]]. apply String.eqb_eq in E. now subst.
  - intro Hs. exists s. split; [assumption | apply String.eqb_refl].
Qed.

Lemma includes_not_In (l : list string) (s : string) :
  Js.includes l s = false <-> ~ In s l.
Proof.
  rewrite <- includes_In. destruct (Js.includes l s); split; congruence.
Qed.

Lemma set_add_spec (acc : list string) (x y : string) :
  In y (Js.set_add acc x) <-> In y acc \/ y = x.
Proof.
  unfold Js.set_add. destruct (Js.includes acc x) eqn:E.
  - apply includes_In in E. split; [now left | intros [?| ->]; assumption].
  - rewrite in_app_iff. simpl. intuition congruence.
Qed.

Lemma set_add_NoDup (acc : list string) (x : string) :
  NoDup acc -> NoDup (Js.set_add acc x).
Proof.
  intro Hnd. unfold Js.set_add. destruct (Js.includes acc x) eqn:E; trivial.
  apply includes_not_In in E.
  apply NoDup_rev in Hnd. rewrite <- (rev_involutive (acc ++ [x])).
  apply NoDup_rev. rewrite rev_app_distr. simpl. constructor; trivial.
  now rewrite <- in_rev.
Qed.

Lemma new_Set_from (l acc : list string) :
  NoDup acc ->
  NoDup (fold_left Js.set_add l acc)
  /\ forall y, In y (fold_left Js.set_add l acc) <-> In y acc \/ In y l.
Proof.
  revert acc. induction l as [|x l IH]; intros acc Hnd; simpl.
  - split; [assumption | intuition].
  - destruct (IH (Js.set_add acc x) (set_add_NoDup x Hnd)) as [N I].
    split; [assumption|]. intro y. rewrite I, set_add_spec. intuition.
Qed.

Lemma new_Set_NoDup (l : list string) : NoDup (Js.new_Set l).
Proof. apply (new_Set_from l (NoDup_nil _)). Qed.

Lemma new_Set_In (l : list string) (y : string) :
  In y (Js.new_Set l) <-> In y l.
Proof.
  unfold Js.new_Set. destruct (new_Set_from l (NoDup_nil _)) as [_ I].
  rewrite I. simpl. intuition.
Qed.

Lemma get_None {V} (m : Js.Map V) (k : string) :
  Js.get m k = None <-> ~ In k (Js.keys m).
Proof.
  induction m as [|[k' v] m IH]; simpl.
  - intuition.
  - destruct (String.eqb_spec k k') as [->|N].
    + split; [discriminate | intro C; exfalso; apply C; now left].
    + rewrite IH. intuition congruence.
Qed.

Lemma get_Some_In {V} (m : Js.Map V) (k : string) :
  Js.truthy (Js.get m k) = true <-> In k (Js.keys m).
Proof.
  destruct (Js.get m k) eqn:E; simpl.
  - split; [intros _ | reflexivity].
    destruct (in_dec string_dec k (Js.keys m)) as [I|N]; trivial.
    apply get_None in N. congruence.
  - split; [discriminate|]. apply get_None in E. intro. contradiction.
Qed.

Lemma set_fresh {V} (m : Js.Map V) (k : string) (v : V) :
  ~ In k (Js.keys m) -> Js.set m k v = (m ++ [(k, v)])%list.
Proof.
  induction m as [|[k' v'] m IH]; simpl; intro N; [reflexivity|].
  destruct (String.eqb_spec k k') as [->|D].
  - exfalso. apply N. now left.
  - rewrite IH; [reflexivity | intuition].
Qed.

Lemma get_set {V} (m : Js.Map V) (k k' : string) (v : V) :
  Js.get (Js.set m k v) k' = if String.eqb k' k then Some v else Js.get m k'.
Proof.
  induction m as [|[k0 v0] m IH]; simpl.
  - reflexivity.
  - destruct (String.eqb_spec k k0) as [->|D]; simpl.
    + destruct (String.eqb_spec k' k0); reflexivity.
    + rewrite IH. destruct (String.eqb_spec k' k0) as [->|D'].
      * destruct (String.eqb_spec k0 k); [congruence | reflexivity].
      * reflexivity.
Qed.

(** ** The stable sort *)

Section SortFacts.
Context {A : Type} (le : A -> A -> bool).

Lemma insert_perm (x : A) (l : list A) :
  Permutation (Js.insert le x l) (x :: l).
Proof.
  induction l as [|y l IH]; simpl; [reflexivity|].
  destruct (le x y); [reflexivity|].
  rewrite IH. apply perm_swap.
Qed.

Lemma sort_perm (l : list A) : Permutation (Js.sort le l) l.
Proof.
  induction l as [|x l IH]; simpl; [reflexivity|].
  rewrite insert_perm. now constructor.
Qed.

Lemma sort_length (l : list A) : List.length (Js.sort le l) = List.length l.
Proof. apply Permutation_length, sort_perm. Qed.

(** Stability: elements that the comparator ranks level with one another
    come out in the order they went in. *)
Lemma insert_filter_tied (p : A -> bool) (x : A) (l : list A) :
  (forall a b, p a = true -> p b = true -> le a b = true) ->
  filter p (Js.insert le x l) = filter p (x :: l).
Proof.
  intro tied. induction l as [|y l IH]; simpl; [reflexivity|].
  destruct (le x y) eqn:L; simpl; [reflexivity|].
  simpl in IH. rewrite IH.
  destruct (p x) eqn:Px, (p y) eqn:Py; trivial.
  rewrite (tied x y Px Py) in L. discriminate.
Qed.

Lemma sort_stable (p : A -> bool) (l : list A) :
  (forall a b, p a = true -> p b = true -> le a b = true) ->
  filter p (Js.sort le l) = filter p l.
Proof.
  intro tied. induction l as [|x l IH]; simpl; [reflexivity|].
  rewrite (insert_filter_tied p x (Js.sort le l) tied). simpl.
  now rewrite IH.
Qed.

Variable R : A -> A -> Prop.
Hypothesis le_R : forall a b, le a b = true -> R a b.
Hypothesis le_total : forall a b, le a b = false -> R b a.
Hypothesis R_trans : forall a b c, R a b -> R b c -> R a c.

Lemma insert_sorted (x : A) (l : list A) :
  StronglySorted R l -> StronglySorted R (Js.insert le x l).
Proof.
  induction l as [|y l IH]; intro S; simpl.
  - constructor; constructor.
  - inversion S as [|? ? S' F]; subst.
    destruct (le x y) eqn:L.
    + constructor; [assumption|]. constructor; [now apply le_R|].
      apply Forall_impl with (2 := F). intros z. apply R_trans. now apply le_R.
    + constructor; [now apply IH|].
      apply (Permutation_Forall (Permutation_sym (insert_perm x l))).
      constructor; [now apply le_total | assumption].
Qed.

Lemma sort_sorted (l : list A) : StronglySorted R (Js.sort le l).
Proof.
  induction l as [|x l IH]; simpl; [constructor | now apply insert_sorted].
Qed.

End SortFacts.

(** The same for a comparator that is a total preorder on the elements of
    the array only. *)
Section SortFactsOn.
Context {A : Type} (le : A -> A -> bool).
Variable R : A -> A -> Prop.
Variable P : A -> Prop.
Hypothesis le_R : forall a b, P a -> P b -> le a b = true -> R a b.
Hypothesis le_total : forall a b, P a -> P b -> le a b = false -> R b a.
Hypothesis R_trans :
  forall a b c, P a -> P b -> P c -> R a b -> R b c -> R a c.

Lemma insert_sorted_on (x : A) (l : list A) :
  P x -> Forall P l ->
  StronglySorted R l -> StronglySorted R (Js.insert le x l).
Proof.
  intro Px. induction l as [|y l IH]; intros Pl S; simpl.
  - constructor; constructor.
  - inversion S as [|? ? S' F]; subst.
    inversion Pl as [|? ? Py Pl']; subst.
    destruct (le x y) eqn:L.
    + constructor; [assumption|]. constructor; [now apply le_R|].
      rewrite Forall_forall in *. intros z Iz.
      apply (@R_trans x y z); auto.
    + constructor; [now apply IH|].
      apply (Permutation_Forall (Permutation_sym (insert_perm le x l))).
      constructor; [now apply le_total | assumption].
Qed.

Lemma sort_sorted_on (l : list A) :
  Forall P l -> StronglySorted R (Js.sort le l).
Proof.
  induction l as [|x l IH]; intro Pl; simpl; [constructor|].
  inversion Pl as [|? ? Px Pl']; subst.
  apply insert_sorted_on; auto.
  apply (Permutation_Forall (Permutation_sym (sort_perm le l))). assumption.
Qed.

End SortFactsOn.

(** Any array that is sorted by a total preorder and keeps the elements of
    each tie class in their original order is the one [Js.sort] answers. *)
Section StableSortUnique.
Context {A : Type} (le : A -> A -> bool).
Hypothesis le_total : forall a b, le a b = false -> le b a = true.
Hypothesis le_trans :
  forall a b c, le a b = true -> le b c = true -> le a c = true.

Let tie (k x : A) : bool := le k x && le x k.
Let Le (a b : A) : Prop := le a b = true.

Lemma le_refl (a : A) : le a a = true.
Proof.
  destruct (le a a) eqn:E; [reflexivity|].
  pose proof (le_total E). congruence.
Qed.

Lemma tie_refl (a : A) : tie a a = true.
Proof. unfold tie. now rewrite le_refl. Qed.

Lemma sorted_head_least (x y : A) (l : list A) :
  StronglySorted Le (x :: l) -> In y (x :: l) -> le x y = true.
Proof.
  intros S I. inversion S as [|? ? _ F]; subst.
  destruct I as [->|I]; [apply le_refl|].
  rewrite Forall_forall in F. now apply F.
Qed.

Lemma same_classes_In (l1 l2 : list A) (y : A) :
  (forall k, filter (tie k) l1 = filter (tie k) l2) ->
  In y l2 -> In y l1.
Proof.
  intros C I.
  assert (Iy : In y (filter (tie y) l2))
    by (apply filter_In; split; [exact I | apply tie_refl]).
  rewrite <- C in Iy. now apply filter_In in Iy.
Qed.

Lemma sorted_same_classes_eq (l1 l2 : list A) :
  StronglySorted Le l1 -> StronglySorted Le l2 ->
  (forall k, filter (tie k) l1 = filter (tie k) l2) ->
  l1 = l2.
Proof.
  revert l2. induction l1 as [|x l1 IH]; intros l2 S1 S2 C.
  - destruct l2 as [|y l2]; [reflexivity|].
    exfalso. apply (@same_classes_In [] (y :: l2) y C). now left.
  - destruct l2 as [|y l2].
    + exfalso.
      apply (@same_classes_In [] (x :: l1) x); [|now left].
      intro k. symmetry. apply C.
    + assert (Lxy : le x y = true).
      { apply (sorted_head_least S1).
        apply (@same_classes_In (x :: l1) (y :: l2) y C). now left. }
      assert (Lyx : le y x = true).
      { apply (sorted_head_least S2).
        apply (@same_classes_In (y :: l2) (x :: l1) x); [|now left].
        intro k. symmetry. apply C. }
      assert (E : x = y).
      { pose proof (C x) as Cx. simpl in Cx.
        rewrite tie_refl in Cx. unfold tie in Cx at 2.
        rewrite Lxy, Lyx in Cx. simpl in Cx. congruence. }
      subst y. f_equal.
      inversion S1; inversion S2; subst.
      apply IH; trivial.
      intro k. pose proof (C k) as Ck. simpl in Ck.
      destruct (tie k x); congruence.
Qed.

Lemma stable_sort_unique (l l' : list A) :
  StronglySorted Le l' ->
  (forall k, filter (tie k) l' = filter (tie k) l) ->
  l' = Js.sort le l.
Proof.
  intros S C. apply sorted_same_classes_eq; trivial.
  - apply sort_sorted; unfold Le; [trivial | exact le_total | exact le_trans].
  - intro k. rewrite C. symmetry. apply sort_stable.
    unfold tie. intros a b Ta Tb.
    apply andb_true_iff in Ta, Tb.
    apply (@le_trans a k b); tauto.
Qed.

End StableSortUnique.

(** ** Importance policy *)

Lemma high_codes_test (code : string) :
  (code =? "netPay") || ((code =? "PAYE") || (code =? "paye"))
  || ((code =? "SALARY") || (code =? "basicSalary")) = true
  <-> In code high_codes.
Proof.
  unfold high_codes. simpl.
  repeat rewrite orb_true_iff. repeat rewrite String.eqb_eq.
  intuition congruence.
Qed.

Lemma determineImportance_high_iff category code delta direction :
  determineImportance category code delta direction = high
  <-> In code high_codes.
Proof.
  rewrite <- high_codes_test. unfold determineImportance.
  destruct (code =? "netPay"); simpl; [intuition|].
  destruct ((code =? "PAYE") || (code =? "paye")); simpl; [intuition|].
  destruct ((code =? "SALARY") || (code =? "basicSalary")); simpl;
    [intuition|].
  destruct (_ || _); [split; discriminate|].
  destruct (ChangeCategory_beq _ _); [split; discriminate|].
  destruct (Js.ltn _ _); split; discriminate.
Qed.

(** ** Line-item comparison *)

Lemma compareLine_cases category oldMap newMap c :
  compareLine category oldMap newMap c
  = if (Js.eqn (amount_of oldMap c) 0 && Js.eqn (amount_of newMap c) 0
        && negb (isAddedIn oldMap newMap c)
        && negb (isRemovedIn oldMap newMap c))
       || (Js.eqn (amount_of newMap c - amount_of oldMap c) 0
           && negb (isAddedIn oldMap newMap c)
           && negb (isRemovedIn oldMap newMap c))
    then None
    else Some (line_record category oldMap newMap c).
Proof.
  unfold compareLine, line_record, amount_of, isAddedIn, isRemovedIn.
  destruct (Js.eqn _ 0 && Js.eqn _ 0 && _ && _); simpl; [reflexivity|].
  destruct (Js.eqn _ 0 && _ && _); reflexivity.
Qed.

Lemma compareLine_None_iff category oldMap newMap c :
  compareLine category oldMap newMap c = None
  <-> both_zero_rule oldMap newMap c \/ zero_delta_rule oldMap newMap c.
Proof.
  rewrite compareLine_cases. unfold both_zero_rule, zero_delta_rule.
  destruct (Js.eqn (amount_of oldMap c) 0),
           (Js.eqn (amount_of newMap c) 0),
           (Js.eqn (amount_of newMap c - amount_of oldMap c) 0),
           (isAddedIn oldMap newMap c), (isRemovedIn oldMap newMap c);
    simpl; intuition congruence.
Qed.

Lemma compareLine_Some category oldMap newMap c r :
  compareLine category oldMap newMap c = Some r ->
  r = line_record category oldMap newMap c.
Proof.
  rewrite compareLine_cases. destruct (_ || _); congruence.
Qed.

Lemma compareLine_code category oldMap newMap c r :
  compareLine category oldMap newMap c = Some r -> code r = c.
Proof. intro E. apply compareLine_Some in E. now subst. Qed.

Lemma with_code_pushed_same {A} (body : A -> option ChangeRecord) x c :
  (forall r, body x = Some r -> code r = c) ->
  with_code c (pushed (body x)) = pushed (body x).
Proof.
  intro Hc. destruct (body x) as [r|] eqn:E; simpl; [|reflexivity].
  rewrite (Hc r eq_refl), String.eqb_refl. reflexivity.
Qed.

Lemma with_code_pushed_other {A} (body : A -> option ChangeRecord) x c c' :
  (forall r, body x = Some r -> code r = c') -> c' <> c ->
  with_code c (pushed (body x)) = [].
Proof.
  intros Hc D. destruct (body x) as [r|] eqn:E; simpl; [|reflexivity].
  rewrite (Hc r eq_refl). apply String.eqb_neq in D. now rewrite D.
Qed.

Lemma with_code_app c (l1 l2 : list ChangeRecord) :
  with_code c (l1 ++ l2) = (with_code c l1 ++ with_code c l2)%list.
Proof. apply filter_app. Qed.

Lemma with_code_absent (body : string -> option ChangeRecord) xs c :
  (forall x r, body x = Some r -> code r = x) ->
  ~ In c xs -> with_code c (for_push body xs) = [].
Proof.
  intros Hc. rewrite for_push_flat_map.
  induction xs as [|x xs IH]; intro N; simpl; [reflexivity|].
  assert (Nx : x <> c) by (intro; apply N; now left).
  assert (Nxs : ~ In c xs) by (intro; apply N; now right).
  rewrite with_code_app, (IH Nxs), app_nil_r.
  exact (with_code_pushed_other body x (c' := x) (Hc x) Nx).
Qed.

Lemma with_code_present (body : string -> option ChangeRecord) xs c :
  (forall x r, body x = Some r -> code r = x) ->
  NoDup xs -> In c xs ->
  with_code c (for_push body xs) = pushed (body c).
Proof.
  intros Hc Hnd. induction Hnd as [|x xs Hx Hnd IH]; intro I; [destruct I|].
  pose proof (@with_code_absent body xs c Hc) as Habs.
  rewrite for_push_flat_map in *. simpl. rewrite with_code_app.
  destruct (string_dec x c) as [->|D].
  - rewrite Habs by assumption. rewrite app_nil_r.
    apply (with_code_pushed_same body c). apply Hc.
  - destruct I as [E|I]; [contradiction|].
    rewrite IH by assumption.
    now rewrite (with_code_pushed_other body x (c' := x) (Hc x) D).
Qed.

Lemma allCodes_In oldMap newMap c :
  In c (allCodes oldMap newMap) <-> In c (Js.keys oldMap ++ Js.keys newMap).
Proof. apply new_Set_In. Qed.

Lemma with_code_compareLineMaps category oldMap newMap c :
  In c (Js.keys oldMap ++ Js.keys newMap) ->
  with_code c (compareLineMaps category oldMap newMap)
  = pushed (compareLine category oldMap newMap c).
Proof.
  intro I. unfold compareLineMaps. apply with_code_present.
  - intros x r. apply compareLine_code.
  - apply new_Set_NoDup.
  - now apply allCodes_In.
Qed.

(** C4.  For each code of the union of the keys of the two maps: no change
    record is emitted when both values are 0 and the item is neither added
    nor removed, none when delta is 0 and the item is neither added nor
    removed, and in every other case exactly one record for that code is
    emitted (the one built from the two values). *)
Theorem compareLineMaps_reports_observable_changes :
  forall category oldMap newMap c,
    In c (Js.keys oldMap ++ Js.keys newMap) ->
    let emitted := with_code c (compareLineMaps category oldMap newMap) in
    (both_zero_rule oldMap newMap c -> emitted = [])
    /\ (zero_delta_rule oldMap newMap c -> emitted = [])
    /\ (~ both_zero_rule oldMap newMap c ->
        ~ zero_delta_rule oldMap newMap c ->
        emitted = [line_record category oldMap newMap c]).
Proof.
  intros category oldMap newMap c I emitted. unfold emitted.
  rewrite with_code_compareLineMaps by assumption.
  repeat split.
  - intro B.
    now rewrite (proj2 (compareLine_None_iff category oldMap newMap c)
                   (or_introl B)).
  - intro Z.
    now rewrite (proj2 (compareLine_None_iff category oldMap newMap c)
                   (or_intror Z)).
  - intros NB NZ.
    destruct (compareLine category oldMap newMap c) as [r|] eqn:E.
    + apply compareLine_Some in E. now subst.
    + apply compareLine_None_iff in E. tauto.
Qed.

Lemma compareLineMaps_reports_observable_changes_witness :
  In "ADVANCE"
    (Js.keys (deductions may_normalized)
     ++ Js.keys (deductions june_normalized))%list
  /\ with_code "ADVANCE"
       (compareLineMaps deduction
          (deductions may_normalized) (deductions june_normalized))
     = [line_record deduction
          (deductions may_normalized) (deductions june_normalized) "ADVANCE"].
Proof.
  assert (I : In "ADVANCE"
                (Js.keys (deductions may_normalized)
                 ++ Js.keys (deductions june_normalized))%list)
    by (vm_compute; tauto).
  split; [exact I|].
  apply (compareLineMaps_reports_observable_changes deduction
           (deductions may_normalized) (deductions june_normalized)
           "ADVANCE" I).
  - intros (_ & _ & A & _). vm_compute in A. discriminate A.
  - intros (_ & A & _). vm_compute in A. discriminate A.
Defined.

(** C9, as stated, fails: a deduction that is new in the current period
    with amount 0 is reported as an added record whose two values and delta
    are all 0. *)
Lemma zero_valued_added_line_is_reported :
  map (fun r => (code r, direction r, oldValue r, newValue r, delta r))
    (compareLineMaps deduction [] zero_advance)
  = [("ADVANCE", added, 0%js, 0%js, 0%js)].
Proof. reflexivity. Qed.

(** C9, amended.  For a line-item code whose delta is 0 the change record is
    suppressed exactly when the item is present on both sides.  An item
    present only in the current map still yields one added record, and an
    item present only in the previous map one removed record, also when its
    value is 0. *)
Theorem zero_delta_suppressed_unless_added_or_removed :
  forall category oldMap newMap c,
    In c (Js.keys oldMap ++ Js.keys newMap) ->
    Js.eqn (amount_of newMap c - amount_of oldMap c) 0 = true ->
    let emitted := with_code c (compareLineMaps category oldMap newMap) in
    (isAddedIn oldMap newMap c = false ->
     isRemovedIn oldMap newMap c = false -> emitted = [])
    /\ (isAddedIn oldMap newMap c = true ->
        exists r,
          emitted = [r] /\ direction r = added /\ Js.eqn (delta r) 0 = true)
    /\ (isRemovedIn oldMap newMap c = true ->
        exists r,
          emitted = [r] /\ direction r = removed
          /\ Js.eqn (delta r) 0 = true).
Proof.
  intros category oldMap newMap c I Z emitted. unfold emitted.
  rewrite with_code_compareLineMaps by assumption.
  rewrite compareLine_cases. rewrite Z.
  repeat split.
  - intros -> ->. simpl. now rewrite orb_true_r.
  - intros A. rewrite A. simpl. rewrite !andb_false_r. simpl.
    eexists. split; [reflexivity|]. simpl.
    unfold getChangeDirection. rewrite A. split; [reflexivity | exact Z].
  - intros Rm. rewrite Rm. simpl. rewrite !andb_false_r. simpl.
    eexists. split; [reflexivity|]. simpl. split; [|exact Z].
    unfold getChangeDirection. rewrite Rm.
    unfold isAddedIn, isRemovedIn in *.
    destruct (Js.truthy (Js.get oldMap c)); [reflexivity | discriminate].
Qed.

Lemma zero_delta_suppressed_unless_added_or_removed_witness :
  In "ADVANCE" (Js.keys (@nil (string * NormalizedLine))
                ++ Js.keys zero_advance)%list
  /\ Js.eqn (amount_of zero_advance "ADVANCE" - amount_of [] "ADVANCE") 0
     = true
  /\ exists r,
       with_code "ADVANCE" (compareLineMaps deduction [] zero_advance) = [r]
       /\ direction r = added /\ Js.eqn (delta r) 0 = true.
Proof.
  assert (I : In "ADVANCE" (Js.keys (@nil (string * NormalizedLine))
                            ++ Js.keys zero_advance)%list)
    by (vm_compute; tauto).
  assert (Z : Js.eqn (amount_of zero_advance "ADVANCE"
                      - amount_of [] "ADVANCE") 0 = true) by reflexivity.
  split; [exact I|]. split; [exact Z|].
  apply (zero_delta_suppressed_unless_added_or_removed deduction
           [] zero_advance "ADVANCE" I Z).
  reflexivity.
Defined.

(** ** The passes of a comparison *)

Unset Implicit Arguments.

Lemma compareField_None_iff cat prev curr field :
  compareField cat prev curr field = None
  <-> Js.eqn (getValue field curr - getValue field prev) 0 = true.
Proof.
  unfold compareField.
  destruct (Js.eqn (getValue field curr - getValue field prev) 0) eqn:Z;
    [tauto|].
  destruct (Js.eqn (getValue field prev) 0) eqn:O,
           (Js.eqn (getValue field curr) 0) eqn:W;
    simpl; try (split; discriminate).
  rewrite (eqn_zero_sub _ _ O W) in Z. discriminate.
Qed.

Lemma compareField_Some cat prev curr field r :
  compareField cat prev curr field = Some r ->
  category r = cat /\ code r = f_code field
  /\ id r = category_name cat ++ ":" ++ f_code field
  /\ oldValue r = getValue field prev /\ newValue r = getValue field curr
  /\ delta r = (getValue field curr - getValue field prev)%js
  /\ importance r
     = determineImportance cat (f_code field) (delta r) (direction r)
  /\ direction r
     = getChangeDirection (getValue field prev) (getValue field curr)
         false false.
Proof.
  unfold compareField.
  destruct (Js.eqn _ 0); [discriminate|].
  destruct (_ && _); [discriminate|].
  intro E. injection E as <-. cbn. repeat split; reflexivity.
Qed.

(** The key-amount pass leaves the overtime record alone. *)
Lemma key_amount_pass prev curr :
  for_push
    (fun change =>
       if negb (Js.includes skipCodes (code change)) then Some change
       else None)
    (compareAggregates key_amount KEY_AMOUNT_FIELDS prev curr)
  = pushed (compareField key_amount prev curr overtime_field).
Proof.
  unfold compareAggregates, KEY_AMOUNT_FIELDS.
  rewrite !for_push_flat_map. cbn [flat_map].
  fold overtime_field.
  repeat match goal with
  | |- context [pushed (compareField key_amount prev curr ?f)] =>
      let E := fresh "E" in
      let r := fresh "r" in
      destruct (compareField key_amount prev curr f) as [r|] eqn:E;
      [apply compareField_Some in E; destruct E as (_ & E & _);
       cbn [f_code] in E |]
  end;
  cbn [pushed app flat_map];
  repeat match goal with
  | E : code ?r = _ |- _ => rewrite E; clear E
  end;
  reflexivity.
Qed.

Lemma collectChanges_passes previous current :
  collectChanges previous current
  = ((compareLineMaps earning (earnings previous) (earnings current)
      ++ compareLineMaps deduction (deductions previous) (deductions current)
      ++ compareLineMaps fringe_benefit
           (fringeBenefits previous) (fringeBenefits current)
      ++ compareLineMaps company_contribution
           (companyContributions previous) (companyContributions current))
     ++ compareAggregates aggregate AGGREGATE_FIELDS previous current
     ++ pushed (compareField key_amount previous current overtime_field))%list.
Proof. unfold collectChanges. now rewrite key_amount_pass. Qed.

Lemma in_compareLineMaps cat oldMap newMap r :
  In r (compareLineMaps cat oldMap newMap)
  <-> exists c, In c (Js.keys oldMap ++ Js.keys newMap)%list
                /\ compareLine cat oldMap newMap c = Some r.
Proof.
  unfold compareLineMaps. rewrite in_for_push.
  split; intros [c [I E]]; exists c; split; trivial;
    now apply allCodes_In.
Qed.

Lemma in_collectChanges_iff previous current r :
  In r (collectChanges previous current) <-> reported_by previous current r.
Proof.
  rewrite collectChanges_passes. unfold reported_by.
  rewrite !in_app_iff, !in_compareLineMaps.
  unfold compareAggregates. rewrite in_for_push.
  split.
  - intros [[H|[H|[H|H]]]|[H|H]].
    + left. exists earning. destruct H as [c H]. now exists c.
    + left. exists deduction. destruct H as [c H]. now exists c.
    + left. exists fringe_benefit. destruct H as [c H]. now exists c.
    + left. exists company_contribution. destruct H as [c H]. now exists c.
    + right. now left.
    + right. right.
      destruct (compareField key_amount previous current overtime_field);
        simpl in H; [|contradiction].
      destruct H as [->|[]]. reflexivity.
  - intros [(cat & c & L & I & E)|[H|H]].
    + left. destruct cat; try discriminate; simpl in *;
        [left | right; left | right; right; left | right; right; right];
        now exists c.
    + right. now left.
    + right. right. rewrite H. now left.
Qed.

Lemma in_changes_iff previous current r :
  In r (changes (comparePayslips previous current))
  <-> reported_by previous current r.
Proof.
  rewrite <- in_collectChanges_iff. unfold comparePayslips. cbn [changes].
  split; apply Permutation_in;
    [apply sort_perm | symmetry; apply sort_perm].
Qed.

(** What holds of every record the two loops can push holds of every
    record of a comparison. *)
Lemma collectChanges_Forall (P : ChangeRecord -> Prop) previous current :
  (forall category oldMap newMap c r,
      compareLine category oldMap newMap c = Some r -> P r) ->
  (forall category field r,
      compareField category previous current field = Some r -> P r) ->
  Forall P (collectChanges previous current).
Proof.
  intros Hline Hfield. apply Forall_forall. intros r I.
  apply in_collectChanges_iff in I.
  destruct I as [(cat & c & _ & _ & E)|[(field & _ & E)|E]].
  - now apply Hline in E.
  - now apply Hfield in E.
  - now apply Hfield in E.
Qed.

Lemma changes_Forall (P : ChangeRecord -> Prop) previous current :
  Forall P (collectChanges previous current) ->
  Forall P (changes (comparePayslips previous current)).
Proof.
  intro F. unfold comparePayslips. simpl.
  now apply (Permutation_Forall (Permutation_sym (sort_perm change_le _))).
Qed.

(** ** Payslips whose amounts are finite *)

Lemma get_In_values {V} (m : Js.Map V) (k : string) (v : V) :
  Js.get m k = Some v -> In v (Js.values m).
Proof.
  induction m as [|[k' v'] m IH]; simpl; [discriminate|].
  destruct (String.eqb k k'); [intros [= ->]; now left|].
  intro E. right. now apply IH.
Qed.

Lemma finite_lines_amount_of (m : LineMap) (c : string) :
  finite_lines m = true -> Js.isFinite (amount_of m c) = true.
Proof.
  unfold finite_lines, amount_of. intro F.
  destruct (Js.get m c) as [l|] eqn:G; simpl; [|reflexivity].
  rewrite forallb_forall in F. apply F. exact (get_In_values m c l G).
Qed.

Lemma finite_amounts_spec (p : NormalizedPayslip) :
  finite_amounts p = true ->
  (forall cat c, Js.isFinite (amount_of (lines_of cat p) c) = true)
  /\ (forall field,
         In field AGGREGATE_FIELDS -> Js.isFinite (getValue field p) = true)
  /\ Js.isFinite (overtime (keyAmounts p)) = true.
Proof.
  unfold finite_amounts. rewrite !andb_true_iff.
  intros [[[[[E D] F] C] A] O]. split; [|split].
  - intros cat c. destruct cat; simpl;
      try (now apply finite_lines_amount_of); reflexivity.
  - intros field I. rewrite forallb_forall in A. now apply A.
  - exact O.
Qed.

(** With finite amounts, every record of a comparison carries two finite
    values. *)
Lemma collectChanges_finite previous current :
  finite_amounts previous = true -> finite_amounts current = true ->
  Forall
    (fun r => Js.isFinite (oldValue r) = true
              /\ Js.isFinite (newValue r) = true)
    (collectChanges previous current).
Proof.
  intros Fp Fc.
  apply finite_amounts_spec in Fp, Fc.
  destruct Fp as (Lp & Ap & Op), Fc as (Lc & Ac & Oc).
  apply Forall_forall. intros r I. apply in_collectChanges_iff in I.
  destruct I as [(cat & c & _ & _ & E)|[(field & F & E)|E]].
  - apply compareLine_Some in E. subst r. cbn [oldValue newValue line_record].
    split; [apply Lp | apply Lc].
  - apply compareField_Some in E.
    destruct E as (_ & _ & _ & -> & -> & _).
    split; [now apply Ap | now apply Ac].
  - apply compareField_Some in E.
    destruct E as (_ & _ & _ & -> & -> & _). split; assumption.
Qed.

Set Implicit Arguments.

(** ** Comparing a payslip with itself *)

Lemma compareLine_same category (m : LineMap) c :
  Js.isFinite (amount_of m c) = true ->
  compareLine category m m c = None.
Proof.
  intro F. apply compareLine_None_iff. right. unfold zero_delta_rule.
  split; [now apply eqn_sub_self|]. unfold isAddedIn, isRemovedIn.
  destruct (Js.truthy (Js.get m c)); split; reflexivity.
Qed.

Lemma compareLineMaps_same category (m : LineMap) :
  finite_lines m = true -> compareLineMaps category m m = [].
Proof.
  intro F. apply for_push_none. intros c _.
  apply compareLine_same. now apply finite_lines_amount_of.
Qed.

Lemma compareField_same category p field :
  Js.isFinite (getValue field p) = true ->
  compareField category p p field = None.
Proof.
  intro F. apply compareField_None_iff. now apply eqn_sub_self.
Qed.

Lemma collectChanges_same p :
  finite_amounts p = true -> collectChanges p p = [].
Proof.
  intro F. rewrite collectChanges_passes.
  pose proof (finite_amounts_spec p F) as (_ & A & O).
  unfold finite_amounts in F. rewrite !andb_true_iff in F.
  destruct F as [[[[[E D] Fb] C] _] _].
  rewrite !compareLineMaps_same by assumption.
  rewrite (compareField_same key_amount p overtime_field O).
  simpl. rewrite app_nil_r. apply for_push_none. intros f I.
  apply compareField_same. now apply A.
Qed.

(** C5, as stated, fails.  Each earning line of the payslip is a finite
    number, yet two of its totals are infinite: compared with itself, the
    payslip yields two records, for the two totals whose difference is
    NaN. *)
Lemma same_payslip_with_overflowed_totals :
  forallb (fun l => Js.isFinite (e_total l) && Js.isFinite (e_taxableAmount l))
    (h_earnings windfall_2012) = true
  /\ map (fun r => (id r, oldValue r, newValue r, delta r))
       (changes (comparePayslips windfall_normalized windfall_normalized))
     = [ ("aggregate:grossEarnings",
          Js.Infinity false, Js.Infinity false, Js.NaN);
         ("aggregate:totalTaxableEarnings",
          Js.Infinity false, Js.Infinity false, Js.NaN) ].
Proof. split; vm_compute; reflexivity. Qed.

(** C5, amended.  Comparing a normalized payslip whose amounts are all
    finite with itself yields no change record and a net pay delta of 0. *)
Theorem comparePayslips_same_payslip :
  forall p : NormalizedPayslip,
    finite_amounts p = true ->
    changes (comparePayslips p p) = []
    /\ Js.eqn (netPayDelta (summary (comparePayslips p p))) 0 = true.
Proof.
  intros p F. unfold comparePayslips. simpl.
  rewrite (collectChanges_same p F). split; [reflexivity|].
  apply eqn_sub_self.
  apply finite_amounts_spec in F. destruct F as (_ & A & _).
  apply (A netPay_field). simpl. unfold netPay_field. tauto.
Qed.

Lemma comparePayslips_same_payslip_witness :
  changes (comparePayslips june_normalized june_normalized) = []
  /\ Js.eqn
       (netPayDelta (summary (comparePayslips june_normalized june_normalized)))
       0 = true.
Proof.
  apply (comparePayslips_same_payslip june_normalized). reflexivity.
Defined.

(** ** Records whose direction is "unchanged" *)

Lemma getChangeDirection_unchanged ov nv isAdded isRemoved :
  getChangeDirection ov nv isAdded isRemoved = unchanged
  <-> isAdded = false /\ isRemoved = false
      /\ Js.ltn ov nv = false /\ Js.ltn nv ov = false.
Proof.
  unfold getChangeDirection, Js.gtn.
  destruct isAdded; [split; [discriminate | intros [? _]; discriminate]|].
  destruct isRemoved;
    [split; [discriminate | intros (_ & ? & _); discriminate]|].
  destruct (Js.ltn ov nv);
    [split; [discriminate | intros (_ & _ & ? & _); discriminate]|].
  destruct (Js.ltn nv ov);
    [split; [discriminate | intros (_ & _ & _ & ?); discriminate]|].
  tauto.
Qed.

(** A record is "unchanged" only when its delta is NaN. *)
Lemma compareLine_unchanged category oldMap newMap c r :
  compareLine category oldMap newMap c = Some r ->
  direction r = unchanged -> Js.isNaN (delta r) = true.
Proof.
  rewrite compareLine_cases.
  destruct (_ || _) eqn:S; [discriminate|].
  intro E. injection E as <-. cbn [direction delta line_record].
  intro U. apply getChangeDirection_unchanged in U.
  destruct U as (A & Rm & L & G).
  rewrite A, Rm in S. simpl in S. rewrite !andb_true_r in S.
  apply orb_false_iff in S. destruct S as [_ Z].
  now apply isNaN_sub.
Qed.

Lemma compareField_unchanged category prev curr field r :
  compareField category prev curr field = Some r ->
  direction r = unchanged -> Js.isNaN (delta r) = true.
Proof.
  intro E.
  assert (Z : Js.eqn (getValue field curr - getValue field prev) 0 = false).
  { destruct (Js.eqn _ 0) eqn:Z; [|reflexivity].
    apply compareField_None_iff with (cat := category) in Z. congruence. }
  apply compareField_Some in E.
  destruct E as (_ & _ & _ & _ & _ & -> & _ & ->).
  intro U. apply getChangeDirection_unchanged in U.
  destruct U as (_ & _ & L & G). now apply isNaN_sub.
Qed.

Lemma collectChanges_delta previous current :
  Forall (fun r => delta r = (newValue r - oldValue r)%js)
    (collectChanges previous current).
Proof.
  apply collectChanges_Forall.
  - intros category oldMap newMap c r E.
    apply compareLine_Some in E. now subst.
  - intros category field r E. apply compareField_Some in E.
    destruct E as (_ & _ & _ & -> & -> & -> & _). reflexivity.
Qed.

Lemma collectChanges_unchanged previous current :
  Forall (fun r => direction r = unchanged -> Js.isNaN (delta r) = true)
    (collectChanges previous current).
Proof.
  apply collectChanges_Forall.
  - intros category oldMap newMap c r. apply compareLine_unchanged.
  - intros category field r. apply compareField_unchanged.
Qed.

(** With finite amounts no delta is NaN, so no record is "unchanged". *)
Lemma collectChanges_no_NaN previous current :
  finite_amounts previous = true -> finite_amounts current = true ->
  Forall (fun r => Js.isNaN (delta r) = false)
    (collectChanges previous current).
Proof.
  intros Fp Fc.
  pose proof (collectChanges_finite _ _ Fp Fc) as F.
  pose proof (collectChanges_delta previous current) as D.
  rewrite Forall_forall in *. intros r I.
  destruct (F r I) as [O N]. rewrite (D r I).
  now apply isNaN_sub_finite.
Qed.

Lemma collectChanges_changed previous current :
  finite_amounts previous = true -> finite_amounts current = true ->
  Forall (fun c => direction c <> unchanged)
    (collectChanges previous current).
Proof.
  intros Fp Fc.
  pose proof (collectChanges_no_NaN _ _ Fp Fc) as N.
  pose proof (collectChanges_unchanged previous current) as U.
  rewrite Forall_forall in *. intros r I D.
  specialize (U r I D). rewrite (N r I) in U. discriminate.
Qed.

Lemma count_directions (cs : list ChangeRecord) :
  Forall (fun c => direction c <> unchanged) cs ->
  (count_direction increase cs + count_direction decrease cs
   + count_direction added cs + count_direction removed cs
   = List.length cs)%nat.
Proof.
  unfold count_direction.
  induction 1 as [|c cs Hc _ IH]; simpl; [reflexivity|].
  destruct (direction c); simpl; try lia. congruence.
Qed.

(** C10, as stated, fails.  The two records of the payslip with infinite
    totals compared with itself are both "unchanged", and the four
    direction counts of the summary add up to 0 against 2 changes. *)
Lemma overflowed_totals_are_unchanged_records :
  let result := comparePayslips windfall_normalized windfall_normalized in
  map direction (changes result) = [unchanged; unchanged]
  /\ (increases (summary result) + decreases (summary result)
      + s_added (summary result) + s_removed (summary result) = 0)%nat
  /\ totalChanges (summary result) = 2%nat.
Proof. repeat split; vm_compute; reflexivity. Qed.

(** C10, amended.  For two normalized payslips whose amounts are all
    finite, no change record of the comparison has direction "unchanged";
    so the four direction counts of the summary add up to [totalChanges],
    which is the length of the changes list. *)
Theorem comparePayslips_no_unchanged_record :
  forall previous current : NormalizedPayslip,
    finite_amounts previous = true ->
    finite_amounts current = true ->
    let result := comparePayslips previous current in
    Forall (fun c => direction c <> unchanged) (changes result)
    /\ (increases (summary result) + decreases (summary result)
        + s_added (summary result) + s_removed (summary result)
        = totalChanges (summary result))%nat
    /\ totalChanges (summary result) = List.length (changes result).
Proof.
  intros previous current Fp Fc result.
  assert (F : Forall (fun c => direction c <> unchanged) (changes result)).
  { apply changes_Forall. now apply collectChanges_changed. }
  split; [exact F|]. split; [|reflexivity].
  unfold result, comparePayslips in *. simpl in *.
  now apply count_directions.
Qed.

Lemma comparePayslips_no_unchanged_record_witness :
  let result := comparePayslips may_normalized june_normalized in
  Forall (fun c => direction c <> unchanged) (changes result)
  /\ (increases (summary result) + decreases (summary result)
      + s_added (summary result) + s_removed (summary result)
      = totalChanges (summary result))%nat
  /\ totalChanges (summary result) = List.length (changes result).
Proof.
  apply (comparePayslips_no_unchanged_record may_normalized june_normalized);
    reflexivity.
Defined.

(** ** Direction, delta and percentage of a record *)

Lemma getChangeDirection_sign ov nv isAdded isRemoved :
  (getChangeDirection ov nv isAdded isRemoved = increase
   -> Js.ltn 0 (nv - ov) = true)
  /\ (getChangeDirection ov nv isAdded isRemoved = decrease
      -> Js.ltn (nv - ov) 0 = true).
Proof.
  rewrite ltn_zero_sub, ltn_sub_zero.
  unfold getChangeDirection, Js.gtn.
  destruct isAdded; [split; discriminate|].
  destruct isRemoved; [split; discriminate|].
  destruct (Js.ltn ov nv) eqn:G; [split; [reflexivity | discriminate]|].
  destruct (Js.ltn nv ov) eqn:L; split; trivial; discriminate.
Qed.

Lemma calculatePercentChange_None ov nv :
  calculatePercentChange ov nv = None <-> Js.eqn ov 0 = true.
Proof.
  unfold calculatePercentChange.
  destruct (Js.eqn ov 0); split; congruence.
Qed.

(** X1. Every record of a comparison: its delta is the new value minus the
    old one, an increase has a positive delta, a decrease a negative one,
    and the percentage is null exactly when the old value is 0. *)
Lemma changes_well_signed previous current :
  Forall well_signed (changes (comparePayslips previous current)).
Proof.
  apply changes_Forall, collectChanges_Forall.
  - intros category oldMap newMap c r E.
    apply compareLine_Some in E. subst r. unfold well_signed. cbn.
    split; [reflexivity|].
    split; [apply getChangeDirection_sign|].
    split; [apply getChangeDirection_sign|].
    apply calculatePercentChange_None.
  - intros category field r. unfold compareField.
    destruct (Js.eqn _ 0); [discriminate|].
    destruct (_ && _); [discriminate|].
    intro E. injection E as <-. unfold well_signed. cbn.
    split; [reflexivity|].
    split; [apply (@getChangeDirection_sign _ _ false false)|].
    split; [apply (@getChangeDirection_sign _ _ false false)|].
    apply calculatePercentChange_None.
Qed.

(** ** Importance of the records of a comparison *)

Lemma determineImportance_policy category code delta direction :
  determineImportance category code delta direction
  = importance_policy category code delta direction.
Proof.
  unfold importance_policy.
  destruct (in_dec string_dec code high_codes) as [I|N].
  - now apply determineImportance_high_iff.
  - pose proof (proj1 (high_codes_test code)) as T.
    unfold determineImportance.
    destruct (code =? "netPay"); [exfalso; apply N, T; reflexivity|].
    destruct ((code =? "PAYE") || (code =? "paye"));
      [exfalso; apply N, T; reflexivity|].
    destruct ((code =? "SALARY") || (code =? "basicSalary"));
      [exfalso; apply N, T; reflexivity|].
    clear T N.
    destruct direction; simpl; trivial; destruct category; reflexivity.
Qed.

(** C2.  The importance of every change record of a comparison is the value
    of one function of its (category, code, delta, direction), and that
    function follows the stated decision list: the codes netPay, PAYE, paye,
    SALARY and basicSalary give high; otherwise an added or removed
    direction gives medium; otherwise the aggregate category gives medium;
    otherwise abs(delta) < 100 gives low; otherwise medium.  High is
    reached through those five codes only. *)
Theorem determineImportance_follows_policy :
  (forall category code delta direction,
      determineImportance category code delta direction
      = importance_policy category code delta direction
      /\ (determineImportance category code delta direction = high
          <-> In code high_codes))
  /\ (forall previous current : NormalizedPayslip,
         Forall
           (fun c =>
              importance c
              = determineImportance (category c) (code c) (delta c)
                  (direction c))
           (changes (comparePayslips previous current))).
Proof.
  split.
  - intros category code delta direction.
    split; [apply determineImportance_policy
           | apply determineImportance_high_iff].
  - intros previous current.
    apply changes_Forall, collectChanges_Forall.
    + intros category oldMap newMap c r E.
      apply compareLine_Some in E. now subst.
    + intros category field r. unfold compareField.
      destruct (Js.eqn _ 0); [discriminate|].
      destruct (_ && _); [discriminate|].
      intro E. now injection E as <-.
Qed.

(** ** Ordering of the change list *)

Lemma importanceOrder_inj i j : importanceOrder i = importanceOrder j -> i = j.
Proof. destruct i, j; simpl; intro E; congruence || lia. Qed.

Lemma change_le_rank a b :
  importance a <> importance b ->
  change_le a b
  = (importanceOrder (importance a) <? importanceOrder (importance b))%Z.
Proof.
  intro D. unfold change_le, change_cmp, Js.gtn.
  change 0%js with (Js.of_Z 0). rewrite eqn_of_Z.
  destruct (Z.eqb_spec
              (importanceOrder (importance a)
               - importanceOrder (importance b)) 0) as [E|N];
    cbn [negb].
  - exfalso. apply D, importanceOrder_inj. lia.
  - rewrite ltn_of_Z.
    destruct (Z.ltb_spec 0 (importanceOrder (importance a)
                            - importanceOrder (importance b)));
      simpl; symmetry; [apply Z.ltb_ge | apply Z.ltb_lt]; lia.
Qed.

Lemma change_le_delta a b :
  importance a = importance b ->
  change_le a b = negb (Js.ltn (Js.abs (delta a)) (Js.abs (delta b))).
Proof.
  intro E. unfold change_le, change_cmp, Js.gtn.
  rewrite E, Z.sub_diag.
  change (Js.eqn (Js.of_Z 0) 0) with true. cbn [negb].
  now rewrite ltn_zero_sub.
Qed.

(** The sort never puts a record behind one of a lower importance rank,
    whatever the deltas are. *)
Lemma change_le_ranks a b :
  (change_le a b = true ->
   (importanceOrder (importance a) <= importanceOrder (importance b))%Z)
  /\ (change_le a b = false ->
      (importanceOrder (importance b) <= importanceOrder (importance a))%Z).
Proof.
  destruct (ImportanceLevel_eq_dec (importance a) (importance b)) as [E|D].
  - rewrite E. split; intros _; lia.
  - rewrite (change_le_rank a b D). split; intro L.
    + apply Z.ltb_lt in L. lia.
    + apply Z.ltb_ge in L. lia.
Qed.

Lemma change_le_iff a b :
  Js.isNaN (delta a) = false -> Js.isNaN (delta b) = false ->
  change_le a b = true <-> ranked_before a b.
Proof.
  intros Na Nb. unfold ranked_before.
  destruct (ImportanceLevel_eq_dec (importance a) (importance b)) as [E|D].
  - rewrite (change_le_delta a b E), E.
    rewrite <- leq_not_ltn by now rewrite isNaN_abs.
    split; [intro L; right; now split | intros [L|[_ L]]; [lia | exact L]].
  - rewrite (change_le_rank a b D), Z.ltb_lt.
    split; [intro; now left | intros [L|[C _]]; [exact L | contradiction]].
Qed.

Lemma ranked_before_total a b :
  Js.isNaN (delta a) = false -> Js.isNaN (delta b) = false ->
  change_le a b = false -> ranked_before b a.
Proof.
  intros Na Nb F. unfold ranked_before.
  destruct (ImportanceLevel_eq_dec (importance a) (importance b)) as [E|D].
  - right. split; [now symmetry|].
    rewrite (change_le_delta a b E) in F. apply negb_false_iff in F.
    unfold Js.leq. now rewrite F.
  - left. rewrite (change_le_rank a b D) in F. apply Z.ltb_ge in F.
    assert (N : importanceOrder (importance a)
                <> importanceOrder (importance b))
      by (intro X; apply D; now apply importanceOrder_inj).
    lia.
Qed.

Lemma ranked_before_trans a b c :
  ranked_before a b -> ranked_before b c -> ranked_before a c.
Proof.
  unfold ranked_before. intros [L1|[E1 L1]] [L2|[E2 L2]].
  - left. lia.
  - left. now rewrite <- E2.
  - left. now rewrite E1.
  - right. split; [congruence | exact (leq_trans _ _ _ L2 L1)].
Qed.

Lemma same_key_tied i d a b :
  same_key i d a = true -> same_key i d b = true -> change_le a b = true.
Proof.
  unfold same_key. rewrite !andb_true_iff.
  intros [Ia Da] [Ib Db].
  apply internal_ImportanceLevel_dec_bl in Ia, Ib.
  rewrite change_le_delta by congruence.
  now rewrite (ltn_eqn_tied _ _ _ Da Db).
Qed.

Lemma changes_sorted previous current :
  finite_amounts previous = true -> finite_amounts current = true ->
  StronglySorted ranked_before (changes (comparePayslips previous current)).
Proof.
  intros Fp Fc. unfold comparePayslips. cbn [changes].
  apply (@sort_sorted_on _ change_le ranked_before
           (fun r => Js.isNaN (delta r) = false)).
  - intros a b Na Nb. now apply change_le_iff.
  - intros a b. apply ranked_before_total.
  - intros a b c _ _ _. apply ranked_before_trans.
  - now apply collectChanges_no_NaN.
Qed.

(** C3, as stated, fails.  The two records of the payslip with infinite
    totals compared with itself are of one importance and their deltas are
    NaN, which no order ranks: the list is not ordered by absolute delta. *)
Lemma overflowed_totals_are_not_ordered :
  ~ StronglySorted ranked_before
      (changes (comparePayslips windfall_normalized windfall_normalized)).
Proof.
  intro S.
  pose proof (eq_refl :
    map (fun r => (importance r, delta r))
      (changes (comparePayslips windfall_normalized windfall_normalized))
    = [(medium, Js.NaN); (medium, Js.NaN)]) as E.
  destruct (changes (comparePayslips windfall_normalized windfall_normalized))
    as [|a [|b l]]; try discriminate E.
  simpl in E. injection E as Ia Da Ib Db _.
  inversion S as [|? ? _ F]; subst. inversion F as [|? ? R _]; subst.
  unfold ranked_before in R. rewrite Ia, Ib, Da, Db in R.
  destruct R as [L|[_ L]]; [simpl in L; lia | discriminate L].
Qed.

(** C3, amended.  For two normalized payslips whose amounts are all finite,
    the changes list of the comparison holds the collected records sorted
    by importance ascending (high, medium, low) and, within one importance,
    by descending absolute delta; records of equal importance and equal
    absolute delta stay in the order in which they were collected. *)
Theorem comparePayslips_changes_ordered :
  forall previous current : NormalizedPayslip,
    finite_amounts previous = true ->
    finite_amounts current = true ->
    let result := comparePayslips previous current in
    Permutation (changes result) (collectChanges previous current)
    /\ StronglySorted ranked_before (changes result)
    /\ forall i d,
         filter (same_key i d) (changes result)
         = filter (same_key i d) (collectChanges previous current).
Proof.
  intros previous current Fp Fc result.
  split; [apply sort_perm|]. split; [now apply changes_sorted|].
  intros i d. apply sort_stable. apply same_key_tied.
Qed.

Lemma comparePayslips_changes_ordered_witness :
  let result := comparePayslips may_normalized june_normalized in
  Permutation (changes result) (collectChanges may_normalized june_normalized)
  /\ StronglySorted ranked_before (changes result)
  /\ forall i d,
       filter (same_key i d) (changes result)
       = filter (same_key i d) (collectChanges may_normalized june_normalized).
Proof.
  apply (comparePayslips_changes_ordered may_normalized june_normalized);
    reflexivity.
Defined.

(** ** Normalization *)

Lemma keys_app {V} (m1 m2 : Js.Map V) :
  Js.keys (m1 ++ m2)%list = (Js.keys m1 ++ Js.keys m2)%list.
Proof. apply map_app. Qed.

Lemma build_map_from {A} (codeOf : A -> string) (norm : A -> NormalizedLine)
    (xs : list A) (m0 : LineMap) :
  NoDup (Js.keys m0 ++ map codeOf xs)%list ->
  fold_left (fun m x => Js.set m (codeOf x) (norm x)) xs m0
  = (m0 ++ map (fun x => (codeOf x, norm x)) xs)%list.
Proof.
  revert m0. induction xs as [|x xs IH]; intros m0 Hnd; simpl.
  - now rewrite app_nil_r.
  - simpl in Hnd.
    assert (Fresh : ~ In (codeOf x) (Js.keys m0)).
    { apply NoDup_remove_2 in Hnd. intro I. apply Hnd.
      apply in_or_app. now left. }
    rewrite (@set_fresh _ m0 (codeOf x) (norm x) Fresh), IH.
    + now rewrite <- app_assoc.
    + rewrite keys_app, <- app_assoc. exact Hnd.
Qed.

Lemma build_map_unique {A} (codeOf : A -> string)
    (norm : A -> NormalizedLine) (xs : list A) :
  NoDup (map codeOf xs) ->
  build_map codeOf norm xs = map (fun x => (codeOf x, norm x)) xs.
Proof.
  intro Hnd. unfold build_map. now rewrite build_map_from.
Qed.

Lemma sum_over_entries {A} (f : NormalizedLine -> Js.number)
    (codeOf : A -> string) (norm : A -> NormalizedLine) (xs : list A) :
  sum_over f (map (fun x => (codeOf x, norm x)) xs)
  = reduce_sum (fun x => f (norm x)) xs.
Proof.
  unfold sum_over, reduce_sum, Js.values. rewrite map_map. cbn [snd].
  generalize 0%js as acc.
  induction xs as [|x xs IH]; intro acc; cbn [fold_left map];
    [reflexivity | apply IH].
Qed.

(** C8.  For a raw payslip whose line codes are unique within each of its
    four lists, every total of the normalized payslip is the sum of the
    matching field over the matching line map, and [netPay] is the input
    net pay as it came. *)
Theorem normalizePayslip_totals_sum_the_maps :
  forall payslip : PayslipHeader,
    NoDup (map e_lineCode (h_earnings payslip)) ->
    NoDup (map d_lineCode (h_deductions payslip)) ->
    NoDup (map e_lineCode (h_fringeBenefits payslip)) ->
    NoDup (map d_lineCode (h_companyContributions payslip)) ->
    let n := normalizePayslip payslip in
    grossEarnings (totals n) = sum_over amount (earnings n)
    /\ totalTaxableEarnings (totals n) = sum_over taxableAmount (earnings n)
    /\ totalDeductions (totals n) = sum_over amount (deductions n)
    /\ totalTaxDeductible (totals n)
       = sum_over taxDeductibleAmount (deductions n)
    /\ totalFringeBenefits (totals n) = sum_over amount (fringeBenefits n)
    /\ totalCompanyContributions (totals n)
       = sum_over amount (companyContributions n)
    /\ netPay (totals n) = h_netPay payslip.
Proof.
  intros payslip He Hd Hf Hc n. unfold n, normalizePayslip. simpl.
  rewrite (@build_map_unique _ e_lineCode normalizeEarningLine _ He),
          (@build_map_unique _ d_lineCode normalizeDeductionLine _ Hd),
          (@build_map_unique _ e_lineCode normalizeEarningLine _ Hf),
          (@build_map_unique _ d_lineCode normalizeDeductionLine _ Hc).
  rewrite !sum_over_entries. repeat split; reflexivity.
Qed.

Lemma normalizePayslip_totals_sum_the_maps_witness :
  let n := normalizePayslip june_2012 in
  grossEarnings (totals n) = sum_over amount (earnings n)
  /\ totalTaxableEarnings (totals n) = sum_over taxableAmount (earnings n)
  /\ totalDeductions (totals n) = sum_over amount (deductions n)
  /\ totalTaxDeductible (totals n)
     = sum_over taxDeductibleAmount (deductions n)
  /\ totalFringeBenefits (totals n) = sum_over amount (fringeBenefits n)
  /\ totalCompanyContributions (totals n)
     = sum_over amount (companyContributions n)
  /\ netPay (totals n) = h_netPay june_2012.
Proof.
  apply (normalizePayslip_totals_sum_the_maps june_2012);
    simpl; repeat constructor; simpl; intuition discriminate.
Defined.

(** Without unique codes the totals and the maps part ways: the later line
    of a repeated code replaces the earlier one in the map, and both are
    summed into the total. *)
Example repeated_code_total_exceeds_map :
  let n := normalizePayslip
             (sample_payslip 1 1 0
                [ mkEarning "BONUS" "Bonus" 100 100;
                  mkEarning "BONUS" "Bonus" 50 50 ] []) in
  grossEarnings (totals n) = 150%js /\ sum_over amount (earnings n) = 50%js.
Proof. split; reflexivity. Qed.

(** ** Causal facts *)

Lemma find_app {A} (p : A -> bool) (l1 l2 : list A) :
  List.find p (l1 ++ l2)%list
  = match List.find p l1 with
    | Some x => Some x
    | None => List.find p l2
    end.
Proof.
  induction l1 as [|x l1 IH]; simpl; [reflexivity|].
  destruct (p x); [reflexivity | exact IH].
Qed.

Lemma lastWithCode_cons c cs e :
  lastWithCode (c :: cs) e
  = match lastWithCode cs e with
    | Some r => Some r
    | None => if code c =? e then Some c else None
    end.
Proof.
  unfold lastWithCode. simpl. rewrite find_app. simpl.
  destruct (List.find _ (rev cs)); [reflexivity|].
  destruct (code c =? e); reflexivity.
Qed.

Lemma get_changesByCode_from cs (m0 : Js.Map ChangeRecord) e :
  Js.get (fold_left (fun m change => Js.set m (code change) change) cs m0) e
  = match lastWithCode cs e with
    | Some r => Some r
    | None => Js.get m0 e
    end.
Proof.
  revert m0. induction cs as [|c cs IH]; intro m0; simpl; [reflexivity|].
  rewrite IH, lastWithCode_cons, get_set.
  destruct (lastWithCode cs e); [reflexivity|].
  rewrite (String.eqb_sym e (code c)).
  destruct (code c =? e); reflexivity.
Qed.

Lemma lastWithCode_In cs e r :
  lastWithCode cs e = Some r -> In r cs /\ code r = e.
Proof.
  unfold lastWithCode. intro F. apply find_some in F.
  destruct F as [I E]. apply in_rev in I. apply String.eqb_eq in E.
  now split.
Qed.

Lemma lastWithCode_None cs e :
  lastWithCode cs e = None -> forall r, In r cs -> code r <> e.
Proof.
  unfold lastWithCode. intros F r I E.
  apply in_rev in I. pose proof (find_none _ _ F r I) as N.
  apply String.eqb_neq in N. contradiction.
Qed.

(** No key of the dependency table names a member of [Object.prototype]:
    a code reads either its own entry, or nothing, or such a member. *)
Lemma getAffectedBy_cases code :
  getAffectedBy code
  = if inherits code then Js.Inherited code else Js.Own (affectedCodes code).
Proof.
  unfold getAffectedBy, Js.index, affectedCodes, inherits.
  destruct (Js.get CAUSAL_RULES code) as [l|] eqn:G.
  - assert (T : Js.truthy (Js.get CAUSAL_RULES code) = true)
      by now rewrite G.
    apply get_Some_In in T. simpl in T.
    repeat (destruct T as [<-|T]; [reflexivity|]). destruct T.
  - destruct (Js.includes Js.Object_prototype code); reflexivity.
Qed.

Lemma plain_codes_first cs :
  plain_codes cs = true <-> first_inheriting cs = None.
Proof.
  unfold plain_codes, first_inheriting.
  induction cs as [|c cs IH]; simpl; [tauto|].
  destruct (inherits (code c)); simpl; [split; discriminate | exact IH].
Qed.

Section CausalFacts.
Context `{Host}.

Lemma get_changesByCode cs e :
  Js.get (changesByCode cs) e = lastWithCode cs e.
Proof.
  unfold changesByCode. rewrite get_changesByCode_from.
  destruct (lastWithCode cs e); reflexivity.
Qed.

(** The loop ends with the TypeError of the first cause whose code names a
    member of [Object.prototype]; without such a cause it answers the facts
    of every cause. *)
Lemma causalLoop_cases byCode causes acc :
  causalLoop byCode causes acc
  = match first_inheriting causes with
    | Some c => inl (ErrorObject (notIterable (code c)))
    | None =>
        inr (acc
             ++ flat_map
                  (fun cause =>
                     for_push (causalFact byCode cause)
                       (affectedCodes (code cause)))
                  causes)%list
    end.
Proof.
  unfold first_inheriting.
  revert acc. induction causes as [|c causes IH]; intro acc; simpl.
  - now rewrite app_nil_r.
  - rewrite getAffectedBy_cases.
    destruct (inherits (code c)); [reflexivity|].
    rewrite IH. destruct (find _ causes); [reflexivity|].
    now rewrite <- app_assoc.
Qed.

Lemma generateCausalFacts_cases cs :
  generateCausalFacts cs
  = match first_inheriting cs with
    | Some c => inl (ErrorObject (notIterable (code c)))
    | None => inr (causalFactsOf cs)
    end.
Proof. unfold generateCausalFacts. now rewrite causalLoop_cases. Qed.

Lemma generateFacts_cases comparison :
  generateFacts comparison
  = match first_inheriting (changes comparison) with
    | Some c => inl (ErrorObject (notIterable (code c)))
    | None =>
        inr (assembleFacts comparison (causalFactsOf (changes comparison)))
    end.
Proof.
  unfold generateFacts. rewrite generateCausalFacts_cases.
  destruct (first_inheriting (changes comparison)); reflexivity.
Qed.

Lemma generateFacts_plain comparison :
  plain_codes (changes comparison) = true ->
  generateFacts comparison
  = inr (assembleFacts comparison (causalFactsOf (changes comparison))).
Proof.
  intro P. apply plain_codes_first in P.
  now rewrite generateFacts_cases, P.
Qed.

Lemma generateFacts_inr comparison result :
  generateFacts comparison = inr result ->
  plain_codes (changes comparison) = true
  /\ result = assembleFacts comparison (causalFactsOf (changes comparison)).
Proof.
  rewrite generateFacts_cases.
  destruct (first_inheriting (changes comparison)) eqn:F; [discriminate|].
  intros [= <-]. split; [now apply plain_codes_first | reflexivity].
Qed.

Lemma causalFact_cases cs cause e :
  causalFact (changesByCode cs) cause e = None /\ last_changed cs e = false
  \/ exists f,
       causalFact (changesByCode cs) cause e = Some f
       /\ last_changed cs e = true /\ links cs f (cause, e).
Proof.
  unfold causalFact, last_changed, links, changed.
  rewrite get_changesByCode.
  destruct (lastWithCode cs e) as [effect|] eqn:L; [|now left].
  destruct (negb _); [|now left].
  right. eexists. split; [reflexivity|]. split; [reflexivity|].
  exists effect. simpl. split; [exact L | repeat split; reflexivity].
Qed.

Lemma causal_facts_of_cause cs cause es :
  Forall2 (links cs)
    (for_push (causalFact (changesByCode cs) cause) es)
    (map (pair cause) (filter (last_changed cs) es)).
Proof.
  rewrite for_push_flat_map.
  induction es as [|e es IH]; simpl; [constructor|].
  destruct (causalFact_cases cs cause e) as [[-> ->]|[f (-> & -> & L)]];
    simpl; [exact IH | now constructor].
Qed.

Lemma causal_facts_of_causes cs causes :
  Forall2 (links cs)
    (flat_map
       (fun cause =>
          for_push (causalFact (changesByCode cs) cause)
            (affectedCodes (code cause)))
       causes)
    (flat_map
       (fun cause =>
          map (pair cause)
            (filter (last_changed cs) (affectedCodes (code cause))))
       causes).
Proof.
  induction causes as [|cause causes IH]; simpl; [constructor|].
  apply Forall2_app; [apply causal_facts_of_cause | exact IH].
Qed.

Lemma causalFactsOf_links cs :
  Forall2 (links cs) (causalFactsOf cs) (causal_pairs (last_changed cs) cs).
Proof. apply causal_facts_of_causes. Qed.

Lemma causalFactsOf_causal cs :
  Forall (fun f => is_causal f = true /\ fact_importance f = medium)
    (causalFactsOf cs).
Proof.
  pose proof (causalFactsOf_links cs) as F.
  induction F as [|f p fs ps L _ IH]; constructor; [|exact IH].
  destruct L as (effect & _ & T & M & _). unfold is_causal.
  now rewrite T.
Qed.

Lemma generateFactFromChange_not_causal change :
  is_causal (generateFactFromChange change) = false.
Proof.
  unfold is_causal, generateFactFromChange, changeToFactType. simpl.
  destruct (code change =? "netPay"); [reflexivity|].
  destruct (_ || _); [reflexivity|].
  destruct (category change), (direction change); reflexivity.
Qed.

Lemma causal_medium_tied a b :
  is_causal a && ImportanceLevel_beq (fact_importance a) medium = true ->
  is_causal b && ImportanceLevel_beq (fact_importance b) medium = true ->
  fact_le a b = true.
Proof.
  unfold is_causal. rewrite !andb_true_iff. intros [Ta Ia] [Tb Ib].
  apply FactType.internal_t_dec_bl in Ta, Tb.
  apply internal_ImportanceLevel_dec_bl in Ia, Ib.
  unfold fact_le, fact_cmp. now rewrite Ta, Tb, Ia, Ib.
Qed.

Lemma filter_causal_medium (l : list Fact) :
  Forall (fun f => is_causal f = true -> fact_importance f = medium) l ->
  filter is_causal l
  = filter
      (fun f => is_causal f && ImportanceLevel_beq (fact_importance f) medium)
      l.
Proof.
  intro F. apply filter_ext_in. intros f I.
  rewrite Forall_forall in F. specialize (F f I).
  destruct (is_causal f); [|reflexivity].
  rewrite (F eq_refl). reflexivity.
Qed.

(** The causal facts of the assembled result are the generated ones, in the
    order of their generation: the sort ranks them level with one
    another. *)
Lemma getCausalFacts_assembleFacts comparison :
  getCausalFacts
    (assembleFacts comparison (causalFactsOf (changes comparison)))
  = causalFactsOf (changes comparison).
Proof.
  unfold getCausalFacts, assembleFacts. cbn [facts].
  set (direct := map generateFactFromChange _).
  set (causal := causalFactsOf _).
  assert (M : Forall (fun f => is_causal f = true -> fact_importance f = medium)
                (direct ++ causal)%list).
  { apply Forall_app. split.
    - apply Forall_forall. intros f I. unfold direct in I.
      apply in_map_iff in I. destruct I as [c [<- _]].
      rewrite generateFactFromChange_not_causal. discriminate.
    - apply Forall_impl with (2 := causalFactsOf_causal _).
      intros f [_ M] _. exact M. }
  change (fun f => FactType.t_beq (fact_type f) FactType.causal)
    with is_causal.
  rewrite filter_causal_medium
    by (apply (Permutation_Forall (Permutation_sym (sort_perm fact_le _)));
        exact M).
  rewrite (sort_stable fact_le _ _ causal_medium_tied).
  rewrite <- filter_causal_medium by exact M.
  rewrite filter_app.
  replace (filter is_causal direct) with (@nil Fact).
  - simpl. apply forallb_filter_id. apply forallb_forall.
    intros f I.
    pose proof (causalFactsOf_causal (changes comparison)) as C.
    rewrite Forall_forall in C. now apply C.
  - symmetry. unfold direct. clear M.
    induction (filter _ (changes comparison)) as [|c l IH]; simpl;
      [reflexivity|].
    now rewrite generateFactFromChange_not_causal.
Qed.

Lemma getCausalFacts_generateFacts comparison result :
  generateFacts comparison = inr result ->
  getCausalFacts result = causalFactsOf (changes comparison).
Proof.
  intro G. apply generateFacts_inr in G. destruct G as [_ ->].
  apply getCausalFacts_assembleFacts.
Qed.

End CausalFacts.

Lemma changed_true r : direction r <> unchanged -> changed r = true.
Proof.
  intro D. unfold changed. destruct (direction r); trivial. congruence.
Qed.

Lemma some_changed_is_last_changed cs e :
  Forall (fun c => direction c <> unchanged) cs ->
  some_changed cs e = last_changed cs e.
Proof.
  intro F. rewrite Forall_forall in F.
  unfold some_changed, last_changed.
  destruct (lastWithCode cs e) as [r|] eqn:L.
  - apply lastWithCode_In in L. destruct L as [I E].
    rewrite (@changed_true r (F r I)).
    apply existsb_exists. exists r. split; [exact I|].
    rewrite (@changed_true r (F r I)), andb_true_r. now apply String.eqb_eq.
  - apply not_true_iff_false. intro X. apply existsb_exists in X.
    destruct X as [r [I X]]. apply andb_true_iff in X. destruct X as [E _].
    apply String.eqb_eq in E. exact (@lastWithCode_None cs e L r I E).
Qed.

(** The codes of the records of a comparison are line codes of the two
    payslips, names of totals, or "overtime". *)
Lemma changes_plain_codes previous current :
  plain_payslip previous = true -> plain_payslip current = true ->
  plain_codes (changes (comparePayslips previous current)) = true.
Proof.
  intros Pp Pc. unfold plain_codes. apply forallb_forall. intros r I.
  apply in_changes_iff in I.
  assert (L : forall cat c,
             In c (Js.keys (lines_of cat previous)
                   ++ Js.keys (lines_of cat current))%list ->
             inherits c = false).
  { intros cat c Ic. apply negb_true_iff.
    unfold plain_payslip, plain_lines in Pp, Pc.
    rewrite !andb_true_iff, !forallb_forall in Pp, Pc.
    destruct Pp as [[[Pe Pd] Pf] Pcc], Pc as [[[Ce Cd] Cf] Ccc].
    apply in_app_or in Ic.
    destruct cat; simpl in Ic; destruct Ic as [Ic|Ic]; auto; destruct Ic. }
  destruct I as [(cat & c & _ & Ic & E)|[(field & F & E)|E]].
  - apply compareLine_code in E. rewrite E, (L cat c Ic). reflexivity.
  - apply compareField_Some in E. destruct E as (_ & -> & _).
    simpl in F.
    destruct F as [<-|[<-|[<-|[<-|[<-|[<-|[]]]]]]]; reflexivity.
  - apply compareField_Some in E. destruct E as (_ & -> & _). reflexivity.
Qed.



Unset Implicit Arguments.

(** X17. For two payslips whose amounts are finite and whose line codes
    name no member of [Object.prototype], no record of the comparison is
    unchanged and [generateFacts] answers: the causal facts are counted by
    the pairs whose effect code has some change record. *)
Corollary causal_fact_count_of_a_comparison :
  forall (host : Host) (previous current : NormalizedPayslip),
    finite_amounts previous = true -> finite_amounts current = true ->
    plain_payslip previous = true -> plain_payslip current = true ->
    let cs := changes (comparePayslips previous current) in
    exists result,
      generateFacts (comparePayslips previous current) = inr result
      /\ List.length (getCausalFacts result)
         = List.length (causal_pairs (some_changed cs) cs).
Proof.
  intros host previous current Fp Fc Pp Pc cs.
  eexists. split.
  - apply generateFacts_plain. now apply changes_plain_codes.
  - rewrite getCausalFacts_assembleFacts.
    rewrite (Forall2_length (causalFactsOf_links _)). fold cs.
    unfold causal_pairs. f_equal.
    apply flat_map_ext. intro cause. f_equal.
    apply filter_ext. intro e. symmetry.
    apply some_changed_is_last_changed.
    apply changes_Forall. now apply collectChanges_changed.
Qed.

Lemma causal_fact_count_of_a_comparison_witness :
  exists result,
    @generateFacts sample_host (comparePayslips may_normalized june_normalized)
    = inr result
    /\ List.length (getCausalFacts result)
       = List.length
           (causal_pairs
              (some_changed
                 (changes (comparePayslips may_normalized june_normalized)))
              (changes (comparePayslips may_normalized june_normalized))).
Proof.
  apply (causal_fact_count_of_a_comparison sample_host
           may_normalized june_normalized);
    reflexivity.
Defined.

Set Implicit Arguments.

(** ** Pairing *)

Lemma period_le_iff a b : period_le a b = true <-> period_before a b.
Proof.
  unfold period_le, period_cmp, period_before.
  destruct (Z.eqb_spec (calendarYear a) (calendarYear b)) as [E|D]; simpl;
    rewrite Z.leb_le; lia.
Qed.

Lemma period_before_total a b : period_le a b = false -> period_before b a.
Proof.
  intro F. assert (N : ~ period_before a b)
    by (rewrite <- period_le_iff; congruence).
  unfold period_before in *. lia.
Qed.

Lemma period_before_trans a b c :
  period_before a b -> period_before b c -> period_before a c.
Proof. unfold period_before. lia. Qed.

Lemma sortPayslipsByPeriod_sorted l :
  StronglySorted period_before (sortPayslipsByPeriod l).
Proof.
  apply sort_sorted.
  - intros a b. apply period_le_iff.
  - apply period_before_total.
  - apply period_before_trans.
Qed.


Lemma sorted_app_cross {A} (R : A -> A -> Prop) (l1 l2 : list A) :
  StronglySorted R (l1 ++ l2) ->
  forall x y, In x l1 -> In y l2 -> R x y.
Proof.
  induction l1 as [|z l1 IH]; simpl; intros S x y Ix Iy; [destruct Ix|].
  inversion S as [|? ? S' F]; subst.
  destruct Ix as [->|Ix].
  - rewrite Forall_forall in F. apply F, in_or_app. now right.
  - now apply IH.
Qed.




(** ** The orchestrator *)

Section Orchestrator.
Context {host : Host} {narrator : Narrator}.


Lemma runPipeline_paired headers options prev curr :
  getPayslipPairForComparison headers = Some (prev, curr) ->
  runPipeline headers options
  = match generateFacts (comparePayslips prev curr) with
    | inl thrown => failure (error_message thrown)
    | inr facts =>
        match narrate_step (Js.nullish (useLLM options) false)
                (narratorConfig options) facts with
        | inl thrown => failure (error_message thrown)
        | inr (text, used) =>
            {| success := true;
               error := None;
               payslips := Some (mkPair prev curr);
               comparison := Some (comparePayslips prev curr);
               r_facts := Some facts;
               r_explanation := Some text;
               llmUsage := used |}
        end
    end.
Proof.
  intro P. unfold runPipeline, runPipeline_try. rewrite P.
  destruct (generateFacts _) as [thrown|facts]; [reflexivity|].
  destruct (narrate_step _ _ _) as [thrown|[text used]]; reflexivity.
Qed.

(** A rejected narration call ends the run as a failure that carries the
    message of the rejection: the [catch] of [runPipeline] is the only
    handler on the way. *)
Lemma runPipeline_narration_rejected headers options prev curr facts thrown :
  getPayslipPairForComparison headers = Some (prev, curr) ->
  useLLM options = Some true ->
  generateFacts (comparePayslips prev curr) = inr facts ->
  narrateFacts facts (narratorConfig options) = inl thrown ->
  runPipeline headers options = failure (error_message thrown).
Proof.
  intros P U G T. rewrite (runPipeline_paired headers options P), G.
  unfold narrate_step. rewrite U. simpl. now rewrite T.
Qed.

(** The handler of the HTTP server recovers from the same rejection. *)
Lemma server_narrate_falls_back facts thrown :
  narrateFacts facts
    (Some {| model := Some "gpt-4o-mini"; maxTokens := None;
             temperature := None; language := None |}) = inl thrown ->
  server_narrate true true facts = (narrateFactsSimple facts, false).
Proof. intro T. unfold server_narrate. simpl. now rewrite T. Qed.

End Orchestrator.

(** ** Primary payslips *)

Lemma find_split {A} (p : A -> bool) (l : list A) (x : A) :
  List.find p l = Some x
  <-> exists before after,
        l = (before ++ x :: after)%list
        /\ Forall (fun y => p y = false) before /\ p x = true.
Proof.
  split.
  - induction l as [|y l IH]; simpl; [discriminate|].
    destruct (p y) eqn:Py.
    + intros [= ->]. exists [], l. repeat split; trivial.
    + intro F. destruct (IH F) as (before & after & -> & Fb & Px).
      exists (y :: before), after. repeat split; trivial.
      now constructor.
  - intros (before & after & -> & Fb & Px).
    induction Fb as [|y before Py _ IH]; simpl.
    + now rewrite Px.
    + now rewrite Py.
Qed.

(** A payslip is primary exactly when its first SALARY line is positive. *)
Lemma isPrimaryPayslip_first_salary payslip :
  isPrimaryPayslip payslip = true <-> first_salary_positive payslip.
Proof.
  unfold isPrimaryPayslip, Js.find, first_salary_positive, Js.gtn. split.
  - destruct (find _ (h_earnings payslip)) as [salary|] eqn:F;
      [|discriminate].
    intro G. apply find_split in F.
    destruct F as (before & after & E & Fb & C).
    exists before, salary, after. split; [exact E|]. split.
    + apply Forall_impl with (2 := Fb). intros x N.
      now apply String.eqb_neq.
    + split; [now apply String.eqb_eq | exact G].
  - intros (before & e & after & E & Fb & C & G).
    assert (F : find (fun e => e_lineCode e =? "SALARY") (h_earnings payslip)
                = Some e).
    { apply find_split. exists before, after. split; [exact E|]. split.
      - apply Forall_impl with (2 := Fb). intros x N.
        now apply String.eqb_neq.
      - now apply String.eqb_eq. }
    now rewrite F.
Qed.

Lemma isPrimaryPayslip_positive_salary payslip :
  isPrimaryPayslip payslip = true -> has_positive_salary payslip.
Proof.
  intro P. apply isPrimaryPayslip_first_salary in P.
  destruct P as (before & e & after & E & _ & C & G).
  exists e. split; [|now split].
  rewrite E. apply in_or_app. right. now left.
Qed.

(** X21. With one line per code the converse holds too: a payslip is primary
    exactly when it has a positive SALARY line. *)
Lemma isPrimaryPayslip_iff payslip :
  NoDup (map e_lineCode (h_earnings payslip)) ->
  isPrimaryPayslip payslip = true <-> has_positive_salary payslip.
Proof.
  intro U. split; [apply isPrimaryPayslip_positive_salary|].
  intros (e & I & C & P).
  unfold isPrimaryPayslip, Js.find, Js.gtn.
  induction (h_earnings payslip) as [|x l IH]; [destruct I|].
  simpl in *. inversion U as [|? ? Nx Ul]; subst.
  destruct (String.eqb_spec (e_lineCode x) "SALARY") as [Ex|Dx].
  - destruct I as [->|I]; [exact P|].
    exfalso. apply Nx. rewrite Ex, <- C. now apply in_map.
  - destruct I as [->|I]; [congruence | now apply IH].
Qed.



(** C1.  With narration by the collaborator requested and its call
    rejected, [runPipeline] does not fall back to the deterministic
    rendering: the rejection reaches the [catch] of the function and the run
    answers a failure with the message of the rejection. *)
Theorem runPipeline_surfaces_narration_failure :
  forall (host : Host) (narrator : Narrator)
         (headers : list PayslipHeader) (options : PipelineOptions)
         (prev curr : NormalizedPayslip) (facts : FactsResult)
         (thrown : Thrown),
    getPayslipPairForComparison headers = Some (prev, curr) ->
    useLLM options = Some true ->
    generateFacts (comparePayslips prev curr) = inr facts ->
    narrateFacts facts (narratorConfig options) = inl thrown ->
    let result := runPipeline headers options in
    success result = false
    /\ error result = Some (error_message thrown)
    /\ r_explanation result = None.
Proof.
  intros host narrator headers options prev curr facts thrown P U G T result.
  unfold result.
  rewrite (runPipeline_narration_rejected headers options P U G T).
  repeat split.
Qed.

Lemma runPipeline_surfaces_narration_failure_witness :
  let result :=
    @runPipeline sample_host narrator_down [may_2012; june_2012] with_llm in
  success result = false
  /\ error result = Some "Request timed out"
  /\ r_explanation result = None.
Proof.
  apply (@runPipeline_surfaces_narration_failure sample_host narrator_down
           [may_2012; june_2012] with_llm may_normalized june_normalized
           (@assembleFacts sample_host
              (comparePayslips may_normalized june_normalized)
              (@causalFactsOf sample_host
                 (changes (comparePayslips may_normalized june_normalized))))
           (ErrorObject "Request timed out"));
    reflexivity.
Defined.

(** ** The worked scenario

    Previous period: SALARY 25000, TRAVEL 1500, PAYE 5000, net pay 19000.
    Current period: the same earnings, PAYE 5200, a new ADVANCE deduction of
    500, net pay 18300. *)

Example scenario_changes :
  map (fun c => (id c, direction c, importance c, delta c))
    (changes (comparePayslips may_normalized june_normalized))
  = [ ("aggregate:netPay", decrease, high, (-700)%js);
      ("deduction:PAYE:amount", increase, high, 200%js);
      ("aggregate:totalDeductions", increase, medium, 700%js);
      ("deduction:ADVANCE:amount", added, medium, 500%js) ].
Proof. reflexivity. Qed.

Example scenario_summary :
  summary (comparePayslips may_normalized june_normalized)
  = {| totalChanges := 4; increases := 2; decreases := 1;
       s_added := 1; s_removed := 0; netPayDelta := (-700)%js |}.
Proof. reflexivity. Qed.

Example scenario_key_takeaway :
  exists result,
    @generateFacts sample_host
      (comparePayslips may_normalized june_normalized) = inr result
    /\ keyTakeaway result
       = "Your net pay decreased by ZAR 700.00 this month.".
Proof. eexists. split; reflexivity. Qed.

Example scenario_causal_facts :
  exists result,
    @generateFacts sample_host
      (comparePayslips may_normalized june_normalized) = inr result
    /\ map (fun f => (fact_id f, relatedChangeIds f)) (getCausalFacts result)
       = [ ("causal:PAYE->netPay",
            Some ["deduction:PAYE:amount"; "aggregate:netPay"]);
           ("causal:totalDeductions->netPay",
            Some ["aggregate:totalDeductions"; "aggregate:netPay"]);
           ("causal:ADVANCE->netPay",
            Some ["deduction:ADVANCE:amount"; "aggregate:netPay"]) ].
Proof. eexists. split; reflexivity. Qed.

Example scenario_pairing :
  option_map (fun p => (payslipID (fst p), payslipID (snd p)))
    (getPayslipPairForComparison history_2012)
  = Some (71%Z, 87%Z).
Proof. reflexivity. Qed.

Example scenario_single_payslip :
  @runPipeline sample_host narrator_down [june_2012; june_2012_bonus]
    with_llm
  = failure not_enough_payslips.
Proof. reflexivity. Qed.

Example scenario_simple_narration :
  success (@runPipeline sample_host narrator_down history_2012 without_llm)
  = true.
Proof. reflexivity. Qed.

(** An earning line coded "constructor" ends the run in the TypeError of
    the causal loop, also with narration by the collaborator not requested. *)
Example scenario_prototype_code :
  @runPipeline sample_host narrator_down [may_2012; june_2012_constructor]
    without_llm
  = failure "affects is not iterable".
Proof. reflexivity. Qed.

(** * Further properties *)

Unset Implicit Arguments.

(** ** The records of a comparison, by category and code *)

Lemma filter_perm {A} (p : A -> bool) (l l' : list A) :
  Permutation l l' -> Permutation (filter p l) (filter p l').
Proof.
  induction 1 as [|x l l' _ IH|x y l|l l' l'' _ IH1 _ IH2]; simpl.
  - constructor.
  - destruct (p x); [now constructor | exact IH].
  - destruct (p x), (p y); try reflexivity. apply perm_swap.
  - now transitivity (filter p l').
Qed.

Lemma filter_perm_small {A} (p : A -> bool) (l l' : list A) :
  Permutation l l' -> (List.length (filter p l) <= 1)%nat ->
  filter p l' = filter p l.
Proof.
  intros P L. apply (filter_perm p) in P.
  destruct (filter p l) as [|x [|y t]]; simpl in L; [| |lia].
  - now apply Permutation_nil.
  - now apply Permutation_length_1_inv.
Qed.

Lemma pushed_length {B} (o : option B) : (List.length (pushed o) <= 1)%nat.
Proof. destruct o; simpl; lia. Qed.

Lemma select_app cat c (l1 l2 : list ChangeRecord) :
  select cat c (l1 ++ l2) = (select cat c l1 ++ select cat c l2)%list.
Proof. apply filter_app. Qed.

Lemma select_other_category cat cat' c (l : list ChangeRecord) :
  Forall (fun r => category r = cat') l -> cat' <> cat ->
  select cat c l = [].
Proof.
  intros F D. induction F as [|r l E _ IH]; simpl; [reflexivity|].
  rewrite E.
  destruct (ChangeCategory_beq cat' cat) eqn:B; [|exact IH].
  apply internal_ChangeCategory_dec_bl in B. contradiction.
Qed.

Lemma select_same_category cat c (l : list ChangeRecord) :
  Forall (fun r => category r = cat) l -> select cat c l = with_code c l.
Proof.
  intro F. induction F as [|r l E _ IH]; simpl; [reflexivity|].
  rewrite E, (@internal_ChangeCategory_dec_lb cat cat eq_refl). simpl.
  now rewrite IH.
Qed.

Lemma compareLine_absent category oldMap newMap c :
  ~ In c (Js.keys oldMap ++ Js.keys newMap)%list ->
  compareLine category oldMap newMap c = None.
Proof.
  intro N. rewrite in_app_iff in N.
  assert (O : Js.get oldMap c = None) by (apply get_None; tauto).
  assert (W : Js.get newMap c = None) by (apply get_None; tauto).
  unfold compareLine. now rewrite O, W.
Qed.

Lemma compareLineMaps_category cat oldMap newMap :
  Forall (fun r => category r = cat) (compareLineMaps cat oldMap newMap).
Proof.
  apply Forall_forall. intros r I. apply in_for_push in I.
  destruct I as [c [_ E]]. apply compareLine_Some in E. now subst.
Qed.

(** The direction of an item that is on both sides is the order of its two
    values. *)
Lemma getChangeDirection_present ov nv :
  (getChangeDirection ov nv false false = increase <-> Js.ltn ov nv = true)
  /\ (getChangeDirection ov nv false false = decrease
      <-> Js.ltn nv ov = true)
  /\ (getChangeDirection ov nv false false = unchanged
      <-> Js.ltn ov nv = false /\ Js.ltn nv ov = false).
Proof.
  unfold getChangeDirection, Js.gtn.
  destruct (Js.ltn ov nv) eqn:G.
  - rewrite (ltn_asym _ _ G).
    repeat split; try discriminate; try reflexivity.
    intros [X _]. discriminate.
  - destruct (Js.ltn nv ov) eqn:L;
      repeat split; try discriminate; try reflexivity.
    intros [_ X]. discriminate.
Qed.

Lemma compareAggregates_category cat fields prev curr :
  Forall (fun r => category r = cat)
    (compareAggregates cat fields prev curr).
Proof.
  apply Forall_forall. intros r I. apply in_for_push in I.
  destruct I as [f [_ E]]. now apply compareField_Some in E.
Qed.

Lemma select_compareLineMaps cat cat' oldMap newMap c :
  select cat c (compareLineMaps cat' oldMap newMap)
  = if ChangeCategory_beq cat' cat
    then pushed (compareLine cat' oldMap newMap c)
    else [].
Proof.
  destruct (ChangeCategory_beq cat' cat) eqn:B.
  - apply internal_ChangeCategory_dec_bl in B. subst cat'.
    rewrite (select_same_category cat c _
               (compareLineMaps_category cat oldMap newMap)).
    destruct (in_dec string_dec c (Js.keys oldMap ++ Js.keys newMap)%list)
      as [I|N].
    + now apply with_code_compareLineMaps.
    + rewrite (compareLine_absent cat oldMap newMap c N).
      apply with_code_absent.
      * intros x r. apply compareLine_code.
      * now rewrite allCodes_In.
  - apply (select_other_category cat cat' c _
             (compareLineMaps_category cat' oldMap newMap)).
    intros ->.
    now rewrite (@internal_ChangeCategory_dec_lb cat cat eq_refl) in B.
Qed.

Lemma pushed_compareField_category cat prev curr field :
  Forall (fun r => category r = cat)
    (pushed (compareField cat prev curr field)).
Proof.
  destruct (compareField cat prev curr field) as [r|] eqn:E; simpl;
    constructor; [|constructor].
  now apply compareField_Some in E.
Qed.

Lemma select_pushed_compareField cat prev curr field c :
  select cat c (pushed (compareField cat prev curr field))
  = if f_code field =? c then pushed (compareField cat prev curr field)
    else [].
Proof.
  destruct (compareField cat prev curr field) as [r|] eqn:E; simpl.
  - apply compareField_Some in E. destruct E as (-> & -> & _).
    rewrite (@internal_ChangeCategory_dec_lb _ _ eq_refl). simpl.
    destruct (f_code field =? c); reflexivity.
  - destruct (f_code field =? c); reflexivity.
Qed.

Lemma select_compareAggregates_absent cat fields prev curr c :
  ~ In c (map f_code fields) ->
  select cat c (compareAggregates cat fields prev curr) = [].
Proof.
  unfold compareAggregates. rewrite for_push_flat_map.
  induction fields as [|x xs IH]; simpl; intro N; [reflexivity|].
  rewrite select_app, select_pushed_compareField, IH by tauto.
  destruct (String.eqb_spec (f_code x) c) as [E|_]; [|reflexivity].
  exfalso. apply N. now left.
Qed.

Lemma select_compareAggregates cat fields prev curr field :
  NoDup (map f_code fields) -> In field fields ->
  select cat (f_code field) (compareAggregates cat fields prev curr)
  = pushed (compareField cat prev curr field).
Proof.
  intros U I. induction fields as [|x xs IH]; [destruct I|].
  simpl in U. inversion U as [|? ? Nx Uxs]; subst.
  pose proof (select_compareAggregates_absent cat xs prev curr) as Abs.
  unfold compareAggregates in *. rewrite for_push_flat_map in *. simpl.
  rewrite select_app, select_pushed_compareField.
  destruct I as [->|I].
  - rewrite String.eqb_refl.
    rewrite (Abs (f_code field)) by assumption. apply app_nil_r.
  - destruct (String.eqb_spec (f_code x) (f_code field)) as [E|_].
    + exfalso. apply Nx. rewrite E. now apply in_map.
    + exact (IH Uxs I).
Qed.

Lemma select_sorted cat c (l : list ChangeRecord) :
  (List.length (select cat c l) <= 1)%nat ->
  select cat c (Js.sort change_le l) = select cat c l.
Proof.
  intro L. apply filter_perm_small; [|exact L].
  symmetry. apply sort_perm.
Qed.

Lemma select_collectChanges_line cat c previous current :
  is_line_category cat = true ->
  select cat c (collectChanges previous current)
  = pushed (compareLine cat (lines_of cat previous) (lines_of cat current) c).
Proof.
  intro L. rewrite collectChanges_passes.
  rewrite !select_app, !select_compareLineMaps.
  rewrite (select_other_category cat aggregate c _
             (compareAggregates_category aggregate _ previous current)),
          (select_other_category cat key_amount c _
             (pushed_compareField_category key_amount previous current _))
    by (intro D; subst cat; discriminate).
  destruct cat; try discriminate; simpl; now rewrite ?app_nil_r.
Qed.

(** X2. Per line category and code, a comparison holds exactly what one
    round of the line loop yields on the two maps of the category: at most
    one record, and none for a code neither map knows. *)
Theorem comparePayslips_line_records :
  forall (previous current : NormalizedPayslip) (cat : ChangeCategory)
         (c : string),
    is_line_category cat = true ->
    select cat c (changes (comparePayslips previous current))
    = pushed (compareLine cat (lines_of cat previous)
                (lines_of cat current) c)
    /\ (~ In c (Js.keys (lines_of cat previous)
                ++ Js.keys (lines_of cat current))%list ->
        select cat c (changes (comparePayslips previous current)) = []).
Proof.
  intros previous current cat c L.
  assert (E : select cat c (changes (comparePayslips previous current))
              = pushed (compareLine cat (lines_of cat previous)
                          (lines_of cat current) c)).
  { unfold comparePayslips. cbn [changes].
    rewrite select_sorted;
      rewrite (select_collectChanges_line cat c previous current L);
      [reflexivity | apply pushed_length]. }
  split; [exact E|].
  intro N. rewrite E. now rewrite compareLine_absent.
Qed.

Lemma comparePayslips_line_records_witness :
  select deduction "ADVANCE"
    (changes (comparePayslips may_normalized june_normalized))
  = pushed (compareLine deduction (lines_of deduction may_normalized)
              (lines_of deduction june_normalized) "ADVANCE").
Proof.
  apply (comparePayslips_line_records may_normalized june_normalized
           deduction "ADVANCE").
  reflexivity.
Defined.

(** ** The aggregate and key-amount records *)

Lemma AGGREGATE_FIELDS_codes : NoDup (map f_code AGGREGATE_FIELDS).
Proof.
  simpl. repeat constructor; simpl; intuition discriminate.
Qed.

Lemma select_collectChanges_aggregate c previous current :
  select aggregate c (collectChanges previous current)
  = select aggregate c
      (compareAggregates aggregate AGGREGATE_FIELDS previous current).
Proof.
  rewrite collectChanges_passes.
  rewrite !select_app, !select_compareLineMaps. simpl.
  now rewrite (select_other_category aggregate key_amount c _
                 (pushed_compareField_category key_amount previous current _))
    by discriminate; rewrite app_nil_r.
Qed.

Lemma aggregate_reported previous current field :
  In field AGGREGATE_FIELDS ->
  select aggregate (f_code field)
    (changes (comparePayslips previous current))
  = pushed (compareField aggregate previous current field).
Proof.
  intro I. unfold comparePayslips. cbn [changes].
  rewrite select_sorted;
    rewrite select_collectChanges_aggregate,
            (select_compareAggregates aggregate AGGREGATE_FIELDS
               previous current field AGGREGATE_FIELDS_codes I);
    [reflexivity | apply pushed_length].
Qed.

(** X3. Each of the six totals is reported by exactly one aggregate record
    when the difference of its two values is not 0, and by none when it is
    0. The record is an increase or a decrease as the two values are
    ordered, and "unchanged" exactly when the difference is NaN. For two
    finite values the difference is 0 exactly when they are equal. *)
Theorem comparePayslips_aggregate_records :
  forall (previous current : NormalizedPayslip) (field : AggregateField),
    In field AGGREGATE_FIELDS ->
    let oldValue := getValue field previous in
    let newValue := getValue field current in
    let reported :=
      select aggregate (f_code field)
        (changes (comparePayslips previous current)) in
    (Js.eqn (newValue - oldValue) 0 = true -> reported = [])
    /\ (Js.eqn (newValue - oldValue) 0 = false ->
        exists r,
          reported = [r]
          /\ id r = "aggregate:" ++ f_code field
          /\ delta r = (newValue - oldValue)%js
          /\ (direction r = increase <-> Js.ltn oldValue newValue = true)
          /\ (direction r = decrease <-> Js.ltn newValue oldValue = true)
          /\ (direction r = unchanged
              <-> Js.isNaN (newValue - oldValue) = true))
    /\ (Js.isFinite oldValue = true -> Js.isFinite newValue = true ->
        Js.eqn (newValue - oldValue) 0 = Js.eqn newValue oldValue).
Proof.
  intros previous current field I oldValue newValue reported.
  unfold reported.
  rewrite (aggregate_reported previous current field I).
  split; [|split].
  - intro Z.
    apply (proj2 (compareField_None_iff aggregate previous current field))
      in Z.
    now rewrite Z.
  - intro N.
    destruct (compareField aggregate previous current field) as [r|] eqn:C.
    + exists r. split; [reflexivity|].
      apply compareField_Some in C.
      destruct C as (_ & _ & Hid & _ & _ & Hd & _ & Hdir).
      split; [exact Hid|]. split; [exact Hd|].
      rewrite Hdir. fold oldValue newValue.
      destruct (getChangeDirection_present oldValue newValue)
        as (Gi & Gd & Gu).
      split; [exact Gi|]. split; [exact Gd|].
      rewrite Gu. now apply isNaN_sub.
    + apply compareField_None_iff in C. fold oldValue newValue in C.
      congruence.
  - apply eqn_sub_zero.
Qed.

Lemma comparePayslips_aggregate_records_witness :
  In netPay_field AGGREGATE_FIELDS
  /\ exists r,
       select aggregate "netPay"
         (changes (comparePayslips may_normalized june_normalized)) = [r]
       /\ id r = "aggregate:netPay"
       /\ delta r
          = (netPay (totals june_normalized)
             - netPay (totals may_normalized))%js
       /\ (direction r = increase
           <-> Js.ltn (netPay (totals may_normalized))
                 (netPay (totals june_normalized)) = true)
       /\ (direction r = decrease
           <-> Js.ltn (netPay (totals june_normalized))
                 (netPay (totals may_normalized)) = true)
       /\ (direction r = unchanged
           <-> Js.isNaN (netPay (totals june_normalized)
                         - netPay (totals may_normalized)) = true).
Proof.
  assert (I : In netPay_field AGGREGATE_FIELDS)
    by (simpl; unfold netPay_field; tauto).
  split; [exact I|].
  apply (comparePayslips_aggregate_records may_normalized june_normalized
           netPay_field I).
  reflexivity.
Defined.

(** X4. The net pay delta of the summary and the aggregate net pay record go
    together: the record is there exactly when the delta is not 0, carries
    that delta, is of high importance, and its direction is the sign of the
    delta. *)
Theorem netPay_record_matches_netPayDelta :
  forall previous current : NormalizedPayslip,
    let result := comparePayslips previous current in
    let reported := select aggregate "netPay" (changes result) in
    (Js.eqn (netPayDelta (summary result)) 0 = true -> reported = [])
    /\ (Js.eqn (netPayDelta (summary result)) 0 = false ->
        exists r,
          reported = [r]
          /\ delta r = netPayDelta (summary result)
          /\ importance r = high
          /\ (direction r = increase
              <-> Js.ltn 0 (netPayDelta (summary result)) = true)
          /\ (direction r = decrease
              <-> Js.ltn (netPayDelta (summary result)) 0 = true)).
Proof.
  intros previous current result reported.
  assert (I : In netPay_field AGGREGATE_FIELDS)
    by (simpl; unfold netPay_field; tauto).
  pose proof (aggregate_reported previous current netPay_field I) as E.
  change (f_code netPay_field) with "netPay" in E.
  fold result in E. fold reported in E. rewrite E.
  change (netPayDelta (summary result))
    with (netPay (totals current) - netPay (totals previous))%js.
  pose proof (compareField_None_iff aggregate previous current netPay_field)
    as Z.
  change (getValue netPay_field current) with (netPay (totals current)) in Z.
  change (getValue netPay_field previous) with (netPay (totals previous)) in Z.
  split.
  - intro D. apply Z in D. now rewrite D.
  - intro N.
    destruct (compareField aggregate previous current netPay_field)
      as [r|] eqn:C; [|rewrite (proj1 Z eq_refl) in N; discriminate].
    exists r. split; [reflexivity|].
    apply compareField_Some in C.
    destruct C as (_ & _ & _ & _ & _ & Hd & Hi & Hdir).
    change (getValue netPay_field current) with (netPay (totals current))
      in Hd, Hdir.
    change (getValue netPay_field previous) with (netPay (totals previous))
      in Hd, Hdir.
    split; [exact Hd|]. split; [exact Hi|].
    rewrite Hdir, ltn_zero_sub, ltn_sub_zero.
    destruct (getChangeDirection_present (netPay (totals previous))
                (netPay (totals current))) as (Gi & Gd & _).
    split; assumption.
Qed.

Lemma filter_category_other cat cat' (l : list ChangeRecord) :
  Forall (fun r => category r = cat') l -> cat' <> cat ->
  filter (fun c => ChangeCategory_beq (category c) cat) l = [].
Proof.
  intros F D. induction F as [|r l E _ IH]; simpl; [reflexivity|].
  rewrite E. destruct (ChangeCategory_beq cat' cat) eqn:B; [|exact IH].
  apply internal_ChangeCategory_dec_bl in B. contradiction.
Qed.

Lemma filter_category_same cat (l : list ChangeRecord) :
  Forall (fun r => category r = cat) l ->
  filter (fun c => ChangeCategory_beq (category c) cat) l = l.
Proof.
  intro F. induction F as [|r l E _ IH]; simpl; [reflexivity|].
  rewrite E, (@internal_ChangeCategory_dec_lb cat cat eq_refl).
  now rewrite IH.
Qed.

(** X5. Of the six key amounts only the combined overtime is ever reported:
    a comparison holds at most one key-amount record, the overtime one, and
    holds it exactly when the difference of the two overtime amounts is not
    0, which for finite amounts is when they differ. *)
Theorem comparePayslips_key_amount_records :
  forall previous current : NormalizedPayslip,
    let oldValue := overtime (keyAmounts previous) in
    let newValue := overtime (keyAmounts current) in
    let reported :=
      getChangesByCategory (comparePayslips previous current) key_amount in
    reported = pushed (compareField key_amount previous current overtime_field)
    /\ Forall (fun r => code r = "overtime") reported
    /\ (reported = [] <-> Js.eqn (newValue - oldValue) 0 = true)
    /\ (Js.isFinite oldValue = true -> Js.isFinite newValue = true ->
        Js.eqn (newValue - oldValue) 0 = Js.eqn newValue oldValue).
Proof.
  intros previous current oldValue newValue reported.
  assert (E : reported
              = pushed (compareField key_amount previous current
                          overtime_field)).
  { unfold reported, getChangesByCategory, comparePayslips. cbn [changes].
    assert (C : filter (fun c => ChangeCategory_beq (category c) key_amount)
                  (collectChanges previous current)
                = pushed (compareField key_amount previous current
                            overtime_field)).
    { rewrite collectChanges_passes. rewrite !filter_app.
      rewrite !(fun cat' o n D =>
                  filter_category_other key_amount cat' _
                    (compareLineMaps_category cat' o n) D)
        by discriminate.
      rewrite (filter_category_other key_amount aggregate _
                 (compareAggregates_category aggregate _ previous current))
        by discriminate.
      simpl. apply filter_category_same, pushed_compareField_category. }
    rewrite <- C. apply filter_perm_small.
    - symmetry. apply sort_perm.
    - rewrite C. apply pushed_length. }
  split; [exact E|]. rewrite E.
  pose proof (compareField_None_iff key_amount previous current overtime_field)
    as Z.
  change (getValue overtime_field current) with newValue in Z.
  change (getValue overtime_field previous) with oldValue in Z.
  split; [|split; [|apply eqn_sub_zero]].
  - destruct (compareField key_amount previous current overtime_field)
      as [r|] eqn:C; simpl; constructor; [|constructor].
    now apply compareField_Some in C.
  - destruct (compareField key_amount previous current overtime_field)
      as [r|] eqn:C; simpl.
    + split; [discriminate|]. intro D. apply Z in D. discriminate.
    + split; [intros _; now apply Z | reflexivity].
Qed.

(** X9. The three category getters split the change list of any result
    between them: every record is a line item, an aggregate or a key amount. *)
Theorem category_getters_partition :
  forall result : ComparisonResult,
    Permutation (changes result)
      (getLineItemChanges result ++ getAggregateChanges result
       ++ getChangesByCategory result key_amount)%list.
Proof.
  intro result.
  unfold getLineItemChanges, getAggregateChanges, getChangesByCategory.
  induction (changes result) as [|c l IH]; simpl; [constructor|].
  destruct (category c); simpl.
  1-4: now constructor.
  - rewrite <- Permutation_middle. now constructor.
  - rewrite app_assoc, <- Permutation_middle, <- app_assoc.
    now constructor.
Qed.

(** ** Identity of the records *)

Lemma append_inj_l (a b c : string) : a ++ b = a ++ c -> b = c.
Proof.
  induction a as [|x a IH]; simpl; intro E; [exact E|].
  injection E as E. now apply IH.
Qed.

Lemma append_length (a b : string) :
  String.length (a ++ b) = (String.length a + String.length b)%nat.
Proof. induction a as [|x a IH]; simpl; [reflexivity | now rewrite IH]. Qed.

Lemma append_inj_r (a b c : string) : a ++ c = b ++ c -> a = b.
Proof.
  intro E.
  assert (L : String.length a = String.length b).
  { apply (f_equal String.length) in E. rewrite !append_length in E. lia. }
  revert b E L. induction a as [|x a IH]; intros [|y b] E L;
    simpl in *; try discriminate; [reflexivity|].
  injection E as -> E. f_equal. apply IH; [exact E | lia].
Qed.

Lemma category_name_inj c1 c2 (r1 r2 : string) :
  category_name c1 ++ ":" ++ r1 = category_name c2 ++ ":" ++ r2 -> c1 = c2.
Proof.
  destruct c1, c2; simpl; intro E; try reflexivity; discriminate.
Qed.

Lemma id_of_key_inj k1 k2 : id_of_key k1 = id_of_key k2 -> k1 = k2.
Proof.
  destruct k1 as [c1 s1], k2 as [c2 s2]. unfold id_of_key. simpl.
  intro E.
  assert (C : c1 = c2).
  { destruct (is_line_category c1), (is_line_category c2);
      now apply category_name_inj in E. }
  subst c2. f_equal.
  destruct (is_line_category c1); apply append_inj_l in E;
    apply (append_inj_l ":") in E; [now apply append_inj_r in E | exact E].
Qed.

Lemma NoDup_map_inj {A B} (f : A -> B) (l : list A) :
  (forall x y, f x = f y -> x = y) -> NoDup l -> NoDup (map f l).
Proof.
  intros Inj N. induction N as [|x l Nx _ IH]; simpl; constructor; trivial.
  intro I. apply in_map_iff in I. destruct I as [y [E Iy]].
  apply Inj in E. now subst.
Qed.

Lemma NoDup_keys_for_push {A K} (body : A -> option ChangeRecord)
    (g : A -> K) (key : ChangeRecord -> K) (xs : list A) :
  NoDup (map g xs) ->
  (forall x r, body x = Some r -> key r = g x) ->
  NoDup (map key (for_push body xs)).
Proof.
  intros N Hk. rewrite for_push_flat_map.
  induction xs as [|x xs IH]; simpl; [constructor|].
  simpl in N. inversion N as [|? ? Nx Nxs]; subst.
  destruct (body x) as [r|] eqn:E; simpl; [|now apply IH].
  constructor; [|now apply IH].
  intro I. apply in_map_iff in I. destruct I as [r' [Er' I]].
  apply in_flat_map in I. destruct I as [y [Iy Ir']].
  destruct (body y) as [r''|] eqn:Ey; simpl in Ir'; [|contradiction].
  destruct Ir' as [->|[]].
  apply Nx. rewrite <- (Hk x r E), <- Er', (Hk y r' Ey). now apply in_map.
Qed.

Lemma NoDup_keys_app cat (l1 l2 : list ChangeRecord) :
  Forall (fun r => category r = cat) l1 ->
  Forall (fun r => category r <> cat) l2 ->
  NoDup (map record_key l1) -> NoDup (map record_key l2) ->
  NoDup (map record_key (l1 ++ l2)).
Proof.
  intros F1 F2 N1 N2. rewrite map_app. apply NoDup_app; trivial.
  intros k I1 I2.
  apply in_map_iff in I1, I2.
  destruct I1 as [r1 [<- I1]], I2 as [r2 [E I2]].
  rewrite Forall_forall in F1, F2.
  apply (F2 r2 I2). injection E as E _. rewrite E. now apply F1.
Qed.

Lemma compareLineMaps_keys cat oldMap newMap :
  NoDup (map record_key (compareLineMaps cat oldMap newMap)).
Proof.
  apply (NoDup_keys_for_push _ (fun c => (cat, c))).
  - apply NoDup_map_inj; [now intros x y [=] | apply new_Set_NoDup].
  - intros c r E. apply compareLine_Some in E. now subst.
Qed.

Lemma compareAggregates_keys cat prev curr :
  NoDup (map record_key (compareAggregates cat AGGREGATE_FIELDS prev curr)).
Proof.
  apply (NoDup_keys_for_push _ (fun f => (cat, f_code f))).
  - rewrite <- (map_map f_code (fun c => (cat, c))).
    apply NoDup_map_inj; [now intros x y [=] | apply AGGREGATE_FIELDS_codes].
  - intros f r E. apply compareField_Some in E.
    destruct E as (C & D & _). unfold record_key. now rewrite C, D.
Qed.

Lemma Forall_other_category cat cat' (l : list ChangeRecord) :
  cat' <> cat ->
  Forall (fun r => category r = cat') l ->
  Forall (fun r => category r <> cat) l.
Proof.
  intros D. apply Forall_impl. intros r E. now rewrite E.
Qed.

Lemma collectChanges_keys previous current :
  NoDup (map record_key (collectChanges previous current)).
Proof.
  rewrite collectChanges_passes.
  pose proof (fun cat => compareLineMaps_category cat
                           (lines_of cat previous) (lines_of cat current))
    as Lc.
  pose proof (compareAggregates_category aggregate AGGREGATE_FIELDS
                previous current) as Ac.
  pose proof (pushed_compareField_category key_amount previous current
                overtime_field) as Kc.
  pose proof (Lc earning) as Le. pose proof (Lc deduction) as Ld.
  pose proof (Lc fringe_benefit) as Lf.
  pose proof (Lc company_contribution) as Lcc. simpl in Le, Ld, Lf, Lcc.
  rewrite <- !app_assoc.
  repeat
    (match goal with
     | |- NoDup (map record_key (compareLineMaps ?c _ _ ++ _)) =>
         apply (NoDup_keys_app c)
     | |- NoDup (map record_key (compareAggregates ?c _ _ _ ++ _)) =>
         apply (NoDup_keys_app c)
     | |- Forall _ (_ ++ _) => apply Forall_app; split
     | |- NoDup (map record_key (compareLineMaps _ _ _)) =>
         apply compareLineMaps_keys
     | |- NoDup (map record_key (compareAggregates _ _ _ _)) =>
         apply compareAggregates_keys
     | |- Forall (fun r => category r = _) _ => assumption
     | H : Forall (fun r => category r = ?c') ?l
       |- Forall (fun r => category r <> ?c) ?l =>
         apply (Forall_other_category c c'); [discriminate | exact H]
     end).
  destruct (compareField key_amount previous current overtime_field);
    simpl; repeat constructor; intros [].
Qed.

Lemma compareLineMaps_ids cat oldMap newMap :
  is_line_category cat = true ->
  Forall (fun r => id r = id_of_key (record_key r))
    (compareLineMaps cat oldMap newMap).
Proof.
  intro L. apply Forall_forall. intros r I. apply in_for_push in I.
  destruct I as [c [_ E]]. apply compareLine_Some in E. subst r.
  unfold id_of_key, record_key. cbn [category code fst snd line_record id].
  now rewrite L.
Qed.

Lemma compareField_ids cat prev curr field r :
  is_line_category cat = false ->
  compareField cat prev curr field = Some r ->
  id r = id_of_key (record_key r).
Proof.
  intros L E. apply compareField_Some in E.
  destruct E as (C & D & I & _).
  unfold id_of_key, record_key. cbn [fst snd]. now rewrite C, D, L.
Qed.

Lemma collectChanges_ids previous current :
  Forall (fun r => id r = id_of_key (record_key r))
    (collectChanges previous current).
Proof.
  rewrite collectChanges_passes.
  repeat (apply Forall_app; split);
    try (now apply compareLineMaps_ids).
  - apply Forall_forall. intros r I. apply in_for_push in I.
    destruct I as [f [_ E]]. now apply compareField_ids in E.
  - destruct (compareField key_amount previous current overtime_field)
      as [r|] eqn:E; simpl; constructor; [|constructor].
    now apply compareField_ids in E.
Qed.

(** X7. The ids of the records of a comparison are pairwise distinct, and so
    are their (category, code) pairs: no item is reported twice. *)
Theorem comparePayslips_ids_unique :
  forall previous current : NormalizedPayslip,
    let result := comparePayslips previous current in
    NoDup (map id (changes result))
    /\ NoDup (map record_key (changes result))
    /\ Forall (fun r => id r = id_of_key (record_key r)) (changes result).
Proof.
  intros previous current result.
  assert (K : NoDup (map record_key (changes result))).
  { unfold result, comparePayslips. cbn [changes].
    apply (Permutation_NoDup
             (Permutation_map record_key
                (Permutation_sym (sort_perm change_le _)))).
    apply collectChanges_keys. }
  assert (I : Forall (fun r => id r = id_of_key (record_key r))
                (changes result)).
  { apply changes_Forall, collectChanges_ids. }
  split; [|split; assumption].
  rewrite (map_ext_in id (fun r => id_of_key (record_key r))).
  - rewrite <- (map_map record_key id_of_key).
    apply NoDup_map_inj; [apply id_of_key_inj | exact K].
  - intros r Ir. rewrite Forall_forall in I. now apply I.
Qed.

(** ** Importance groups *)

Lemma of_importance_none i (l : list ChangeRecord) :
  Forall (fun c => importance c <> i) l -> of_importance i l = [].
Proof.
  intro F. induction F as [|c l D _ IH]; simpl; [reflexivity|].
  destruct (ImportanceLevel_beq (importance c) i) eqn:B; [|exact IH].
  apply internal_ImportanceLevel_dec_bl in B. contradiction.
Qed.

(** Not later in importance: high before medium before low. *)
Lemma sorted_importance_groups (l : list ChangeRecord) :
  StronglySorted
    (fun a b => (importanceOrder (importance a)
                 <= importanceOrder (importance b))%Z) l ->
  l = (of_importance high l ++ of_importance medium l
       ++ of_importance low l)%list.
Proof.
  induction 1 as [|x l S IH R]; [reflexivity|].
  unfold of_importance in *. simpl.
  destruct (importance x) eqn:Ix; simpl.
  - now rewrite <- IH.
  - assert (H0 : of_importance high l = []).
    { apply of_importance_none. apply Forall_impl with (2 := R).
      intros c Lc Ec. rewrite Ec in Lc. simpl in Lc. lia. }
    unfold of_importance in H0. rewrite H0 in *. simpl in *. now rewrite <- IH.
  - assert (H0 : of_importance high l = []).
    { apply of_importance_none. apply Forall_impl with (2 := R).
      intros c Lc Ec. rewrite Ec in Lc. simpl in Lc. lia. }
    assert (M0 : of_importance medium l = []).
    { apply of_importance_none. apply Forall_impl with (2 := R).
      intros c Lc Ec. rewrite Ec in Lc. simpl in Lc. lia. }
    unfold of_importance in H0, M0. rewrite H0, M0 in *. simpl in *.
    now rewrite <- IH.
Qed.

(** Whatever the deltas are, the sort leaves no record behind one of a
    lower importance rank. *)
Lemma changes_sorted_by_rank previous current :
  StronglySorted
    (fun a b => (importanceOrder (importance a)
                 <= importanceOrder (importance b))%Z)
    (changes (comparePayslips previous current)).
Proof.
  unfold comparePayslips. cbn [changes]. apply sort_sorted.
  - intros a b. apply change_le_ranks.
  - intros a b. apply change_le_ranks.
  - intros a b c. lia.
Qed.

(** X8. The change list of a comparison is its high-importance records, then
    its medium ones, then its low ones: [getHighImportanceChanges] answers a
    prefix of the list, and no record behind that prefix is of high
    importance. *)
Theorem high_importance_changes_lead :
  forall previous current : NormalizedPayslip,
    let result := comparePayslips previous current in
    changes result
    = (getHighImportanceChanges result
       ++ of_importance medium (changes result)
       ++ of_importance low (changes result))%list.
Proof.
  intros previous current result.
  apply (sorted_importance_groups (changes result)).
  apply changes_sorted_by_rank.
Qed.

(** ** The fact list *)

Lemma fact_le_iff a b : fact_le a b = true <-> fact_ranked_before a b.
Proof.
  unfold fact_le, fact_cmp, fact_ranked_before. rewrite Z.leb_le.
  destruct (Z.eqb_spec
              (importanceOrder (fact_importance a)
               - importanceOrder (fact_importance b)) 0) as [E|D]; simpl.
  - assert (E' : fact_importance a = fact_importance b)
      by (apply importanceOrder_inj; lia).
    rewrite E'. split; [intro; right; split; [reflexivity | lia]|].
    intros [L|[_ L]]; lia.
  - split; [intro; left; lia|].
    intros [L|[E' _]]; [lia|]. rewrite E' in D. lia.
Qed.

Lemma fact_ranked_before_total a b :
  fact_le a b = false -> fact_ranked_before b a.
Proof.
  intro F. assert (N : ~ fact_ranked_before a b)
    by (rewrite <- fact_le_iff; congruence).
  unfold fact_ranked_before in *.
  destruct (Z.lt_trichotomy (importanceOrder (fact_importance a))
              (importanceOrder (fact_importance b))) as [L|[E|G]].
  - exfalso. apply N. now left.
  - apply importanceOrder_inj in E. right. split; [now symmetry|].
    destruct (Z.le_gt_cases (typePriority (fact_type a))
                (typePriority (fact_type b))) as [Le|Gt]; [|lia].
    exfalso. apply N. right. now split.
  - now left.
Qed.

Lemma fact_ranked_before_trans a b c :
  fact_ranked_before a b -> fact_ranked_before b c -> fact_ranked_before a c.
Proof.
  unfold fact_ranked_before. intros [L1|[E1 L1]] [L2|[E2 L2]].
  - left. lia.
  - left. now rewrite <- E2.
  - left. now rewrite E1.
  - right. split; [congruence | lia].
Qed.

Lemma same_fact_key_tied i t a b :
  same_fact_key i t a = true -> same_fact_key i t b = true ->
  fact_le a b = true.
Proof.
  unfold same_fact_key. rewrite !andb_true_iff. intros [Ia Ta] [Ib Tb].
  apply internal_ImportanceLevel_dec_bl in Ia, Ib.
  apply FactType.internal_t_dec_bl in Ta, Tb.
  apply fact_le_iff. right. split; [congruence|].
  rewrite Ta, Tb. lia.
Qed.

Section FactList.
Context {host : Host}.

Lemma facts_assembleFacts comparison causalFacts :
  facts (assembleFacts comparison causalFacts)
  = Js.sort fact_le
      (map generateFactFromChange (relevantChanges comparison)
       ++ causalFacts)%list.
Proof. reflexivity. Qed.

Lemma facts_sorted comparison causalFacts :
  StronglySorted fact_ranked_before
    (facts (assembleFacts comparison causalFacts)).
Proof.
  rewrite facts_assembleFacts. apply sort_sorted.
  - intros a b. apply fact_le_iff.
  - apply fact_ranked_before_total.
  - apply fact_ranked_before_trans.
Qed.

Lemma facts_sorted_result comparison result :
  generateFacts comparison = inr result ->
  StronglySorted fact_ranked_before (facts result).
Proof.
  intro G. apply generateFacts_inr in G. destruct G as [_ ->].
  apply facts_sorted.
Qed.

(** X11. For a comparison result none of whose change codes names a member
    of [Object.prototype], [generateFacts] answers a fact list that holds
    one fact per relevant change and the causal facts, sorted by importance
    (high, medium, low) and within one importance by the type priority;
    facts of one importance and one type stay in the order of their
    generation. *)
Theorem generateFacts_facts_ordered :
  forall comparison : ComparisonResult,
    plain_codes (changes comparison) = true ->
    exists result causalFacts,
      generateCausalFacts (changes comparison) = inr causalFacts
      /\ generateFacts comparison = inr result
      /\ Permutation (facts result)
           (map generateFactFromChange (relevantChanges comparison)
            ++ causalFacts)%list
      /\ StronglySorted fact_ranked_before (facts result)
      /\ (forall i t,
             filter (same_fact_key i t) (facts result)
             = filter (same_fact_key i t)
                 (map generateFactFromChange (relevantChanges comparison)
                  ++ causalFacts)%list).
Proof.
  intros comparison P.
  exists (assembleFacts comparison (causalFactsOf (changes comparison))),
         (causalFactsOf (changes comparison)).
  split.
  { rewrite generateCausalFacts_cases.
    apply plain_codes_first in P. now rewrite P. }
  split; [now apply generateFacts_plain|].
  split; [apply sort_perm|]. split; [apply facts_sorted|].
  intros i t. apply sort_stable. apply same_fact_key_tied.
Qed.

End FactList.

Lemma generateFacts_facts_ordered_witness :
  exists result causalFacts,
    @generateCausalFacts sample_host
      (changes (comparePayslips may_normalized june_normalized))
    = inr causalFacts
    /\ @generateFacts sample_host
         (comparePayslips may_normalized june_normalized) = inr result
    /\ Permutation (facts result)
         (map (@generateFactFromChange sample_host)
            (relevantChanges (comparePayslips may_normalized june_normalized))
          ++ causalFacts)%list
    /\ StronglySorted fact_ranked_before (facts result)
    /\ (forall i t,
           filter (same_fact_key i t) (facts result)
           = filter (same_fact_key i t)
               (map (@generateFactFromChange sample_host)
                  (relevantChanges
                     (comparePayslips may_normalized june_normalized))
                ++ causalFacts)%list).
Proof.
  apply (@generateFacts_facts_ordered sample_host
           (comparePayslips may_normalized june_normalized)).
  reflexivity.
Defined.

(** ** Sentences *)

Lemma append_nonempty_l (a b : string) : a <> "" -> a ++ b <> "".
Proof. destruct a; [congruence | discriminate]. Qed.

Lemma append_nonempty_r (a b : string) : b <> "" -> a ++ b <> "".
Proof. destruct a; simpl; [trivial | discriminate]. Qed.

Ltac nonempty :=
  repeat first
    [ discriminate
    | apply append_nonempty_l; discriminate
    | apply append_nonempty_r ].

Section SentenceFacts.
Context {host : Host}.

Lemma generateNetPaySentence_nonempty change :
  generateNetPaySentence change <> "".
Proof.
  unfold generateNetPaySentence. destruct (direction change); nonempty.
Qed.

Lemma generateEarningChangeSentence_nonempty change :
  generateEarningChangeSentence change <> "".
Proof.
  unfold generateEarningChangeSentence. destruct (direction change);
    nonempty.
Qed.

Lemma generateDeductionChangeSentence_nonempty change :
  generateDeductionChangeSentence change <> "".
Proof.
  unfold generateDeductionChangeSentence. destruct (direction change);
    nonempty.
Qed.

Lemma generateTaxImpactSentence_nonempty change :
  generateTaxImpactSentence change <> "".
Proof.
  unfold generateTaxImpactSentence.
  repeat match goal with
         | |- (if ?b then _ else _) <> _ => destruct b
         end;
    try apply generateDeductionChangeSentence_nonempty; nonempty.
Qed.

Lemma generateCausalSentence_nonempty cause effect :
  generateCausalSentence cause effect <> "".
Proof.
  unfold generateCausalSentence.
  repeat match goal with
         | |- (if ?b then _ else _) <> _ => destruct b
         end;
    nonempty.
Qed.

Lemma generateFactFromChange_sentence change :
  sentence (generateFactFromChange change) <> "".
Proof.
  unfold generateFactFromChange. cbn [sentence].
  destruct (changeToFactType change);
    first [ apply generateNetPaySentence_nonempty
          | apply generateTaxImpactSentence_nonempty
          | apply generateEarningChangeSentence_nonempty
          | apply generateDeductionChangeSentence_nonempty
          | nonempty ].
Qed.

Lemma changeToFactType_direct change :
  changeToFactType change <> FactType.causal
  /\ changeToFactType change <> FactType.no_change
  /\ (changeToFactType change = FactType.net_pay_change
      <-> code change = "netPay").
Proof.
  unfold changeToFactType.
  destruct (String.eqb_spec (code change) "netPay") as [E|D].
  - repeat split; trivial; discriminate.
  - destruct (_ || _);
      [repeat split; try discriminate; intro; contradiction|].
    destruct (category change), (direction change);
      repeat split; try discriminate; intro; contradiction.
Qed.

Lemma causalFactsOf_sentences cs :
  Forall (fun f => sentence f <> "" /\ fact_type f = FactType.causal)
    (causalFactsOf cs).
Proof.
  unfold causalFactsOf. apply Forall_forall. intros f I.
  apply in_flat_map in I. destruct I as [cause [_ I]].
  apply in_for_push in I. destruct I as [e [_ E]].
  unfold causalFact in E.
  destruct (Js.get (changesByCode cs) e) as [effect|]; [|discriminate].
  destruct (negb _); [|discriminate].
  injection E as <-. cbn. split; [|reflexivity].
  apply generateCausalSentence_nonempty.
Qed.

Lemma facts_sentences_nonempty comparison :
  Forall (fun f => sentence f <> "")
    (facts (assembleFacts comparison (causalFactsOf (changes comparison)))).
Proof.
  rewrite facts_assembleFacts.
  apply (Permutation_Forall (Permutation_sym (sort_perm fact_le _))).
  apply Forall_app. split.
  - apply Forall_forall. intros f I. apply in_map_iff in I.
    destruct I as [c [<- _]]. apply generateFactFromChange_sentence.
  - apply Forall_impl with (2 := causalFactsOf_sentences _).
    now intros f [S _].
Qed.

(** X12. For a comparison result none of whose change codes names a member
    of [Object.prototype], [generateFacts] answers; every fact carries a
    sentence that is not empty, and none is of the type "no_change"; the
    list counts one fact per relevant change plus the causal facts. *)
Theorem generateFacts_facts_wellformed :
  forall comparison : ComparisonResult,
    plain_codes (changes comparison) = true ->
    exists result,
      generateFacts comparison = inr result
      /\ Forall
           (fun f => sentence f <> "" /\ fact_type f <> FactType.no_change)
           (facts result)
      /\ List.length (facts result)
         = (List.length (relevantChanges comparison)
            + List.length (getCausalFacts result))%nat.
Proof.
  intros comparison P. eexists.
  split; [now apply generateFacts_plain|]. split.
  - rewrite facts_assembleFacts.
    apply (Permutation_Forall (Permutation_sym (sort_perm fact_le _))).
    apply Forall_app. split.
    + apply Forall_forall. intros f I. apply in_map_iff in I.
      destruct I as [c [<- _]].
      split; [apply generateFactFromChange_sentence|].
      apply (changeToFactType_direct c).
    + apply Forall_impl with (2 := causalFactsOf_sentences _).
      intros f [S T]. split; [exact S|]. rewrite T. discriminate.
  - rewrite getCausalFacts_assembleFacts.
    rewrite facts_assembleFacts, sort_length, length_app, length_map.
    reflexivity.
Qed.

End SentenceFacts.

Lemma generateFacts_facts_wellformed_witness :
  exists result,
    @generateFacts sample_host
      (comparePayslips may_normalized june_normalized) = inr result
    /\ Forall
         (fun f => sentence f <> "" /\ fact_type f <> FactType.no_change)
         (facts result)
    /\ List.length (facts result)
       = (List.length
            (relevantChanges (comparePayslips may_normalized june_normalized))
          + List.length (getCausalFacts result))%nat.
Proof.
  apply (@generateFacts_facts_wellformed sample_host
           (comparePayslips may_normalized june_normalized)).
  reflexivity.
Defined.

(** ** Where the records come from *)

(** X6. A record is in the change list of a comparison exactly when one of
    the passes reports it: the line loop of a line category on a code of its
    maps, the aggregate loop on one of the six totals, or the overtime round
    of the key amounts. The list is empty exactly when no round reports
    anything: every line round is skipped, and the difference of the two
    values is 0 for each total and for the overtime. *)
Theorem comparePayslips_membership :
  forall (previous current : NormalizedPayslip),
    (forall r,
        In r (changes (comparePayslips previous current))
        <-> reported_by previous current r)
    /\ (changes (comparePayslips previous current) = []
        <-> (forall cat c,
                is_line_category cat = true ->
                compareLine cat (lines_of cat previous)
                  (lines_of cat current) c = None)
            /\ (forall field,
                   In field AGGREGATE_FIELDS ->
                   Js.eqn (getValue field current - getValue field previous) 0
                   = true)
            /\ Js.eqn (overtime (keyAmounts current)
                       - overtime (keyAmounts previous)) 0 = true).
Proof.
  intros previous current.
  split; [intro r; apply in_changes_iff|].
  split.
  - intro E. repeat split.
    + intros cat c L.
      destruct (compareLine cat (lines_of cat previous)
                  (lines_of cat current) c) as [r|] eqn:C; [|reflexivity].
      exfalso.
      assert (I : In r (changes (comparePayslips previous current))).
      { apply in_changes_iff. left. exists cat, c. split; [exact L|].
        split; [|exact C].
        destruct (in_dec string_dec c
                    (Js.keys (lines_of cat previous)
                     ++ Js.keys (lines_of cat current))%list) as [I|N];
          [exact I|].
        rewrite compareLine_absent in C by exact N. discriminate. }
      rewrite E in I. destruct I.
    + intros field F. apply compareField_None_iff with (cat := aggregate).
      destruct (compareField aggregate previous current field) as [r|] eqn:C;
        [|reflexivity].
      exfalso.
      assert (I : In r (changes (comparePayslips previous current))).
      { apply in_changes_iff. right. left. now exists field. }
      rewrite E in I. destruct I.
    + apply (compareField_None_iff key_amount previous current
               overtime_field).
      destruct (compareField key_amount previous current overtime_field)
        as [r|] eqn:C; [|reflexivity].
      exfalso.
      assert (I : In r (changes (comparePayslips previous current))).
      { apply in_changes_iff. right. right. exact C. }
      rewrite E in I. destruct I.
  - intros (L & A & K).
    destruct (changes (comparePayslips previous current)) as [|r l] eqn:E;
      [reflexivity|].
    exfalso.
    assert (I : In r (changes (comparePayslips previous current)))
      by (rewrite E; now left).
    apply in_changes_iff in I.
    destruct I as [(cat & c & Lc & _ & C)|[(field & F & C)|C]].
    + rewrite (L cat c Lc) in C. discriminate.
    + apply A in F.
      apply (proj2 (compareField_None_iff aggregate previous current field))
        in F.
      congruence.
    + apply (proj2 (compareField_None_iff key_amount previous current
                      overtime_field)) in K.
      congruence.
Qed.

(** ** The key takeaway *)

Lemma typePriority_net_pay t :
  (typePriority t <= 0)%Z -> t = FactType.net_pay_change.
Proof. destruct t; simpl; intro L; trivial; lia. Qed.

Lemma find_none_Forall {A} (p : A -> bool) (l : list A) :
  Forall (fun x => p x = false) l -> Js.find p l = None.
Proof.
  unfold Js.find. induction 1 as [|x l E _ IH]; simpl; [reflexivity|].
  now rewrite E.
Qed.

Section KeyTakeaway.
Context {host : Host}.

Lemma keyTakeaway_found comparison causalFacts f :
  Js.find is_net_pay_fact (facts (assembleFacts comparison causalFacts))
  = Some f ->
  sentence f <> "" ->
  keyTakeaway (assembleFacts comparison causalFacts) = sentence f.
Proof.
  intros F S. unfold assembleFacts in *. cbn [keyTakeaway facts] in *.
  unfold is_net_pay_fact in F. rewrite F.
  apply String.eqb_neq in S. now rewrite S.
Qed.

Lemma keyTakeaway_missing comparison causalFacts :
  Js.find is_net_pay_fact (facts (assembleFacts comparison causalFacts))
  = None ->
  keyTakeaway (assembleFacts comparison causalFacts) = no_significant_changes.
Proof.
  intros F. unfold assembleFacts in *. cbn [keyTakeaway facts] in *.
  unfold is_net_pay_fact in F. now rewrite F.
Qed.

(** X13. When the difference of the two net pays is not 0 and no line code
    of the two payslips names a member of [Object.prototype], the fact list
    of the pipeline opens with a net pay fact of high importance, and its
    sentence is the key takeaway. *)
Theorem keyTakeaway_is_leading_net_pay_fact :
  forall previous current : NormalizedPayslip,
    Js.eqn (netPay (totals current) - netPay (totals previous)) 0 = false ->
    plain_payslip previous = true ->
    plain_payslip current = true ->
    exists result f rest,
      generateFacts (comparePayslips previous current) = inr result
      /\ facts result = f :: rest
      /\ fact_type f = FactType.net_pay_change
      /\ fact_importance f = high
      /\ keyTakeaway result = sentence f.
Proof.
  intros previous current N Pp Pc.
  set (comparison := comparePayslips previous current).
  set (result := assembleFacts comparison (causalFactsOf (changes comparison))).
  assert (G : generateFacts comparison = inr result)
    by (apply generateFacts_plain; now apply changes_plain_codes).
  (* the aggregate net pay record and its fact *)
  destruct (compareField aggregate previous current netPay_field)
    as [r|] eqn:C.
  2:{ apply (compareField_None_iff aggregate previous current netPay_field)
        in C.
      change (getValue netPay_field current) with (netPay (totals current))
        in C.
      change (getValue netPay_field previous) with (netPay (totals previous))
        in C.
      congruence. }
  assert (Ir : In r (changes comparison)).
  { apply in_changes_iff. right. left. exists netPay_field.
    split; [simpl; unfold netPay_field; tauto | exact C]. }
  apply compareField_Some in C.
  destruct C as (_ & Hc & _ & _ & _ & _ & Hi & _).
  change (f_code netPay_field) with "netPay" in Hc, Hi.
  set (g := generateFactFromChange r).
  assert (Ig : In g (facts result)).
  { unfold result. rewrite facts_assembleFacts.
    apply (Permutation_in _ (Permutation_sym (sort_perm fact_le _))).
    apply in_or_app. left. apply in_map. unfold relevantChanges.
    apply filter_In. split; [exact Ir|]. rewrite Hc. apply orb_true_r. }
  assert (Tg : fact_type g = FactType.net_pay_change).
  { unfold g, generateFactFromChange, changeToFactType. cbn [fact_type].
    now rewrite Hc. }
  assert (Mg : fact_importance g = high) by exact Hi.
  (* the head of the sorted list ranks before it *)
  pose proof (facts_sorted comparison (causalFactsOf (changes comparison)))
    as S.
  fold result in S.
  destruct (facts result) as [|f rest] eqn:E; [destruct Ig|].
  exists result, f, rest. split; [exact G|]. split; [exact E|].
  assert (R : fact_importance f = high
              /\ fact_type f = FactType.net_pay_change).
  { destruct Ig as [->|Ig]; [now split|].
    inversion S as [|? ? _ F]; subst.
    rewrite Forall_forall in F. specialize (F g Ig).
    unfold fact_ranked_before in F. rewrite Mg, Tg in F. simpl in F.
    destruct F as [L|[Ei Lt]].
    - destruct (fact_importance f); simpl in L; lia.
    - split; [exact Ei | now apply typePriority_net_pay]. }
  destruct R as [Rh Rt]. split; [exact Rt|]. split; [exact Rh|].
  unfold result. apply keyTakeaway_found.
  - fold result. rewrite E. simpl. unfold is_net_pay_fact.
    now rewrite Rt.
  - pose proof (facts_sentences_nonempty comparison) as W.
    fold result in W. rewrite E in W.
    now inversion W.
Qed.

(** X14. With a net pay difference of 0, no line coded "netPay" and no line
    code that names a member of [Object.prototype], the key takeaway is the
    fixed sentence "No significant changes this month.", whatever else
    changed between the two payslips. *)
Theorem keyTakeaway_without_net_pay_change :
  forall previous current : NormalizedPayslip,
    Js.eqn (netPay (totals current) - netPay (totals previous)) 0 = true ->
    (forall cat,
        ~ In "netPay" (Js.keys (lines_of cat previous)
                       ++ Js.keys (lines_of cat current))%list) ->
    plain_payslip previous = true ->
    plain_payslip current = true ->
    exists result,
      generateFacts (comparePayslips previous current) = inr result
      /\ keyTakeaway result = no_significant_changes.
Proof.
  intros previous current Z NL Pp Pc. eexists.
  split; [apply generateFacts_plain; now apply changes_plain_codes|].
  apply keyTakeaway_missing, find_none_Forall.
  rewrite facts_assembleFacts.
  apply (Permutation_Forall (Permutation_sym (sort_perm fact_le _))).
  apply Forall_app. split.
  - apply Forall_forall. intros f I. apply in_map_iff in I.
    destruct I as [r [<- I]]. unfold relevantChanges in I.
    apply filter_In in I. destruct I as [I _].
    apply in_changes_iff in I.
    unfold is_net_pay_fact, generateFactFromChange. cbn [fact_type].
    destruct (FactType.t_beq (changeToFactType r) FactType.net_pay_change)
      eqn:B; [|reflexivity].
    exfalso. apply FactType.internal_t_dec_bl in B.
    apply (changeToFactType_direct r) in B.
    destruct I as [(cat & c & _ & Ic & C)|[(field & F & C)|C]].
    + apply compareLine_code in C. apply (NL cat). congruence.
    + pose proof C as C'. apply compareField_Some in C'.
      destruct C' as (_ & Hc & _). rewrite B in Hc.
      simpl in F.
      destruct F as [<-|[<-|[<-|[<-|[<-|[<-|[]]]]]]]; try discriminate Hc.
      pose proof (proj2 (compareField_None_iff aggregate previous current
                           netPay_field) Z) as Zn.
      unfold netPay_field in Zn. congruence.
    + apply compareField_Some in C. destruct C as (_ & Hc & _).
      rewrite B in Hc. discriminate Hc.
  - apply Forall_impl with (2 := causalFactsOf_sentences _).
    intros f [_ T]. unfold is_net_pay_fact. now rewrite T.
Qed.

End KeyTakeaway.

Lemma keyTakeaway_is_leading_net_pay_fact_witness :
  exists result f rest,
    @generateFacts sample_host
      (comparePayslips may_normalized june_normalized) = inr result
    /\ facts result = f :: rest
    /\ fact_type f = FactType.net_pay_change
    /\ fact_importance f = high
    /\ keyTakeaway result = sentence f.
Proof.
  apply (@keyTakeaway_is_leading_net_pay_fact sample_host
           may_normalized june_normalized);
    reflexivity.
Defined.

Lemma keyTakeaway_without_net_pay_change_witness :
  List.length
    (changes (comparePayslips may_normalized
                (normalizePayslip june_2012_level))) = 5%nat
  /\ exists result,
       @generateFacts sample_host
         (comparePayslips may_normalized (normalizePayslip june_2012_level))
       = inr result
       /\ keyTakeaway result = no_significant_changes.
Proof.
  split; [reflexivity|].
  apply (@keyTakeaway_without_net_pay_change sample_host may_normalized
           (normalizePayslip june_2012_level)).
  - reflexivity.
  - intros cat I. destruct cat; vm_compute in I; intuition discriminate.
  - reflexivity.
  - reflexivity.
Defined.

(** ** The key facts *)

(** X15. [getKeyFacts] answers the first [limit] facts of the list, all of
    them when the list is shorter; on a result of [generateFacts] no fact
    left out ranks before a fact kept. *)
Theorem getKeyFacts_most_important :
  forall (host : Host) (comparison : ComparisonResult)
         (result : FactsResult) (limit : nat),
    generateFacts comparison = inr result ->
    let kept := getKeyFacts result limit in
    let left_out := skipn limit (facts result) in
    List.length kept = Nat.min limit (List.length (facts result))
    /\ facts result = (kept ++ left_out)%list
    /\ (forall a b, In a kept -> In b left_out -> fact_ranked_before a b).
Proof.
  intros host comparison result limit G kept left_out.
  unfold kept, left_out, getKeyFacts.
  split; [apply length_firstn|].
  split; [symmetry; apply firstn_skipn|].
  apply (@sorted_app_cross _ fact_ranked_before).
  rewrite firstn_skipn. now apply (facts_sorted_result comparison).
Qed.

Lemma getKeyFacts_most_important_witness :
  let result :=
    @assembleFacts sample_host
      (comparePayslips may_normalized june_normalized)
      (@causalFactsOf sample_host
         (changes (comparePayslips may_normalized june_normalized))) in
  List.length (getKeyFacts result 5)
  = Nat.min 5 (List.length (facts result))
  /\ facts result = (getKeyFacts result 5 ++ skipn 5 (facts result))%list
  /\ (forall a b,
         In a (getKeyFacts result 5) -> In b (skipn 5 (facts result)) ->
         fact_ranked_before a b).
Proof.
  apply (getKeyFacts_most_important sample_host
           (comparePayslips may_normalized june_normalized)).
  reflexivity.
Defined.

(** ** The line maps of a normalized payslip *)

Lemma keys_set {V} (m : Js.Map V) (k : string) (v : V) :
  Js.keys (Js.set m k v) = Js.set_add (Js.keys m) k.
Proof.
  unfold Js.set_add.
  induction m as [|[k' v'] m IH]; simpl; [reflexivity|].
  rewrite (String.eqb_sym k k').
  destruct (String.eqb_spec k' k) as [->|D]; simpl; [reflexivity|].
  rewrite IH. destruct (Js.includes (Js.keys m) k); reflexivity.
Qed.

Lemma keys_build_map_from {A} (codeOf : A -> string)
    (norm : A -> NormalizedLine) (xs : list A) (m0 : LineMap) :
  Js.keys (fold_left (fun m x => Js.set m (codeOf x) (norm x)) xs m0)
  = fold_left Js.set_add (map codeOf xs) (Js.keys m0).
Proof.
  revert m0. induction xs as [|x xs IH]; intro m0; simpl; [reflexivity|].
  now rewrite IH, keys_set.
Qed.

Lemma get_build_map_from {A} (codeOf : A -> string)
    (norm : A -> NormalizedLine) (xs : list A) (m0 : LineMap) (c : string) :
  Js.get (fold_left (fun m x => Js.set m (codeOf x) (norm x)) xs m0) c
  = match List.find (fun x => codeOf x =? c) (rev xs) with
    | Some x => Some (norm x)
    | None => Js.get m0 c
    end.
Proof.
  revert m0. induction xs as [|x xs IH]; intro m0; simpl; [reflexivity|].
  rewrite IH, find_app. simpl.
  destruct (List.find _ (rev xs)); [reflexivity|].
  rewrite get_set, (String.eqb_sym c (codeOf x)).
  destruct (codeOf x =? c); reflexivity.
Qed.

Lemma set_entries_coded (m : LineMap) (k : string) (l : NormalizedLine) :
  l_code l = k ->
  Forall (fun kv => l_code (snd kv) = fst kv) m ->
  Forall (fun kv => l_code (snd kv) = fst kv) (Js.set m k l).
Proof.
  intros E F. induction F as [|[k' v'] m Hk Fm IH]; simpl.
  - constructor; [exact E | constructor].
  - destruct (String.eqb_spec k k') as [->|D].
    + constructor; [exact E | exact Fm].
    + constructor; [exact Hk | exact IH].
Qed.

Lemma build_map_holds_last_lines {A} (codeOf : A -> string)
    (norm : A -> NormalizedLine) (xs : list A) :
  (forall x, l_code (norm x) = codeOf x) ->
  holds_last_lines codeOf norm xs (build_map codeOf norm xs).
Proof.
  intro Hc. unfold holds_last_lines, build_map. repeat split.
  - now rewrite keys_build_map_from.
  - intro c. rewrite get_build_map_from.
    destruct (List.find _ (rev xs)); reflexivity.
  - assert (G : forall m0 : LineMap,
               Forall (fun kv => l_code (snd kv) = fst kv) m0 ->
               Forall (fun kv => l_code (snd kv) = fst kv)
                 (fold_left (fun m x => Js.set m (codeOf x) (norm x))
                    xs m0)).
    { induction xs as [|x xs IH]; intros m0 F; simpl; [exact F|].
      apply IH. apply set_entries_coded; [apply Hc | exact F]. }
    apply G. constructor.
Qed.

(** X19. Each of the four line maps of a normalized payslip has the codes of
    its raw list as keys, once each and in the order of first appearance;
    under a code it holds the normalization of the last raw line with that
    code (a later line replaces an earlier one), and nothing under a code no
    raw line has; every entry is keyed by the code it carries. *)
Theorem normalizePayslip_maps_hold_last_lines :
  forall payslip : PayslipHeader,
    let n := normalizePayslip payslip in
    (holds_last_lines e_lineCode normalizeEarningLine
       (h_earnings payslip) (earnings n)
     /\ holds_last_lines d_lineCode normalizeDeductionLine
          (h_deductions payslip) (deductions n)
     /\ holds_last_lines e_lineCode normalizeEarningLine
          (h_fringeBenefits payslip) (fringeBenefits n)
     /\ holds_last_lines d_lineCode normalizeDeductionLine
          (h_companyContributions payslip) (companyContributions n))
    /\ NoDup (Js.keys (earnings n)) /\ NoDup (Js.keys (deductions n))
    /\ NoDup (Js.keys (fringeBenefits n))
    /\ NoDup (Js.keys (companyContributions n)).
Proof.
  intros payslip n.
  assert (E : holds_last_lines e_lineCode normalizeEarningLine
                (h_earnings payslip) (earnings n))
    by (apply build_map_holds_last_lines; reflexivity).
  assert (D : holds_last_lines d_lineCode normalizeDeductionLine
                (h_deductions payslip) (deductions n))
    by (apply build_map_holds_last_lines; reflexivity).
  assert (F : holds_last_lines e_lineCode normalizeEarningLine
                (h_fringeBenefits payslip) (fringeBenefits n))
    by (apply build_map_holds_last_lines; reflexivity).
  assert (C : holds_last_lines d_lineCode normalizeDeductionLine
                (h_companyContributions payslip) (companyContributions n))
    by (apply build_map_holds_last_lines; reflexivity).
  split; [exact (conj E (conj D (conj F C)))|].
  destruct E as (-> & _), D as (-> & _), F as (-> & _), C as (-> & _).
  repeat split; apply new_Set_NoDup.
Qed.

Lemma get_entries {A} (codeOf : A -> string) (norm : A -> NormalizedLine)
    (xs : list A) (c : string) :
  Js.get (map (fun x => (codeOf x, norm x)) xs) c
  = option_map norm (List.find (fun x => codeOf x =? c) xs).
Proof.
  induction xs as [|x xs IH]; simpl; [reflexivity|].
  rewrite (String.eqb_sym c (codeOf x)).
  destruct (codeOf x =? c); [reflexivity | exact IH].
Qed.

(** X20. With one earning line per code, a payslip is primary exactly when
    the basic salary among the key amounts of its normalization is positive. *)
Theorem primary_iff_positive_basicSalary :
  forall payslip : PayslipHeader,
    NoDup (map e_lineCode (h_earnings payslip)) ->
    (isPrimaryPayslip payslip = true
     <-> Js.ltn 0 (basicSalary (keyAmounts (normalizePayslip payslip)))
         = true).
Proof.
  intros payslip U. unfold normalizePayslip. cbn [keyAmounts basicSalary].
  rewrite (@build_map_unique _ e_lineCode normalizeEarningLine _ U).
  unfold amount_of. rewrite get_entries.
  unfold isPrimaryPayslip, Js.find, Js.gtn.
  destruct (List.find _ (h_earnings payslip)) as [salary|]; simpl.
  - reflexivity.
  - split; discriminate.
Qed.

Lemma primary_iff_positive_basicSalary_witness :
  isPrimaryPayslip june_2012 = true
  <-> Js.ltn 0 (basicSalary (keyAmounts (normalizePayslip june_2012)))
      = true.
Proof.
  apply (primary_iff_positive_basicSalary june_2012).
  simpl. repeat constructor; simpl; intuition discriminate.
Defined.

(** ** Tax types *)

(** X25. The two tables of tax-type codes are inverse to each other: the
    code of a tax type reads back as that type, and a code the table knows
    is the code of the type it reads as. A string that is no code reads as
    the member of [Object.prototype] it names, if it names one, and as
    nothing otherwise. *)
Theorem taxType_code_round_trip :
  (forall t : TaxType, codeToTaxType (taxTypeToCode t) = Js.Own t)
  /\ (forall (c : string) (t : TaxType),
         codeToTaxType c = Js.Own t -> c = taxTypeToCode t)
  /\ (forall c : string,
         (forall t, c <> taxTypeToCode t) ->
         codeToTaxType c
         = if inherits c then Js.Inherited c else Js.Undefined)
  /\ (forall c : string,
         codeToTaxType c = Js.Undefined
         <-> (forall t, c <> taxTypeToCode t)
             /\ ~ In c Js.Object_prototype).
Proof.
  assert (R : forall t, codeToTaxType (taxTypeToCode t) = Js.Own t)
    by (intro t; destruct t; reflexivity).
  assert (G : forall c t,
             Js.get codeToTaxType_table c = Some t -> c = taxTypeToCode t).
  { intros c t. unfold codeToTaxType_table. simpl.
    repeat match goal with
           | |- context [String.eqb c ?k] =>
               destruct (String.eqb_spec c k) as [->|_]
           end;
      intro E; try discriminate; now injection E as <-. }
  assert (I : forall c t, codeToTaxType c = Js.Own t -> c = taxTypeToCode t).
  { intros c t. unfold codeToTaxType, Js.index.
    destruct (Js.get codeToTaxType_table c) as [t'|] eqn:E.
    - intros [= <-]. now apply G.
    - destruct (Js.includes Js.Object_prototype c); discriminate. }
  assert (M : forall c,
             (forall t, c <> taxTypeToCode t) ->
             codeToTaxType c
             = if inherits c then Js.Inherited c else Js.Undefined).
  { intros c N. unfold codeToTaxType, Js.index, inherits.
    destruct (Js.get codeToTaxType_table c) as [t|] eqn:E; [|reflexivity].
    apply G in E. exfalso. now apply (N t). }
  split; [exact R|]. split; [exact I|]. split; [exact M|].
  intro c. split.
  - intro U. split.
    + intros t E. subst c. rewrite R in U. discriminate.
    + intro P. apply includes_In in P.
      unfold codeToTaxType, Js.index in U.
      destruct (Js.get codeToTaxType_table c); [discriminate|].
      rewrite P in U. discriminate.
  - intros [N P]. rewrite (M c N). unfold inherits.
    apply includes_not_In in P. now rewrite P.
Qed.

(** ** Periods *)

Lemma succ_safe (n : Z) : Js.isSafeInteger n = true -> Js.succ n = (n + 1)%Z.
Proof.
  unfold Js.isSafeInteger, Js.succ. intro S. apply Z.leb_le in S.
  replace ((- 2 ^ 53 <=? n) && (n <? 2 ^ 53))%Z with true; [reflexivity|].
  symmetry. apply andb_true_iff. rewrite Z.leb_le, Z.ltb_lt.
  change (2 ^ 53)%Z with 9007199254740992%Z in *. lia.
Qed.

(** X24. [comparePeriods] answers the difference of the years, or of the
    months within one year: swapping the arguments negates it, it is 0
    exactly for equal year and month, and for a first period whose year and
    month are safe integers it is -1 whenever the second period is the
    month after the first. *)
Theorem comparePeriods_orders_periods :
  forall a b : Period,
    comparePeriods a b = (- comparePeriods b a)%Z
    /\ (comparePeriods a b = 0%Z <-> year a = year b /\ month a = month b)
    /\ (Js.isSafeInteger (year a) = true ->
        Js.isSafeInteger (month a) = true ->
        isConsecutiveMonth a b = true -> comparePeriods a b = (-1)%Z).
Proof.
  intros a b.
  assert (C : Js.isSafeInteger (year a) = true ->
              Js.isSafeInteger (month a) = true ->
              isConsecutiveMonth a b = true ->
              (month a = 12 /\ year b = year a + 1 /\ month b = 1)%Z
              \/ (month a <> 12 /\ year b = year a
                  /\ month b = month a + 1)%Z).
  { intros Sy Sm. unfold isConsecutiveMonth.
    rewrite (succ_safe _ Sy), (succ_safe _ Sm).
    destruct (Z.eqb_spec (month a) 12) as [M|M]; intro T;
      apply andb_true_iff in T; destruct T as [T1 T2];
      apply Z.eqb_eq in T1, T2; [left | right]; tauto. }
  unfold comparePeriods.
  destruct (Z.eqb_spec (year a) (year b)) as [E|D];
    destruct (Z.eqb_spec (year b) (year a)) as [E'|D'];
    try congruence; simpl;
    (split; [lia|]); (split; [lia|]);
    intros Sy Sm T; destruct (C Sy Sm T); lia.
Qed.

(** From 2^53 on a year plus 1 is the year again: January counts as the
    month after December of the same year. *)
Example unsafe_year_is_its_own_successor :
  let december := mkPeriod (2 ^ 53) 12 "" "" in
  let january := mkPeriod (2 ^ 53) 1 "" "" in
  isConsecutiveMonth december january = true
  /\ comparePeriods december january = 11%Z.
Proof. split; reflexivity. Qed.

Lemma StronglySorted_map {A B} (f : A -> B) (R : B -> B -> Prop)
    (l : list A) :
  StronglySorted (fun x y => R (f x) (f y)) l -> StronglySorted R (map f l).
Proof.
  induction 1 as [|x l _ IH F]; simpl; constructor; [exact IH|].
  apply Forall_map. exact F.
Qed.

Lemma comparePeriods_normalized a b :
  comparePeriods (period (normalizePayslip a)) (period (normalizePayslip b))
  = period_cmp a b.
Proof. reflexivity. Qed.

(** X23. [getNormalizedPrimaryPayslips] answers the normalizations of
    exactly the primary payslips of the list, each once, in an order in
    which [comparePeriods] never finds an earlier entry later than a later
    one. *)
Theorem getNormalizedPrimaryPayslips_sorted :
  forall payslips : list PayslipHeader,
    let normalized := getNormalizedPrimaryPayslips payslips in
    StronglySorted
      (fun x y => (comparePeriods (period x) (period y) <= 0)%Z) normalized
    /\ Permutation normalized
         (map normalizePayslip (filterPrimaryPayslips payslips))
    /\ List.length normalized
       = List.length (filter isPrimaryPayslip payslips).
Proof.
  intros payslips normalized. unfold normalized, getNormalizedPrimaryPayslips.
  split; [|split].
  - apply StronglySorted_map.
    apply (@sort_sorted _ period_le).
    + intros a b L. rewrite comparePeriods_normalized.
      unfold period_le in L. now apply Z.leb_le.
    + intros a b L. rewrite comparePeriods_normalized.
      apply period_before_total in L. unfold period_before, period_cmp in *.
      destruct (Z.eqb_spec (calendarYear b) (calendarYear a)); simpl; lia.
    + intros a b c. rewrite !comparePeriods_normalized.
      unfold period_cmp.
      destruct (Z.eqb_spec (calendarYear a) (calendarYear b)),
               (Z.eqb_spec (calendarYear b) (calendarYear c)),
               (Z.eqb_spec (calendarYear a) (calendarYear c));
        simpl; lia.
  - apply Permutation_map. unfold sortPayslipsByPeriod. apply sort_perm.
  - rewrite length_map. unfold sortPayslipsByPeriod. apply sort_length.
Qed.

(** ** The two entry points of the pipeline *)

Section EntryPoints.
Context {host : Host} {narrator : Narrator}.

Lemma pair_of_two a b :
  isPrimaryPayslip a = true -> isPrimaryPayslip b = true ->
  getPayslipPairForComparison [a; b]
  = if period_le a b
    then Some (normalizePayslip a, normalizePayslip b)
    else Some (normalizePayslip b, normalizePayslip a).
Proof.
  intros Pa Pb.
  unfold getPayslipPairForComparison, getNormalizedPrimaryPayslips,
    filterPrimaryPayslips, sortPayslipsByPeriod.
  simpl. rewrite Pa, Pb. simpl.
  destruct (period_le a b); reflexivity.
Qed.

Lemma compareSpecificPayslips_unfold a b options :
  compareSpecificPayslips a b options
  = match generateFacts
            (comparePayslips (normalizePayslip a) (normalizePayslip b)) with
    | inl thrown => failure (error_message thrown)
    | inr facts =>
        match narrate_step (Js.nullish (useLLM options) false)
                (narratorConfig options) facts with
        | inl thrown => failure (error_message thrown)
        | inr (text, used) =>
            {| success := true;
               error := None;
               payslips :=
                 Some (mkPair (normalizePayslip a) (normalizePayslip b));
               comparison :=
                 Some (comparePayslips (normalizePayslip a)
                         (normalizePayslip b));
               r_facts := Some facts;
               r_explanation := Some text;
               llmUsage := used |}
        end
    end.
Proof.
  unfold compareSpecificPayslips, compareSpecificPayslips_try.
  destruct (generateFacts _) as [thrown|facts]; [reflexivity|].
  destruct (narrate_step _ _ _) as [thrown|[text used]]; reflexivity.
Qed.

(** X26. On a list of two primary payslips [runPipeline] answers what
    [compareSpecificPayslips] answers on the two taken in period order: as
    listed when the first is of a period no later than the second, swapped
    otherwise. *)
Theorem runPipeline_of_two_primaries :
  forall (a b : PayslipHeader) (options : PipelineOptions),
    isPrimaryPayslip a = true ->
    isPrimaryPayslip b = true ->
    runPipeline [a; b] options
    = if period_le a b then compareSpecificPayslips a b options
      else compareSpecificPayslips b a options.
Proof.
  intros a b options Pa Pb.
  pose proof (pair_of_two a b Pa Pb) as P.
  destruct (period_le a b);
    rewrite (@runPipeline_paired _ _ [a; b] options _ _ P);
    now rewrite compareSpecificPayslips_unfold.
Qed.

(** X27. [compareSpecificPayslips] fails in two cases, and in no other: the
    facts generator throws, or narration by the collaborator is requested
    and its call is rejected. The failure carries the message of what was
    thrown. With the facts generated and no such request, the explanation
    is the deterministic rendering of the facts. *)
Theorem compareSpecificPayslips_failures :
  forall (a b : PayslipHeader) (options : PipelineOptions),
    let outcome :=
      generateFacts
        (comparePayslips (normalizePayslip a) (normalizePayslip b)) in
    let result := compareSpecificPayslips a b options in
    (success result = false
     <-> (exists thrown, outcome = inl thrown)
         \/ (useLLM options = Some true
             /\ exists facts thrown,
                  outcome = inr facts
                  /\ narrateFacts facts (narratorConfig options)
                     = inl thrown))
    /\ (forall thrown,
           outcome = inl thrown -> result = failure (error_message thrown))
    /\ (forall facts thrown,
           outcome = inr facts ->
           useLLM options = Some true ->
           narrateFacts facts (narratorConfig options) = inl thrown ->
           result = failure (error_message thrown))
    /\ (forall facts,
           outcome = inr facts ->
           Js.nullish (useLLM options) false = false ->
           success result = true
           /\ r_explanation result = Some (narrateFactsSimple facts)
           /\ llmUsage result = None).
Proof.
  intros a b options outcome result. unfold result.
  rewrite compareSpecificPayslips_unfold. fold outcome.
  destruct outcome as [e|facts].
  { split; [|split; [|split]].
    - split; [intros _; left; now exists e | reflexivity].
    - now intros thrown [= <-].
    - discriminate.
    - discriminate. }
  unfold narrate_step.
  destruct (useLLM options) as [[|]|] eqn:U; simpl.
  - destruct (narrateFacts facts (narratorConfig options)) as [t|r] eqn:N;
      simpl.
    + split; [|split; [|split]].
      * split; [|reflexivity].
        intros _. right. split; [reflexivity|]. now exists facts, t.
      * discriminate.
      * intros facts' t' [= <-] _ E. rewrite N in E. now injection E as <-.
      * discriminate.
    + split; [|split; [|split]].
      * split; [discriminate|].
        intros [[t E]|[_ (facts' & t & [= <-] & E)]]; [discriminate|].
        rewrite N in E. discriminate.
      * discriminate.
      * intros facts' t' [= <-] _ E. rewrite N in E. discriminate.
      * discriminate.
  - split; [|split; [|split]].
    + split; [discriminate|].
      intros [[t E]|[E _]]; discriminate.
    + discriminate.
    + discriminate.
    + intros facts' [= <-] _. repeat split.
  - split; [|split; [|split]].
    + split; [discriminate|].
      intros [[t E]|[E _]]; discriminate.
    + discriminate.
    + discriminate.
    + intros facts' [= <-] _. repeat split.
Qed.

End EntryPoints.

Lemma runPipeline_of_two_primaries_witness :
  @runPipeline sample_host narrator_down [june_2012; may_2012] without_llm
  = @compareSpecificPayslips sample_host narrator_down
      may_2012 june_2012 without_llm.
Proof.
  apply (@runPipeline_of_two_primaries sample_host narrator_down
           june_2012 may_2012 without_llm);
    reflexivity.
Defined.

(** ** The server *)

Lemma findIndex_cases {A} (p : A -> bool) (l : list A) :
  (findIndex p l = (-1)%Z /\ Forall (fun x => p x = false) l)
  \/ (exists before x after,
         l = (before ++ x :: after)%list
         /\ p x = true
         /\ Forall (fun y => p y = false) before
         /\ findIndex p l = Z.of_nat (List.length before)).
Proof.
  induction l as [|y l IH]; simpl.
  - left. split; [reflexivity | constructor].
  - destruct (p y) eqn:Py.
    + right. exists [], y, l. repeat split; trivial.
    + destruct IH as [[E F]|(before & x & after & -> & Px & F & E)].
      * left. rewrite E. simpl. split; [reflexivity | now constructor].
      * right. exists (y :: before), x, after. rewrite E.
        repeat split; trivial; [now constructor|].
        destruct (Z.eqb_spec (Z.of_nat (List.length before)) (-1)); [lia|].
        simpl List.length. lia.
Qed.

Lemma at_index_middle {A} (before : list A) (x : A) (after : list A) :
  at_index (before ++ x :: after) (Z.of_nat (List.length before)) = Some x.
Proof.
  unfold at_index.
  destruct (Z.ltb_spec (Z.of_nat (List.length before)) 0); [lia|].
  rewrite Nat2Z.id, nth_error_app2 by lia.
  now rewrite Nat.sub_diag.
Qed.

Lemma at_index_findIndex {A} (p : A -> bool) (l : list A) :
  at_index l (findIndex p l) = Js.find p l.
Proof.
  destruct (findIndex_cases p l)
    as [[E F]|(before & x & after & -> & Px & F & E)]; rewrite E.
  - unfold at_index. simpl. symmetry. now apply find_none_Forall.
  - rewrite at_index_middle. symmetry. unfold Js.find.
    rewrite find_app.
    pose proof (find_none_Forall p before F) as N. unfold Js.find in N.
    rewrite N. simpl. now rewrite Px.
Qed.

Section ServerFacts.
Context {host : Host} {narrator : Narrator}.
Variable primaryPayslips : list PayslipHeader.
Variable hasApiKey : bool.

Lemma findPayslipIndex_cases year month :
  (findPayslipIndex primaryPayslips year month = (-1)%Z
   /\ Forall (fun ps => of_period year month ps = false) primaryPayslips)
  \/ (exists before x after,
         primaryPayslips = (before ++ x :: after)%list
         /\ of_period year month x = true
         /\ Forall (fun ps => of_period year month ps = false) before
         /\ findPayslipIndex primaryPayslips year month
            = Z.of_nat (List.length before)).
Proof. apply (findIndex_cases (of_period year month)). Qed.

(** X28. What the server does for a month. With no primary payslip of that
    period it answers the error "No payslip found"; when the first payslip
    of the period opens the list, the error "No previous payslip";
    otherwise it compares the payslip that stands right before the first
    payslip of the period with that payslip; on a list sorted by period
    that payslip is of a strictly earlier period. When the facts generator
    throws, so does the function; otherwise it answers the comparison, and
    a rejected narration call only makes the explanation the deterministic
    rendering. *)
Theorem compareMonthWithPrevious_answers :
  forall (year month : Z) (useLLM : bool),
    let answer :=
      compareMonthWithPrevious primaryPayslips hasApiKey year month useLLM in
    (Forall (fun ps => of_period year month ps = false) primaryPayslips
     /\ answer
        = inr (MonthError
                 ("No payslip found for " ++ Js.show_int month ++ "/"
                  ++ Js.show_int year)))
    \/ (exists x after,
           primaryPayslips = x :: after
           /\ of_period year month x = true
           /\ answer
              = inr (MonthError
                       ("No previous payslip to compare with for "
                        ++ Js.show_int month ++ "/" ++ Js.show_int year)))
    \/ (exists before previous current after,
           primaryPayslips
           = (before ++ previous :: current :: after)%list
           /\ of_period year month current = true
           /\ Forall (fun ps => of_period year month ps = false)
                (before ++ [previous])
           /\ (StronglySorted period_before primaryPayslips ->
               earlier_than year month previous)
           /\ match generateFacts
                      (comparePayslips (normalizePayslip previous)
                         (normalizePayslip current)) with
              | inl thrown => answer = inl thrown
              | inr factsResult =>
                  exists result,
                    answer = inr (MonthCompared result)
                    /\ m_previous result = side_of previous
                    /\ m_current result = side_of current
                    /\ m_summary result
                       = summary (comparePayslips (normalizePayslip previous)
                                    (normalizePayslip current))
                    /\ (m_explanation result, llmUsed result)
                       = server_narrate useLLM hasApiKey factsResult
              end).
Proof.
  intros year month useLLM answer. unfold answer, compareMonthWithPrevious.
  destruct (findPayslipIndex_cases year month)
    as [[E F]|(before & x & after & L & Px & F & E)]; rewrite E.
  - left. split; [exact F | reflexivity].
  - right.
    destruct (Z.eqb_spec (Z.of_nat (List.length before)) (-1)); [lia|].
    destruct before as [|y before] using rev_ind.
    + left. exists x, after. repeat split; assumption.
    + clear IHbefore. right.
      assert (L' : primaryPayslips
                   = (before ++ y :: x :: after)%list)
        by (rewrite L, <- app_assoc; reflexivity).
      assert (A1 : at_index primaryPayslips
                     (Z.of_nat (List.length (before ++ [y]))) = Some x)
        by (rewrite L; apply at_index_middle).
      assert (A2 : at_index primaryPayslips
                     (Z.of_nat (List.length (before ++ [y])) - 1) = Some y).
      { replace (Z.of_nat (List.length (before ++ [y])) - 1)%Z
          with (Z.of_nat (List.length before))
          by (rewrite length_app; simpl; lia).
        rewrite L'. apply at_index_middle. }
      destruct (Z.eqb_spec (Z.of_nat (List.length (before ++ [y]))) 0)
        as [Z0|_]; [rewrite length_app in Z0; simpl in Z0; lia|].
      rewrite A1, A2.
      exists before, y, x, after.
      split; [exact L'|]. split; [exact Px|]. split; [exact F|].
      split.
      * intro S. rewrite L' in S.
        assert (B : period_before y x).
        { apply (@sorted_app_cross _ period_before (before ++ [y])
                   (x :: after)); [now rewrite <- app_assoc | | now left].
          apply in_or_app. right. now left. }
        assert (Ny : of_period year month y = false).
        { rewrite Forall_forall in F. apply F, in_or_app. right. now left. }
        unfold of_period, period_before, earlier_than in *.
        apply andb_true_iff in Px. destruct Px as [Px1 Px2].
        apply Z.eqb_eq in Px1, Px2.
        apply andb_false_iff in Ny.
        destruct Ny as [Ny|Ny]; apply Z.eqb_neq in Ny; lia.
      * destruct (generateFacts
                    (comparePayslips (normalizePayslip y)
                       (normalizePayslip x))) as [thrown|factsResult];
          [reflexivity|].
        destruct (server_narrate useLLM hasApiKey factsResult)
          as [text used] eqn:N.
        eexists. split; [reflexivity|]. repeat (split; [reflexivity|]).
        cbn [m_explanation llmUsed]. reflexivity.
Qed.

End ServerFacts.

Lemma find_filter {A} (p q : A -> bool) (l : list A) :
  List.find p (filter q l) = List.find (fun x => p x && q x) l.
Proof.
  induction l as [|x l IH]; simpl; [reflexivity|].
  destruct (q x); simpl.
  - rewrite andb_true_r. destruct (p x); [reflexivity | exact IH].
  - rewrite andb_false_r. exact IH.
Qed.

Lemma find_head_filter {A} (p : A -> bool) (l : list A) :
  List.find p l = hd_error (filter p l).
Proof.
  induction l as [|x l IH]; simpl; [reflexivity|].
  destruct (p x); [reflexivity | exact IH].
Qed.

Lemma of_period_tied year month a b :
  of_period year month a = true -> of_period year month b = true ->
  period_le a b = true.
Proof.
  unfold of_period. rewrite !andb_true_iff, !Z.eqb_eq.
  intros [Ya Ma] [Yb Mb]. apply period_le_iff. unfold period_before. lia.
Qed.

(** X29. The payslip the server finds for a period in its sorted list of
    primary payslips is the one [getPrimaryPayslipForPeriod] finds in the
    list as loaded: the first primary payslip of that period. *)
Theorem server_lookup_is_getPrimaryPayslipForPeriod :
  forall (headers : list PayslipHeader) (year month : Z),
    let primaryPayslips :=
      sortPayslipsByPeriod (filterPrimaryPayslips headers) in
    at_index primaryPayslips (findPayslipIndex primaryPayslips year month)
    = getPrimaryPayslipForPeriod headers year month.
Proof.
  intros headers year month primaryPayslips.
  change (findPayslipIndex primaryPayslips year month)
    with (findIndex (of_period year month) primaryPayslips).
  rewrite (at_index_findIndex (of_period year month) primaryPayslips).
  unfold Js.find, primaryPayslips, sortPayslipsByPeriod.
  rewrite find_head_filter.
  rewrite (@sort_stable _ period_le (of_period year month) _
             (of_period_tied year month)).
  rewrite <- find_head_filter.
  unfold filterPrimaryPayslips, getPrimaryPayslipForPeriod, Js.find.
  apply find_filter.
Qed.

(** ** Swapping the two payslips *)

Lemma getChangeDirection_mirror ov nv isAdded isRemoved :
  isAdded && isRemoved = false ->
  getChangeDirection nv ov isRemoved isAdded
  = mirror (getChangeDirection ov nv isAdded isRemoved).
Proof.
  unfold getChangeDirection, Js.gtn.
  destruct isAdded, isRemoved; simpl; try discriminate; trivial.
  intros _.
  destruct (Js.ltn ov nv) eqn:G, (Js.ltn nv ov) eqn:L; trivial.
  rewrite (ltn_asym _ _ G) in L. discriminate.
Qed.

Lemma count_pushed_mirror d (o o' : option ChangeRecord) :
  (o = None <-> o' = None) ->
  (forall r r', o = Some r -> o' = Some r' ->
                direction r' = mirror (direction r)) ->
  count_direction d (pushed o) = count_direction (mirror d) (pushed o').
Proof.
  intros N M. destruct o as [r|], o' as [r'|]; simpl.
  - unfold count_direction. simpl. rewrite (M r r' eq_refl eq_refl).
    destruct (direction r), d; reflexivity.
  - destruct N as [_ N]. discriminate (N eq_refl).
  - destruct N as [N _]. discriminate (N eq_refl).
  - reflexivity.
Qed.

Lemma compareLine_mirror cat oldMap newMap c d :
  count_direction d (pushed (compareLine cat oldMap newMap c))
  = count_direction (mirror d) (pushed (compareLine cat newMap oldMap c)).
Proof.
  assert (X : isAddedIn oldMap newMap c && isRemovedIn oldMap newMap c
              = false)
    by (unfold isAddedIn, isRemovedIn;
        destruct (Js.truthy (Js.get oldMap c)),
                 (Js.truthy (Js.get newMap c)); reflexivity).
  assert (A : isAddedIn newMap oldMap c = isRemovedIn oldMap newMap c)
    by (unfold isAddedIn, isRemovedIn; apply andb_comm).
  assert (R : isRemovedIn newMap oldMap c = isAddedIn oldMap newMap c)
    by (unfold isAddedIn, isRemovedIn; apply andb_comm).
  apply count_pushed_mirror; rewrite !compareLine_cases, A, R,
    (eqn_sub_sym (amount_of oldMap c) (amount_of newMap c)).
  - destruct (Js.eqn (amount_of oldMap c) 0),
             (Js.eqn (amount_of newMap c) 0),
             (Js.eqn (amount_of newMap c - amount_of oldMap c) 0),
             (isAddedIn oldMap newMap c), (isRemovedIn oldMap newMap c);
      simpl; split; congruence.
  - intros r r' E E'.
    destruct (_ || _); [discriminate|].
    destruct (_ || _); [discriminate|].
    injection E as <-. injection E' as <-.
    unfold line_record. cbn [direction]. rewrite A, R.
    now apply getChangeDirection_mirror.
Qed.

Lemma compareField_mirror cat prev curr field d :
  count_direction d (pushed (compareField cat prev curr field))
  = count_direction (mirror d) (pushed (compareField cat curr prev field)).
Proof.
  apply count_pushed_mirror.
  - rewrite !compareField_None_iff.
    now rewrite (eqn_sub_sym (getValue field curr) (getValue field prev)).
  - intros r r' E E'. apply compareField_Some in E, E'.
    destruct E as (_ & _ & _ & _ & _ & _ & _ & ->).
    destruct E' as (_ & _ & _ & _ & _ & _ & _ & ->).
    now apply (getChangeDirection_mirror _ _ false false).
Qed.

Lemma count_direction_app d (l1 l2 : list ChangeRecord) :
  count_direction d (l1 ++ l2)
  = (count_direction d l1 + count_direction d l2)%nat.
Proof. unfold count_direction. now rewrite filter_app, length_app. Qed.

Lemma count_direction_perm d (l l' : list ChangeRecord) :
  Permutation l l' -> count_direction d l = count_direction d l'.
Proof.
  intro P. unfold count_direction.
  apply Permutation_length. now apply filter_perm.
Qed.

Lemma count_flat_map_mirror {A} d d' (f g : A -> list ChangeRecord)
    (l : list A) :
  (forall x, count_direction d (f x) = count_direction d' (g x)) ->
  count_direction d (flat_map f l) = count_direction d' (flat_map g l).
Proof.
  intro E. induction l as [|x l IH]; simpl; [reflexivity|].
  now rewrite !count_direction_app, E, IH.
Qed.

Lemma allCodes_swap oldMap newMap :
  Permutation (allCodes oldMap newMap) (allCodes newMap oldMap).
Proof.
  apply NoDup_Permutation; try apply new_Set_NoDup.
  intro c. rewrite !allCodes_In, !in_app_iff. tauto.
Qed.

Lemma compareLineMaps_mirror cat oldMap newMap d :
  count_direction d (compareLineMaps cat oldMap newMap)
  = count_direction (mirror d) (compareLineMaps cat newMap oldMap).
Proof.
  unfold compareLineMaps. rewrite !for_push_flat_map.
  rewrite (count_flat_map_mirror d (mirror d) _
             (fun c => pushed (compareLine cat newMap oldMap c)))
    by (intro c; apply compareLine_mirror).
  apply count_direction_perm, Permutation_flat_map, allCodes_swap.
Qed.

Lemma compareAggregates_mirror cat fields prev curr d :
  count_direction d (compareAggregates cat fields prev curr)
  = count_direction (mirror d) (compareAggregates cat fields curr prev).
Proof.
  unfold compareAggregates. rewrite !for_push_flat_map.
  apply count_flat_map_mirror. intro f. apply compareField_mirror.
Qed.

Lemma collectChanges_mirror previous current d :
  count_direction d (collectChanges previous current)
  = count_direction (mirror d) (collectChanges current previous).
Proof.
  rewrite !collectChanges_passes, !count_direction_app.
  now rewrite !(compareLineMaps_mirror _ _ _ d),
              (compareAggregates_mirror _ _ _ _ d),
              (compareField_mirror _ _ _ _ d).
Qed.

Lemma changes_count previous current d :
  count_direction d (changes (comparePayslips previous current))
  = count_direction d (collectChanges previous current).
Proof.
  unfold comparePayslips. cbn [changes].
  apply count_direction_perm, sort_perm.
Qed.

(** Every record has one of the five directions. *)
Lemma count_all_directions (cs : list ChangeRecord) :
  List.length cs
  = (count_direction increase cs + count_direction decrease cs
     + count_direction added cs + count_direction removed cs
     + count_direction unchanged cs)%nat.
Proof.
  unfold count_direction.
  induction cs as [|c cs IH]; simpl; [reflexivity|].
  destruct (direction c); simpl; lia.
Qed.

(** X10. Comparing the two payslips the other way round reports the same
    number of changes with the directions mirrored: increases become
    decreases, added items become removed ones, and the net pay delta
    changes sign. *)
Theorem comparePayslips_swapped :
  forall previous current : NormalizedPayslip,
    let forth := summary (comparePayslips previous current) in
    let back := summary (comparePayslips current previous) in
    totalChanges forth = totalChanges back
    /\ increases forth = decreases back
    /\ decreases forth = increases back
    /\ s_added forth = s_removed back
    /\ s_removed forth = s_added back
    /\ Js.same (netPayDelta forth) (Js.neg (netPayDelta back)).
Proof.
  intros previous current forth back.
  assert (C : forall d,
             count_direction d (changes (comparePayslips previous current))
             = count_direction (mirror d)
                 (changes (comparePayslips current previous))).
  { intro d. rewrite !changes_count. apply collectChanges_mirror. }
  pose proof (count_all_directions
                (changes (comparePayslips previous current))) as T1.
  pose proof (count_all_directions
                (changes (comparePayslips current previous))) as T2.
  pose proof (C increase) as Ci. pose proof (C decrease) as Cd.
  pose proof (C added) as Ca. pose proof (C removed) as Cr.
  pose proof (C unchanged) as Cu.
  cbn [mirror] in *.
  unfold forth, back, comparePayslips in *.
  cbn [summary changes totalChanges increases decreases s_added s_removed
       netPayDelta totals] in *.
  repeat split; try assumption; try lia.
  apply same_sub_neg.
Qed.

(** ** Causal facts link declared pairs only *)

(** X16. Every causal fact links two change records of the list whose codes
    the dependency table declares as cause and effect ([couldHaveCaused]),
    the effect record not unchanged; its id names the two codes and its
    related ids are the ids of the two records. *)
Theorem generateCausalFacts_sound :
  forall (host : Host) (cs : list ChangeRecord) (causalFacts : list Fact)
         (f : Fact),
    generateCausalFacts cs = inr causalFacts ->
    In f causalFacts ->
    exists cause effect,
      In cause cs /\ In effect cs
      /\ couldHaveCaused (code cause) (code effect) = inr true
      /\ direction effect <> unchanged
      /\ fact_id f = "causal:" ++ code cause ++ "->" ++ code effect
      /\ relatedChangeIds f = Some [id cause; id effect].
Proof.
  intros host cs causalFacts f G I.
  rewrite generateCausalFacts_cases in G.
  destruct (first_inheriting cs) eqn:P; [discriminate|].
  injection G as <-. unfold causalFactsOf in I.
  apply in_flat_map in I. destruct I as [cause [Ic I]].
  apply in_for_push in I. destruct I as [e [Ie E]].
  unfold causalFact in E. rewrite get_changesByCode in E.
  destruct (lastWithCode cs e) as [effect|] eqn:L; [|discriminate].
  destruct (ChangeDirection_beq (direction effect) unchanged) eqn:B;
    [discriminate|].
  injection E as <-. apply lastWithCode_In in L. destruct L as [Ief Ce].
  exists cause, effect. split; [exact Ic|]. split; [exact Ief|].
  split.
  { unfold couldHaveCaused. rewrite getAffectedBy_cases.
    unfold first_inheriting in P.
    rewrite (find_none _ _ P cause Ic), Ce.
    f_equal. now apply includes_In. }
  split; [|split; reflexivity].
  intro U. rewrite U in B. discriminate.
Qed.

Lemma generateCausalFacts_sound_witness :
  exists cause effect,
    In cause (changes (comparePayslips may_normalized june_normalized))
    /\ In effect (changes (comparePayslips may_normalized june_normalized))
    /\ @couldHaveCaused sample_host (code cause) (code effect) = inr true
    /\ direction effect <> unchanged
    /\ "causal:PAYE->netPay" = "causal:" ++ code cause ++ "->" ++ code effect
    /\ Some ["deduction:PAYE:amount"; "aggregate:netPay"]
       = Some [id cause; id effect].
Proof.
  apply (generateCausalFacts_sound sample_host
           (changes (comparePayslips may_normalized june_normalized))
           (@causalFactsOf sample_host
              (changes (comparePayslips may_normalized june_normalized)))
           (mkFact "causal:PAYE->netPay" FactType.causal medium
              "The increase in PAYE (ZAR 200.00) reduced your net pay."
              (Some ["deduction:PAYE:amount"; "aggregate:netPay"]) None)).
  - reflexivity.
  - vm_compute. tauto.
Defined.

(** X30. What the dependency table answers for a code, and what
    [couldHaveCaused] makes of it: for a code that names a member of
    [Object.prototype] the table hands out that member and the test throws;
    for any other code it hands out the codes listed under it, none for a
    code it does not list, and the test tells whether the effect is among
    them. *)
Theorem getAffectedBy_table_or_prototype :
  forall (host : Host) (causeCode effectCode : string),
    (In causeCode Js.Object_prototype ->
     getAffectedBy causeCode = Js.Inherited causeCode
     /\ couldHaveCaused causeCode effectCode
        = inl (ErrorObject (notFunction causeCode)))
    /\ (~ In causeCode Js.Object_prototype ->
        getAffectedBy causeCode = Js.Own (affectedCodes causeCode)
        /\ couldHaveCaused causeCode effectCode
           = inr (Js.includes (affectedCodes causeCode) effectCode)
        /\ (~ In causeCode (Js.keys CAUSAL_RULES) ->
            affectedCodes causeCode = [])).
Proof.
  intros host causeCode effectCode. unfold couldHaveCaused.
  rewrite getAffectedBy_cases. unfold inherits. split; intro P.
  - apply includes_In in P. rewrite P. now split.
  - apply includes_not_In in P. rewrite P.
    split; [reflexivity|]. split; [reflexivity|].
    intro N. apply get_None in N. unfold affectedCodes. now rewrite N.
Qed.

Lemma getAffectedBy_table_or_prototype_witness :
  getAffectedBy "toString" = Js.Inherited "toString"
  /\ @couldHaveCaused sample_host "toString" "netPay"
     = inl (ErrorObject "affects.includes is not a function").
Proof.
  apply (getAffectedBy_table_or_prototype sample_host "toString" "netPay").
  vm_compute. tauto.
Defined.

Lemma isPrimaryPayslip_iff_witness :
  isPrimaryPayslip june_2012 = true <-> has_positive_salary june_2012.
Proof.
  apply (@isPrimaryPayslip_iff june_2012).
  simpl. repeat constructor; simpl; intuition discriminate.
Defined.

(** ** Sorting payslips and naming months *)

(** X22. [sortPayslipsByPeriod] answers the payslips it was given, each
    once, oldest period first; payslips of one period stay in the order in
    which they were listed. *)
Theorem sortPayslipsByPeriod_sorts :
  forall payslips : list PayslipHeader,
    let sorted := sortPayslipsByPeriod payslips in
    Permutation sorted payslips
    /\ StronglySorted period_before sorted
    /\ (forall year month,
           filter (of_period year month) sorted
           = filter (of_period year month) payslips).
Proof.
  intros payslips sorted. unfold sorted.
  split; [apply sort_perm|]. split; [apply sortPayslipsByPeriod_sorted|].
  intros year month. apply sort_stable. apply of_period_tied.
Qed.

(** X18. [getMonthName] answers one of the twelve names for a month from 1
    to 12, and "Month n" for any other number n. *)
Theorem getMonthName_in_and_out_of_range :
  forall month : Z,
    ((1 <= month <= 12)%Z ->
     nth_error months (Z.to_nat (month - 1)) = Some (getMonthName month))
    /\ ((month < 1 \/ 12 < month)%Z ->
        getMonthName month = "Month " ++ Js.show_int month).
Proof.
  intro month. unfold getMonthName. split.
  - intro R.
    destruct (Z.leb_spec 0 (month - 1)); [|lia].
    destruct (nth_error months (Z.to_nat (month - 1))) as [name|] eqn:N;
      [reflexivity|].
    apply nth_error_None in N. simpl in N. lia.
  - intros [L|G].
    + destruct (Z.leb_spec 0 (month - 1)); [lia | reflexivity].
    + destruct (Z.leb_spec 0 (month - 1)); [|reflexivity].
      assert (N : nth_error months (Z.to_nat (month - 1)) = None)
        by (apply nth_error_None; simpl; lia).
      now rewrite N.
Qed.

Lemma getMonthName_in_and_out_of_range_witness :
  nth_error months (Z.to_nat (6 - 1)) = Some (getMonthName 6)
  /\ getMonthName 13 = "Month " ++ Js.show_int 13.
Proof.
  split.
  - apply (getMonthName_in_and_out_of_range 6). lia.
  - apply (getMonthName_in_and_out_of_range 13). lia.
Defined.
